(** * Oasis engine rendering core: RenderQueue, Camera, SubFont, TextRenderer

    A shallow embedding of the rendering core and the proofs of its
    specification.  The first part holds the model of the classes and
    the notions the statements use; the second part holds the proofs.

    Conventions of the embedding.
    - A JavaScript [number] is an exact number: array indices and lengths
      are [nat], sort keys, comparator results, sizes and flag words are [Z],
      the camera's coordinates and matrices are rationals.  NaN and the
      infinities have no counterpart; the bitwise operators on flag words
      bring their operand to 32 bits; [(from + to) >> 1] is the half of
      [from + to], which it is for every array a JavaScript engine can hold
      (fewer than 2^30 elements).
    - An array is a [list]; [a[i]] is the lookup [a !! i] and [a[i] = v] is
      [aset].  A read or a write outside the array, which in JavaScript
      yields [undefined] or grows the array, ends the computation with
      [None]; the theorems show that the sort never gets there.
    - A loop whose trip count is not fixed on entry takes a bound on the
      number of iterations; running out of it gives [None] as well.
    - An object that is updated in place is a value that the operation
      returns anew; a getter that refreshes a cache returns the object
      along with its result. *)

From Stdlib Require Import ZArith QArith Qcanon Field List Lia Permutation Sorted
  Ascii.
From stdpp Require Import base decidable option list sorting gmap strings pretty.

Close Scope Q_scope.
Close Scope Qc_scope.

(** * Part I: the model *)

(** ** RenderQueue: the sort *)

Module RenderQueue.

(** The owner of a render element, reduced to what the queue reads. *)
Record Renderer := {
  priority : Z;
  _distanceForSort : Z;
  layer : Z
}.

(** One draw request: the renderer it belongs to, and the material and
    sub-mesh it draws with.  Several elements of one queue may share their
    component (a renderer submits one element per sub-mesh). *)
Record RenderElement := {
  component : Renderer;
  material : nat;
  subMesh : nat
}.

(** [a - b || c - d] *)
Definition or_else (x y : Z) : Z := if decide (x = 0)%Z then y else x.

Definition _compareFromNearToFar (a b : RenderElement) : Z :=
  or_else (priority (component a) - priority (component b))
          (_distanceForSort (component a) - _distanceForSort (component b)).

Definition _compareFromFarToNear (a b : RenderElement) : Z :=
  or_else (priority (component a) - priority (component b))
          (_distanceForSort (component b) - _distanceForSort (component a)).

(** The sort keys of an element, and the two comparators on keys alone. *)
Definition sortKey (e : RenderElement) : Z * Z :=
  (priority (component e), _distanceForSort (component e)).

Definition compareKeysNearToFar (k1 k2 : Z * Z) : Z :=
  or_else (k1.1 - k2.1) (k1.2 - k2.2).

Definition compareKeysFarToNear (k1 k2 : Z * Z) : Z :=
  or_else (k1.1 - k2.1) (k2.2 - k1.2).

(** Lexicographic order on (priority, distance). *)
Definition lex_le (k1 k2 : Z * Z) : Prop :=
  (k1.1 < k2.1)%Z ∨ (k1.1 = k2.1 ∧ k1.2 ≤ k2.2)%Z.

(** Ascending priority and, for equal priority, descending distance. *)
Definition far_le (k1 k2 : Z * Z) : Prop :=
  (k1.1 ≤ k2.1)%Z ∧ (k1.1 = k2.1 → k2.2 ≤ k1.2)%Z.

Section Sort.
Context {T : Type}.
Variable compareFunc : T → T → Z.

(** [a[i] = v] *)
Definition aset (a : list T) (i : nat) (v : T) : option (list T) :=
  if decide (i < length a) then Some (<[i:=v]> a) else None.

(** [for (let i = start; i < start + n; i++) body] *)
Fixpoint for_range (n start : nat) (body : nat → list T → option (list T))
    (a : list T) : option (list T) :=
  match n with
  | 0 => Some a
  | S n => a' ← body start a; for_range n (S start) body a'
  end.

(** The inner loop of [_insertionSort] and the store that follows it:
    [for (j = i - 1; j >= from; j--) {..}  a[j + 1] = element].
    [j] runs down to [from - 1], which is [-1] when [from] is [0], so the
    loop is written on [hole = j + 1]. *)
Fixpoint _insertionSort_shift (a : list T) (from hole : nat) (element : T)
    : option (list T) :=
  match hole with
  | 0 => aset a 0 element
  | S j =>
      if decide (from ≤ j) then
        tmp ← a !! j;
        let order := compareFunc tmp element in
        if decide (order > 0)%Z then
          a' ← aset a (S j) tmp;
          _insertionSort_shift a' from j element
        else aset a (S j) element
      else aset a (S j) element
  end.

Definition _insertionSort (a : list T) (from to : nat) : option (list T) :=
  for_range (to - (from + 1)) (from + 1)
    (λ i a, element ← a !! i; _insertionSort_shift a from i element) a.

(** What the [do .. while (order > 0)] loop of the partition leaves. *)
Inductive scan_result :=
  | BreakPartition                       (* high_start == i *)
  | Found (high_start : nat) (order : Z).

(** [do { high_start--; if (high_start == i) break partition;
          order = compareFunc(a[high_start], pivot); } while (order > 0)] *)
Fixpoint scan_down (a : list T) (pivot : T) (i high_start : nat)
    : option scan_result :=
  match high_start with
  | 0 => None
  | S hs =>
      if decide (hs = i) then Some BreakPartition
      else
        top_elem ← a !! hs;
        let order := compareFunc top_elem pivot in
        if decide (order > 0)%Z then scan_down a pivot i hs
        else Some (Found hs order)
  end.

(** [partition: for (let i = low_end + 1; i < high_start; i++) {..}];
    [n] bounds the iterations left. *)
Fixpoint partition (n : nat) (a : list T) (pivot : T)
    (low_end high_start i : nat) : option (list T * nat * nat) :=
  if decide (i < high_start) then
    match n with
    | 0 => None
    | S n =>
        element ← a !! i;
        let order := compareFunc element pivot in
        if decide (order < 0)%Z then
          x ← a !! low_end;
          a ← aset a i x;
          a ← aset a low_end element;
          partition n a pivot (S low_end) high_start (S i)
        else if decide (order > 0)%Z then
          r ← scan_down a pivot i high_start;
          match r with
          | BreakPartition => Some (a, low_end, i)
          | Found high_start order =>
              x ← a !! high_start;
              a ← aset a i x;
              a ← aset a high_start element;
              if decide (order < 0)%Z then
                element ← a !! i;
                x ← a !! low_end;
                a ← aset a i x;
                a ← aset a low_end element;
                partition n a pivot (S low_end) high_start (S i)
              else partition n a pivot low_end high_start (S i)
          end
        else partition n a pivot low_end high_start (S i)
    end
  else Some (a, low_end, high_start).

(** The median of first, last and middle element: the three values in
    the order [v0 <= v1 <= v2]. *)
Definition median3 (v0 v1 v2 : T) : T * T * T :=
  let c01 := compareFunc v0 v1 in
  let '(v0, v1) := if decide (c01 > 0)%Z then (v1, v0) else (v0, v1) in
  let c02 := compareFunc v0 v2 in
  if decide (c02 >= 0)%Z then (v2, v0, v1)
  else
    let c12 := compareFunc v1 v2 in
    if decide (c12 > 0)%Z then (v0, v2, v1) else (v0, v1, v2).

(** [_quickSort]: one turn of [while (true)] per unit of [fuel]; the
    recursive call and the next turn of the loop are the two calls at
    the end. *)
Fixpoint _quickSort (fuel : nat) (a : list T) (from to : nat)
    : option (list T) :=
  match fuel with
  | 0 => None
  | S fuel =>
      if decide (to - from ≤ 10) then _insertionSort a from to
      else
        let third_index := Nat.div2 (from + to) in
        v0 ← a !! from;
        v1 ← a !! (to - 1);
        v2 ← a !! third_index;
        let '(v0, v1, v2) := median3 v0 v1 v2 in
        a ← aset a from v0;
        a ← aset a (to - 1) v2;
        let pivot := v1 in
        let low_end := from + 1 in
        let high_start := to - 1 in
        x ← a !! low_end;
        a ← aset a third_index x;
        a ← aset a low_end pivot;
        '(a, low_end, high_start) ←
          partition (high_start - (low_end + 1)) a pivot
                    low_end high_start (low_end + 1);
        if decide (to - high_start < low_end - from) then
          a ← _quickSort fuel a high_start to;
          _quickSort fuel a from low_end
        else
          a ← _quickSort fuel a from low_end;
          _quickSort fuel a high_start to
  end.

(** [sort(compareFunc)] on the queue's [items]. *)
Definition sort (items : list T) : option (list T) :=
  _quickSort (S (length items)) items 0 (length items).

End Sort.

(** *** What the sort is checked against *)

Section SortSpec.
Context {T : Type}.
Variable compareFunc : T → T → Z.

(** [x] may stand before [y]. *)
Definition cmp_le (x y : T) : Prop := (compareFunc x y ≤ 0)%Z.

(** The positions [from .. to - 1] of [a] are in order. *)
Definition sorted_range (a : list T) (from to : nat) : Prop :=
  ∀ i j x y, from ≤ i → i < j → j < to →
    a !! i = Some x → a !! j = Some y → cmp_le x y.

(** The same, leaving position [h] out. *)
Definition sorted_except (a : list T) (from to h : nat) : Prop :=
  ∀ i j x y, from ≤ i → i < j → j < to → i ≠ h → j ≠ h →
    a !! i = Some x → a !! j = Some y → cmp_le x y.

Definition same_outside (a b : list T) (from to : nat) : Prop :=
  ∀ k, k < from ∨ to ≤ k → a !! k = b !! k.

(** [b] holds the elements of [a], moved only within [from .. to - 1]. *)
Definition range_perm (a b : list T) (from to : nat) : Prop :=
  a ≡ₚ b ∧ same_outside a b from to.

Definition all_range (P : T → Prop) (a : list T) (lo hi : nat) : Prop :=
  ∀ k x, lo ≤ k → k < hi → a !! k = Some x → P x.

Definition slice (a : list T) (lo hi : nat) : list T :=
  take (hi - lo) (drop lo a).

(** The three zones of the partition around [pivot]: not above it, equal
    to it, not below it. *)
Definition zones (a : list T) (pivot : T)
    (from low_end i high_start to : nat) : Prop :=
  all_range (λ x, cmp_le x pivot) a from low_end ∧
  all_range (λ x, cmp_le x pivot ∧ cmp_le pivot x) a low_end i ∧
  all_range (λ x, cmp_le pivot x) a high_start to.

(** Plain insertion sort on a list, as the specification names it: each
    element in turn enters the sorted front from its right end, passing
    the elements that compare greater.  [rev_front] is the front, last
    element first. *)
Fixpoint insert_back (element : T) (rev_front : list T) : list T :=
  match rev_front with
  | [] => [element]
  | tmp :: rest =>
      if decide (compareFunc tmp element > 0)%Z
      then tmp :: insert_back element rest
      else element :: rev_front
  end.

Definition plain_insertion_sort (l : list T) : list T :=
  reverse (foldl (λ rev_front element, insert_back element rev_front) [] l).
End SortSpec.

(** *** Queues that are evaluated *)

Definition elem (p d : Z) (m s : nat) : RenderElement :=
  {| component := {| priority := p; _distanceForSort := d; layer := 1 |};
     material := m; subMesh := s |}.

(** Eleven sub-meshes of one renderer: equal keys, different elements. *)
Definition eleven_equal : list RenderElement :=
  (λ s, elem 0 0 0 s) <$> seq 0 11.

End RenderQueue.

(** ** Camera: lazy matrices and coordinate transforms *)

Module Camera.

Local Open Scope Qc_scope.

Global Instance Qc_eq_decision : EqDecision Qc := Qc_eq_dec.

(** Modelled from the spec: the math library's [Vector2]. *)
Module Vector2.
Record t := { x : Qc; y : Qc }.
End Vector2.

(** Modelled from the spec: the math library's [Vector3]. *)
Module Vector3.
Record t := { x : Qc; y : Qc; z : Qc }.
End Vector3.

(** Modelled from the spec: the math library's [Vector4]. *)
Module Vector4.
Record t := { x : Qc; y : Qc; z : Qc; w : Qc }.
End Vector4.

(** Modelled from the spec: the math library's [Quaternion]. *)
Module Quaternion.
Record t := { x : Qc; y : Qc; z : Qc; w : Qc }.
End Quaternion.

(** *** The math library

    The math package (Vector, Matrix, MathUtil) is not among the sources;
    the specification takes it as "a math library providing Vector2/3/4,
    Matrix (with perspective, ortho, invert, multiply,
    rotationTranslation)", "assumed correct and available".  The functions
    below are these operations on column-major 4x4 matrices
    ([elements[0..15]]), with the depth range [-1, 1] that
    [viewportToWorldPoint] undoes.  A division by zero, an infinity or NaN
    in JavaScript, is outside the model; the statements on the transforms
    keep the denominators away from zero. *)

(** Modelled from the spec: [Matrix.elements], entry by entry. *)
Record Matrix := {
  e0 : Qc; e1 : Qc; e2 : Qc; e3 : Qc;
  e4 : Qc; e5 : Qc; e6 : Qc; e7 : Qc;
  e8 : Qc; e9 : Qc; e10 : Qc; e11 : Qc;
  e12 : Qc; e13 : Qc; e14 : Qc; e15 : Qc
}.

(** Modelled from the spec: [Matrix.multiply(left, right, out)], the
    product [left * right] of column-major matrices. *)
Definition Matrix_multiply (left right : Matrix) : Matrix :=
  let l11 := e0 left in let l12 := e1 left in let l13 := e2 left in let l14 := e3 left in
  let l21 := e4 left in let l22 := e5 left in let l23 := e6 left in let l24 := e7 left in
  let l31 := e8 left in let l32 := e9 left in let l33 := e10 left in let l34 := e11 left in
  let l41 := e12 left in let l42 := e13 left in let l43 := e14 left in let l44 := e15 left in
  let r11 := e0 right in let r12 := e1 right in let r13 := e2 right in let r14 := e3 right in
  let r21 := e4 right in let r22 := e5 right in let r23 := e6 right in let r24 := e7 right in
  let r31 := e8 right in let r32 := e9 right in let r33 := e10 right in let r34 := e11 right in
  let r41 := e12 right in let r42 := e13 right in let r43 := e14 right in let r44 := e15 right in
  {| e0 := l11 * r11 + l21 * r12 + l31 * r13 + l41 * r14;
     e1 := l12 * r11 + l22 * r12 + l32 * r13 + l42 * r14;
     e2 := l13 * r11 + l23 * r12 + l33 * r13 + l43 * r14;
     e3 := l14 * r11 + l24 * r12 + l34 * r13 + l44 * r14;
     e4 := l11 * r21 + l21 * r22 + l31 * r23 + l41 * r24;
     e5 := l12 * r21 + l22 * r22 + l32 * r23 + l42 * r24;
     e6 := l13 * r21 + l23 * r22 + l33 * r23 + l43 * r24;
     e7 := l14 * r21 + l24 * r22 + l34 * r23 + l44 * r24;
     e8 := l11 * r31 + l21 * r32 + l31 * r33 + l41 * r34;
     e9 := l12 * r31 + l22 * r32 + l32 * r33 + l42 * r34;
     e10 := l13 * r31 + l23 * r32 + l33 * r33 + l43 * r34;
     e11 := l14 * r31 + l24 * r32 + l34 * r33 + l44 * r34;
     e12 := l11 * r41 + l21 * r42 + l31 * r43 + l41 * r44;
     e13 := l12 * r41 + l22 * r42 + l32 * r43 + l42 * r44;
     e14 := l13 * r41 + l23 * r42 + l33 * r43 + l43 * r44;
     e15 := l14 * r41 + l24 * r42 + l34 * r43 + l44 * r44 |}.

(** Modelled from the spec: the determinant, by 2x2 minors. *)
Definition Matrix_determinant (a : Matrix) : Qc :=
  let a11 := e0 a in let a12 := e1 a in let a13 := e2 a in let a14 := e3 a in
  let a21 := e4 a in let a22 := e5 a in let a23 := e6 a in let a24 := e7 a in
  let a31 := e8 a in let a32 := e9 a in let a33 := e10 a in let a34 := e11 a in
  let a41 := e12 a in let a42 := e13 a in let a43 := e14 a in let a44 := e15 a in
  let b00 := a11 * a22 - a12 * a21 in
  let b01 := a11 * a23 - a13 * a21 in
  let b02 := a11 * a24 - a14 * a21 in
  let b03 := a12 * a23 - a13 * a22 in
  let b04 := a12 * a24 - a14 * a22 in
  let b05 := a13 * a24 - a14 * a23 in
  let b06 := a31 * a42 - a32 * a41 in
  let b07 := a31 * a43 - a33 * a41 in
  let b08 := a31 * a44 - a34 * a41 in
  let b09 := a32 * a43 - a33 * a42 in
  let b10 := a32 * a44 - a34 * a42 in
  let b11 := a33 * a44 - a34 * a43 in
  b00 * b11 - b01 * b10 + b02 * b09 + b03 * b08 - b04 * b07 + b05 * b06.

(** Modelled from the spec: [Matrix.invert(a, out)], the adjugate over the
    determinant; [out] is left as it is when the determinant is zero. *)
Definition Matrix_invert (a out : Matrix) : Matrix :=
  let a11 := e0 a in let a12 := e1 a in let a13 := e2 a in let a14 := e3 a in
  let a21 := e4 a in let a22 := e5 a in let a23 := e6 a in let a24 := e7 a in
  let a31 := e8 a in let a32 := e9 a in let a33 := e10 a in let a34 := e11 a in
  let a41 := e12 a in let a42 := e13 a in let a43 := e14 a in let a44 := e15 a in
  let b00 := a11 * a22 - a12 * a21 in
  let b01 := a11 * a23 - a13 * a21 in
  let b02 := a11 * a24 - a14 * a21 in
  let b03 := a12 * a23 - a13 * a22 in
  let b04 := a12 * a24 - a14 * a22 in
  let b05 := a13 * a24 - a14 * a23 in
  let b06 := a31 * a42 - a32 * a41 in
  let b07 := a31 * a43 - a33 * a41 in
  let b08 := a31 * a44 - a34 * a41 in
  let b09 := a32 * a43 - a33 * a42 in
  let b10 := a32 * a44 - a34 * a42 in
  let b11 := a33 * a44 - a34 * a43 in
  let det := b00 * b11 - b01 * b10 + b02 * b09 + b03 * b08 - b04 * b07 + b05 * b06 in
  if decide (det = 0) then out
  else
    let det := 1 / det in
    {| e0 := (a22 * b11 - a23 * b10 + a24 * b09) * det;
       e1 := (a13 * b10 - a12 * b11 - a14 * b09) * det;
       e2 := (a42 * b05 - a43 * b04 + a44 * b03) * det;
       e3 := (a33 * b04 - a32 * b05 - a34 * b03) * det;
       e4 := (a23 * b08 - a21 * b11 - a24 * b07) * det;
       e5 := (a11 * b11 - a13 * b08 + a14 * b07) * det;
       e6 := (a43 * b02 - a41 * b05 - a44 * b01) * det;
       e7 := (a31 * b05 - a33 * b02 + a34 * b01) * det;
       e8 := (a21 * b10 - a22 * b08 + a24 * b06) * det;
       e9 := (a12 * b08 - a11 * b10 - a14 * b06) * det;
       e10 := (a41 * b04 - a42 * b02 + a44 * b00) * det;
       e11 := (a32 * b02 - a31 * b04 - a34 * b00) * det;
       e12 := (a22 * b07 - a21 * b09 - a23 * b06) * det;
       e13 := (a11 * b09 - a12 * b07 + a13 * b06) * det;
       e14 := (a42 * b01 - a41 * b03 - a43 * b00) * det;
       e15 := (a31 * b03 - a32 * b01 + a33 * b00) * det |}.

(** Modelled from the spec: the identity matrix. *)
Definition Matrix_identity : Matrix :=
  {| e0 := 1; e1 := 0; e2 := 0; e3 := 0;
     e4 := 0; e5 := 1; e6 := 0; e7 := 0;
     e8 := 0; e9 := 0; e10 := 1; e11 := 0;
     e12 := 0; e13 := 0; e14 := 0; e15 := 1 |}.

(** Modelled from the spec: [Matrix.rotationTranslation(quaternion,
    translation, out)], the rotation of a unit quaternion followed by the
    translation column. *)
Definition Matrix_rotationTranslation (quaternion : Quaternion.t)
    (translation : Vector3.t) : Matrix :=
  let x := Quaternion.x quaternion in
  let y := Quaternion.y quaternion in
  let z := Quaternion.z quaternion in
  let w := Quaternion.w quaternion in
  let x2 := x + x in let y2 := y + y in let z2 := z + z in
  let xx := x * x2 in let yx := y * x2 in let yy := y * y2 in
  let zx := z * x2 in let zy := z * y2 in let zz := z * z2 in
  let wx := w * x2 in let wy := w * y2 in let wz := w * z2 in
  {| e0 := 1 - yy - zz; e1 := yx + wz; e2 := zx - wy; e3 := 0;
     e4 := yx - wz; e5 := 1 - xx - zz; e6 := zy + wx; e7 := 0;
     e8 := zx + wy; e9 := zy - wx; e10 := 1 - xx - yy; e11 := 0;
     e12 := Vector3.x translation; e13 := Vector3.y translation;
     e14 := Vector3.z translation; e15 := 1 |}.

(** The number 2. *)
Definition two : Qc := 1 + 1.

Section Trigonometry.
(** [Math.tan] and [MathUtil.degreeToRadian] are not rational functions:
    they are left open. *)
Variable Math_tan : Qc → Qc.
Variable MathUtil_degreeToRadian : Qc → Qc.

(** Modelled from the spec: [Matrix.perspective(fovY, aspect, near, far,
    out)]. *)
Definition Matrix_perspective (fovY aspect near far : Qc) : Matrix :=
  let f := 1 / Math_tan (fovY / two) in
  let nf := 1 / (near - far) in
  {| e0 := f / aspect; e1 := 0; e2 := 0; e3 := 0;
     e4 := 0; e5 := f; e6 := 0; e7 := 0;
     e8 := 0; e9 := 0; e10 := (far + near) * nf; e11 := - (1);
     e12 := 0; e13 := 0; e14 := two * far * near * nf; e15 := 0 |}.

(** Modelled from the spec: [Matrix.ortho(left, right, bottom, top, near,
    far, out)]. *)
Definition Matrix_ortho (left right bottom top near far : Qc) : Matrix :=
  let lr := 1 / (left - right) in
  let bt := 1 / (bottom - top) in
  let nf := 1 / (near - far) in
  {| e0 := - two * lr; e1 := 0; e2 := 0; e3 := 0;
     e4 := 0; e5 := - two * bt; e6 := 0; e7 := 0;
     e8 := 0; e9 := 0; e10 := two * nf; e11 := 0;
     e12 := (left + right) * lr; e13 := (top + bottom) * bt;
     e14 := (far + near) * nf; e15 := 1 |}.

(** Modelled from the spec: [Vector3.transformCoordinate(v, m, out)], the
    transform of a point followed by the division by [w]. *)
Definition Vector3_transformCoordinate (v : Vector3.t) (m : Matrix)
    : Vector3.t :=
  let x := Vector3.x v in let y := Vector3.y v in let z := Vector3.z v in
  let w := x * e3 m + y * e7 m + z * e11 m + e15 m in
  let w := 1 / w in
  {| Vector3.x := (x * e0 m + y * e4 m + z * e8 m + e12 m) * w;
     Vector3.y := (x * e1 m + y * e5 m + z * e9 m + e13 m) * w;
     Vector3.z := (x * e2 m + y * e6 m + z * e10 m + e14 m) * w |}.

(** Modelled from the spec: [Vector3.transformToVec4(v, m, out)], the
    transform of a point without the division. *)
Definition Vector3_transformToVec4 (v : Vector3.t) (m : Matrix)
    : Vector4.t :=
  let x := Vector3.x v in let y := Vector3.y v in let z := Vector3.z v in
  {| Vector4.x := x * e0 m + y * e4 m + z * e8 m + e12 m;
     Vector4.y := x * e1 m + y * e5 m + z * e9 m + e13 m;
     Vector4.z := x * e2 m + y * e6 m + z * e10 m + e14 m;
     Vector4.w := x * e3 m + y * e7 m + z * e11 m + e15 m |}.

(** *** The camera and what surrounds it *)

(** Modelled from the spec: the entity's transform, as the camera reads
    it. *)
Record Transform := {
  worldRotationQuaternion : Quaternion.t;
  worldPosition : Vector3.t;
  worldMatrix : Matrix
}.

(** The engine's canvas and the entity's transform. *)
Record Env := {
  canvas_width : Qc;
  canvas_height : Qc;
  transform : Transform
}.

Record VirtualCamera := {
  isOrthographic : bool;
  viewMatrix : Matrix;
  projectionMatrix : Matrix;
  viewProjectionMatrix : Matrix
}.

(** The camera's fields; the three [BoolUpdateFlag]s are their [flag]. *)
Record Camera := {
  _virtualCamera : VirtualCamera;
  _isProjMatSetting : bool;
  _nearClipPlane : Qc;
  _farClipPlane : Qc;
  _fieldOfView : Qc;
  _orthographicSize : Qc;
  _isProjectionDirty : bool;
  _isInvProjMatDirty : bool;
  _isFrustumProjectDirty : bool;
  _customAspectRatio : option Qc;
  _frustumViewChangeFlag : bool;
  _isViewMatrixDirty : bool;
  _isInvViewProjDirty : bool;
  _viewport : Vector4.t;
  _inverseProjectionMatrix : Matrix;
  _lastAspectSize : Vector2.t;
  _invViewProjMat : Matrix
}.

(** [new Camera(entity)]: [new Matrix()] is the identity and a fresh
    [BoolUpdateFlag] is raised. *)
Definition Camera_new : Camera :=
  {| _virtualCamera :=
       {| isOrthographic := false; viewMatrix := Matrix_identity;
          projectionMatrix := Matrix_identity;
          viewProjectionMatrix := Matrix_identity |};
     _isProjMatSetting := false;
     _nearClipPlane := Q2Qc (1 # 10);
     _farClipPlane := Q2Qc 100;
     _fieldOfView := Q2Qc 45;
     _orthographicSize := Q2Qc 10;
     _isProjectionDirty := true;
     _isInvProjMatDirty := true;
     _isFrustumProjectDirty := true;
     _customAspectRatio := None;
     _frustumViewChangeFlag := true;
     _isViewMatrixDirty := true;
     _isInvViewProjDirty := true;
     _viewport := {| Vector4.x := 0; Vector4.y := 0; Vector4.z := 1; Vector4.w := 1 |};
     _inverseProjectionMatrix := Matrix_identity;
     _lastAspectSize := {| Vector2.x := 0; Vector2.y := 0 |};
     _invViewProjMat := Matrix_identity |}.

(** One field replaced, the others kept. *)
Definition with_virtualCamera (c : Camera) (v : VirtualCamera) : Camera :=
  let '(Build_Camera _ ps ne fa fv os pd id fd ar fc vd vp vw ip la iv) := c in
  Build_Camera v ps ne fa fv os pd id fd ar fc vd vp vw ip la iv.

Definition with_isProjMatSetting (c : Camera) (v : bool) : Camera :=
  let '(Build_Camera vc _ ne fa fv os pd id fd ar fc vd vp vw ip la iv) := c in
  Build_Camera vc v ne fa fv os pd id fd ar fc vd vp vw ip la iv.

Definition with_nearClipPlane (c : Camera) (v : Qc) : Camera :=
  let '(Build_Camera vc ps _ fa fv os pd id fd ar fc vd vp vw ip la iv) := c in
  Build_Camera vc ps v fa fv os pd id fd ar fc vd vp vw ip la iv.

Definition with_farClipPlane (c : Camera) (v : Qc) : Camera :=
  let '(Build_Camera vc ps ne _ fv os pd id fd ar fc vd vp vw ip la iv) := c in
  Build_Camera vc ps ne v fv os pd id fd ar fc vd vp vw ip la iv.

Definition with_fieldOfView (c : Camera) (v : Qc) : Camera :=
  let '(Build_Camera vc ps ne fa _ os pd id fd ar fc vd vp vw ip la iv) := c in
  Build_Camera vc ps ne fa v os pd id fd ar fc vd vp vw ip la iv.

Definition with_orthographicSize (c : Camera) (v : Qc) : Camera :=
  let '(Build_Camera vc ps ne fa fv _ pd id fd ar fc vd vp vw ip la iv) := c in
  Build_Camera vc ps ne fa fv v pd id fd ar fc vd vp vw ip la iv.

Definition with_isProjectionDirty (c : Camera) (v : bool) : Camera :=
  let '(Build_Camera vc ps ne fa fv os _ id fd ar fc vd vp vw ip la iv) := c in
  Build_Camera vc ps ne fa fv os v id fd ar fc vd vp vw ip la iv.

Definition with_isInvProjMatDirty (c : Camera) (v : bool) : Camera :=
  let '(Build_Camera vc ps ne fa fv os pd _ fd ar fc vd vp vw ip la iv) := c in
  Build_Camera vc ps ne fa fv os pd v fd ar fc vd vp vw ip la iv.

Definition with_isFrustumProjectDirty (c : Camera) (v : bool) : Camera :=
  let '(Build_Camera vc ps ne fa fv os pd id _ ar fc vd vp vw ip la iv) := c in
  Build_Camera vc ps ne fa fv os pd id v ar fc vd vp vw ip la iv.

Definition with_customAspectRatio (c : Camera) (v : option Qc) : Camera :=
  let '(Build_Camera vc ps ne fa fv os pd id fd _ fc vd vp vw ip la iv) := c in
  Build_Camera vc ps ne fa fv os pd id fd v fc vd vp vw ip la iv.

Definition with_isViewMatrixDirty (c : Camera) (v : bool) : Camera :=
  let '(Build_Camera vc ps ne fa fv os pd id fd ar fc _ vp vw ip la iv) := c in
  Build_Camera vc ps ne fa fv os pd id fd ar fc v vp vw ip la iv.

Definition with_isInvViewProjDirty (c : Camera) (v : bool) : Camera :=
  let '(Build_Camera vc ps ne fa fv os pd id fd ar fc vd _ vw ip la iv) := c in
  Build_Camera vc ps ne fa fv os pd id fd ar fc vd v vw ip la iv.

Definition with_viewport (c : Camera) (v : Vector4.t) : Camera :=
  let '(Build_Camera vc ps ne fa fv os pd id fd ar fc vd vp _ ip la iv) := c in
  Build_Camera vc ps ne fa fv os pd id fd ar fc vd vp v ip la iv.

Definition with_inverseProjectionMatrix (c : Camera) (v : Matrix) : Camera :=
  let '(Build_Camera vc ps ne fa fv os pd id fd ar fc vd vp vw _ la iv) := c in
  Build_Camera vc ps ne fa fv os pd id fd ar fc vd vp vw v la iv.

Definition with_lastAspectSize (c : Camera) (v : Vector2.t) : Camera :=
  let '(Build_Camera vc ps ne fa fv os pd id fd ar fc vd vp vw ip _ iv) := c in
  Build_Camera vc ps ne fa fv os pd id fd ar fc vd vp vw ip v iv.

Definition with_invViewProjMat (c : Camera) (v : Matrix) : Camera :=
  let '(Build_Camera vc ps ne fa fv os pd id fd ar fc vd vp vw ip la _) := c in
  Build_Camera vc ps ne fa fv os pd id fd ar fc vd vp vw ip la v.

Definition with_isOrthographic (vc : VirtualCamera) (v : bool)
    : VirtualCamera :=
  {| isOrthographic := v; viewMatrix := viewMatrix vc;
     projectionMatrix := projectionMatrix vc;
     viewProjectionMatrix := viewProjectionMatrix vc |}.

Definition with_viewMatrix (vc : VirtualCamera) (v : Matrix)
    : VirtualCamera :=
  {| isOrthographic := isOrthographic vc; viewMatrix := v;
     projectionMatrix := projectionMatrix vc;
     viewProjectionMatrix := viewProjectionMatrix vc |}.

Definition with_projectionMatrix (vc : VirtualCamera) (v : Matrix)
    : VirtualCamera :=
  {| isOrthographic := isOrthographic vc; viewMatrix := viewMatrix vc;
     projectionMatrix := v;
     viewProjectionMatrix := viewProjectionMatrix vc |}.

Definition _projMatChange (c : Camera) : Camera :=
  let c := with_isFrustumProjectDirty c true in
  let c := with_isProjectionDirty c true in
  let c := with_isInvProjMatDirty c true in
  with_isInvViewProjDirty c true.

(** The setters. *)
Definition set_nearClipPlane (c : Camera) (value : Qc) : Camera :=
  _projMatChange (with_nearClipPlane c value).

Definition set_farClipPlane (c : Camera) (value : Qc) : Camera :=
  _projMatChange (with_farClipPlane c value).

Definition set_fieldOfView (c : Camera) (value : Qc) : Camera :=
  _projMatChange (with_fieldOfView c value).

Definition set_aspectRatio (c : Camera) (value : Qc) : Camera :=
  _projMatChange (with_customAspectRatio c (Some value)).

(** [copyFrom], skipped when [value] is the stored vector itself. *)
Definition set_viewport (c : Camera) (value : Vector4.t) : Camera :=
  _projMatChange (with_viewport c value).

Definition set_isOrthographic (c : Camera) (value : bool) : Camera :=
  _projMatChange
    (with_virtualCamera c (with_isOrthographic (_virtualCamera c) value)).

Definition set_orthographicSize (c : Camera) (value : Qc) : Camera :=
  _projMatChange (with_orthographicSize c value).

Definition set_projectionMatrix (c : Camera) (value : Matrix) : Camera :=
  let c :=
    with_virtualCamera c (with_projectionMatrix (_virtualCamera c) value) in
  let c := with_isProjMatSetting c true in
  _projMatChange c.

Definition resetProjectionMatrix (c : Camera) : Camera :=
  _projMatChange (with_isProjMatSetting c false).

Definition resetAspectRatio (c : Camera) : Camera :=
  _projMatChange (with_customAspectRatio c None).

(** The getters; those that refresh a cache return the camera too. *)
Definition get_aspectRatio (env : Env) (c : Camera) : Qc :=
  match _customAspectRatio c with
  | Some value => value
  | None =>
      (canvas_width env * Vector4.z (_viewport c)) /
      (canvas_height env * Vector4.w (_viewport c))
  end.

Definition get_viewMatrix (env : Env) (c : Camera) : Matrix * Camera :=
  if _isViewMatrixDirty c then
    let c := with_isViewMatrixDirty c false in
    let viewMatrix :=
      Matrix_rotationTranslation
        (worldRotationQuaternion (transform env))
        (worldPosition (transform env)) in
    let viewMatrix := Matrix_invert viewMatrix viewMatrix in
    (viewMatrix,
     with_virtualCamera c (with_viewMatrix (_virtualCamera c) viewMatrix))
  else (viewMatrix (_virtualCamera c), c).

(** The automatic projection, from the camera's parameters. *)
Definition derive_projection (env : Env) (c : Camera) : Matrix :=
  let aspectRatio := get_aspectRatio env c in
  if negb (isOrthographic (_virtualCamera c)) then
    Matrix_perspective (MathUtil_degreeToRadian (_fieldOfView c))
      aspectRatio (_nearClipPlane c) (_farClipPlane c)
  else
    let width := _orthographicSize c * aspectRatio in
    let height := _orthographicSize c in
    Matrix_ortho (- width) width (- height) height
      (_nearClipPlane c) (_farClipPlane c).

Definition get_projectionMatrix (env : Env) (c : Camera) : Matrix * Camera :=
  if (negb (_isProjectionDirty c) || _isProjMatSetting c)
     && bool_decide (Vector2.x (_lastAspectSize c) = canvas_width env)
     && bool_decide (Vector2.y (_lastAspectSize c) = canvas_height env)
  then (projectionMatrix (_virtualCamera c), c)
  else
    let c := with_isProjectionDirty c false in
    let c :=
      with_lastAspectSize c
        {| Vector2.x := canvas_width env; Vector2.y := canvas_height env |} in
    let projectionMatrix := derive_projection env c in
    (projectionMatrix,
     with_virtualCamera c
       (with_projectionMatrix (_virtualCamera c) projectionMatrix)).

Definition _getInverseProjectionMatrix (env : Env) (c : Camera)
    : Matrix * Camera :=
  if _isInvProjMatDirty c then
    let c := with_isInvProjMatDirty c false in
    let '(projectionMatrix, c) := get_projectionMatrix env c in
    let inverse :=
      Matrix_invert projectionMatrix (_inverseProjectionMatrix c) in
    (inverse, with_inverseProjectionMatrix c inverse)
  else (_inverseProjectionMatrix c, c).

Definition _getInvViewProjMat (env : Env) (c : Camera) : Matrix * Camera :=
  if _isInvViewProjDirty c then
    let c := with_isInvViewProjDirty c false in
    let '(inverseProjection, c) := _getInverseProjectionMatrix env c in
    let m := Matrix_multiply (worldMatrix (transform env)) inverseProjection in
    (m, with_invViewProjMat c m)
  else (_invViewProjMat c, c).

Definition worldToViewportPoint (env : Env) (c : Camera) (point : Vector3.t)
    : Vector3.t * Camera :=
  let '(viewMatrix, c) := get_viewMatrix env c in
  let cameraPoint := Vector3_transformCoordinate point viewMatrix in
  let '(projectionMatrix, c) := get_projectionMatrix env c in
  let viewportPoint := Vector3_transformToVec4 cameraPoint projectionMatrix in
  let w := Vector4.w viewportPoint in
  ({| Vector3.x := (Vector4.x viewportPoint / w + 1) * (1 / two);
      Vector3.y := (1 - Vector4.y viewportPoint / w) * (1 / two);
      Vector3.z := - Vector3.z cameraPoint |}, c).

Definition _innerViewportToWorldPoint (x y z : Qc) (invViewProjMat : Matrix)
    : Vector3.t :=
  let clipPoint :=
    {| Vector3.x := x * two - 1; Vector3.y := 1 - y * two;
       Vector3.z := z * two - 1 |} in
  Vector3_transformCoordinate clipPoint invViewProjMat.

Definition viewportToWorldPoint (env : Env) (c : Camera) (point : Vector3.t)
    : Vector3.t * Camera :=
  let nearClipPlane := _nearClipPlane c in
  let farClipPlane := _farClipPlane c in
  let nf := 1 / (nearClipPlane - farClipPlane) in
  let z :=
    if isOrthographic (_virtualCamera c) then
      let z := - Vector3.z point * two * nf in
      z + (farClipPlane + nearClipPlane) * nf
    else
      let pointZ := Vector3.z point in
      let z := - pointZ * (nearClipPlane + farClipPlane) * nf in
      let z := z + two * nearClipPlane * farClipPlane * nf in
      z / pointZ in
  let '(invViewProjMat, c) := _getInvViewProjMat env c in
  (_innerViewportToWorldPoint (Vector3.x point) (Vector3.y point)
     ((z + 1) / two) invViewProjMat, c).

(** [screenToViewportPoint(point, out)] with a [Vector3] for both, as
    [screenToWorldPoint] calls it; [this.viewport] is [_viewport].  The
    [z] of the point is carried over. *)
Definition screenToViewportPoint (env : Env) (c : Camera) (point : Vector3.t)
    : Vector3.t :=
  let viewport := _viewport c in
  {| Vector3.x :=
       (Vector3.x point / canvas_width env - Vector4.x viewport)
       / Vector4.z viewport;
     Vector3.y :=
       (Vector3.y point / canvas_height env - Vector4.y viewport)
       / Vector4.w viewport;
     Vector3.z := Vector3.z point |}.

(** The same with a [Vector2] for both, as [screenPointToRay] calls it:
    the point has no [z]. *)
Definition screenToViewportPoint2 (env : Env) (c : Camera) (point : Vector2.t)
    : Vector2.t :=
  let viewport := _viewport c in
  {| Vector2.x :=
       (Vector2.x point / canvas_width env - Vector4.x viewport)
       / Vector4.z viewport;
     Vector2.y :=
       (Vector2.y point / canvas_height env - Vector4.y viewport)
       / Vector4.w viewport |}.

(** [viewportToScreenPoint(point, out)], on a [Vector3] and on a
    [Vector2]. *)
Definition viewportToScreenPoint (env : Env) (c : Camera) (point : Vector3.t)
    : Vector3.t :=
  let viewport := _viewport c in
  {| Vector3.x :=
       (Vector4.x viewport + Vector3.x point * Vector4.z viewport)
       * canvas_width env;
     Vector3.y :=
       (Vector4.y viewport + Vector3.y point * Vector4.w viewport)
       * canvas_height env;
     Vector3.z := Vector3.z point |}.

Definition viewportToScreenPoint2 (env : Env) (c : Camera) (point : Vector2.t)
    : Vector2.t :=
  let viewport := _viewport c in
  {| Vector2.x :=
       (Vector4.x viewport + Vector2.x point * Vector4.z viewport)
       * canvas_width env;
     Vector2.y :=
       (Vector4.y viewport + Vector2.y point * Vector4.w viewport)
       * canvas_height env |}.

(** [worldToScreenPoint(point, out)]: [out] goes through both steps. *)
Definition worldToScreenPoint (env : Env) (c : Camera) (point : Vector3.t)
    : Vector3.t * Camera :=
  let '(out, c) := worldToViewportPoint env c point in
  (viewportToScreenPoint env c out, c).

(** [screenToWorldPoint(point, out)] *)
Definition screenToWorldPoint (env : Env) (c : Camera) (point : Vector3.t)
    : Vector3.t * Camera :=
  let out := screenToViewportPoint env c point in
  viewportToWorldPoint env c out.

(** *** What the statements speak of *)

(** The seven parameter setters. *)
Inductive Mutation :=
  | SetNearClipPlane (value : Qc)
  | SetFarClipPlane (value : Qc)
  | SetFieldOfView (value : Qc)
  | SetOrthographicSize (value : Qc)
  | SetViewport (value : Vector4.t)
  | SetAspectRatio (value : Qc)
  | SetIsOrthographic (value : bool).

Definition mutate (c : Camera) (m : Mutation) : Camera :=
  match m with
  | SetNearClipPlane value => set_nearClipPlane c value
  | SetFarClipPlane value => set_farClipPlane c value
  | SetFieldOfView value => set_fieldOfView c value
  | SetOrthographicSize value => set_orthographicSize c value
  | SetViewport value => set_viewport c value
  | SetAspectRatio value => set_aspectRatio c value
  | SetIsOrthographic value => set_isOrthographic c value
  end.

(** All the matrices a camera caches. *)
Definition cached_matrices (c : Camera)
    : Matrix * Matrix * Matrix * Matrix * Matrix :=
  (viewMatrix (_virtualCamera c), projectionMatrix (_virtualCamera c),
   viewProjectionMatrix (_virtualCamera c), _inverseProjectionMatrix c,
   _invViewProjMat c).

(** The caches that are not marked stale hold what a recomputation would
    give. *)
Definition coherent (env : Env) (c : Camera) : Prop :=
  let view :=
    Matrix_rotationTranslation (worldRotationQuaternion (transform env))
      (worldPosition (transform env)) in
  let projection := derive_projection env c in
  let inverse := Matrix_invert projection (_inverseProjectionMatrix c) in
  (_isViewMatrixDirty c = false →
     viewMatrix (_virtualCamera c) = Matrix_invert view view) ∧
  (_isProjectionDirty c = false →
     Vector2.x (_lastAspectSize c) = canvas_width env →
     Vector2.y (_lastAspectSize c) = canvas_height env →
     projectionMatrix (_virtualCamera c) = projection) ∧
  (_isInvProjMatDirty c = false →
     _inverseProjectionMatrix c
       = Matrix_invert projection (_inverseProjectionMatrix c)) ∧
  (_isInvViewProjDirty c = false →
     _invViewProjMat c
       = Matrix_multiply (worldMatrix (transform env)) inverse).

(** The depth of a world point in front of the camera: the [z] that
    [worldToViewportPoint] returns. *)
Definition depth (env : Env) (c : Camera) (point : Vector3.t) : Qc :=
  Vector3.z (worldToViewportPoint env c point).1.

(** *** Homogeneous coordinates, for the statements on the transforms *)

(** Homogeneous coordinates. *)
Definition hom (v : Vector3.t) : Vector4.t :=
  {| Vector4.x := Vector3.x v; Vector4.y := Vector3.y v;
     Vector4.z := Vector3.z v; Vector4.w := 1 |}.

Definition dehom (v : Vector4.t) : Vector3.t :=
  {| Vector3.x := Vector4.x v / Vector4.w v;
     Vector3.y := Vector4.y v / Vector4.w v;
     Vector3.z := Vector4.z v / Vector4.w v |}.

Definition scale4 (k : Qc) (v : Vector4.t) : Vector4.t :=
  {| Vector4.x := k * Vector4.x v; Vector4.y := k * Vector4.y v;
     Vector4.z := k * Vector4.z v; Vector4.w := k * Vector4.w v |}.

Definition apply4 (m : Matrix) (v : Vector4.t) : Vector4.t :=
  let x := Vector4.x v in let y := Vector4.y v in
  let z := Vector4.z v in let w := Vector4.w v in
  {| Vector4.x := x * e0 m + y * e4 m + z * e8 m + w * e12 m;
     Vector4.y := x * e1 m + y * e5 m + z * e9 m + w * e13 m;
     Vector4.z := x * e2 m + y * e6 m + z * e10 m + w * e14 m;
     Vector4.w := x * e3 m + y * e7 m + z * e11 m + w * e15 m |}.

(** A matrix whose last row is [0 0 0 1]. *)
Definition affine (m : Matrix) : Prop :=
  e3 m = 0 ∧ e7 m = 0 ∧ e11 m = 0 ∧ e15 m = 1.

(** The two transforms, once the matrices are at hand. *)
Definition project (view projection : Matrix) (point : Vector3.t)
    : Vector3.t :=
  let cameraPoint := Vector3_transformCoordinate point view in
  let viewportPoint := Vector3_transformToVec4 cameraPoint projection in
  let w := Vector4.w viewportPoint in
  {| Vector3.x := (Vector4.x viewportPoint / w + 1) * (1 / two);
     Vector3.y := (1 - Vector4.y viewportPoint / w) * (1 / two);
     Vector3.z := - Vector3.z cameraPoint |}.

Definition ndc_depth (near far : Qc) (orthographic : bool) (pointZ : Qc)
    : Qc :=
  let nf := 1 / (near - far) in
  if orthographic then - pointZ * two * nf + (far + near) * nf
  else (- pointZ * (near + far) * nf + two * near * far * nf) / pointZ.

Definition unproject (near far : Qc) (orthographic : bool)
    (invViewProjMat : Matrix) (point : Vector3.t) : Vector3.t :=
  _innerViewportToWorldPoint (Vector3.x point) (Vector3.y point)
    ((ndc_depth near far orthographic (Vector3.z point) + 1) / two)
    invViewProjMat.

(** The world matrix is the rotation and translation the view matrix is
    built from: the camera's entity is not scaled. *)
Definition rigid (env : Env) : Prop :=
  worldMatrix (transform env)
    = Matrix_rotationTranslation (worldRotationQuaternion (transform env))
        (worldPosition (transform env)) ∧
  Matrix_determinant (worldMatrix (transform env)) ≠ 0.

(** The projection parameters give an invertible projection. *)
Definition well_formed (env : Env) (c : Camera) : Prop :=
  get_aspectRatio env c ≠ 0 ∧
  if isOrthographic (_virtualCamera c) then _orthographicSize c ≠ 0
  else Math_tan (MathUtil_degreeToRadian (_fieldOfView c) / two) ≠ 0 ∧
       0 < _nearClipPlane c.

(** The four flags that [_projMatChange] raises. *)
Definition projection_flags (c : Camera) : bool * bool * bool * bool :=
  (_isProjectionDirty c, _isInvProjMatDirty c, _isFrustumProjectDirty c,
   _isInvViewProjDirty c).

(** A projection set by hand. *)
Definition manual_projection : Matrix :=
  {| e0 := Q2Qc (1 # 2); e1 := 0; e2 := 0; e3 := 0;
     e4 := 0; e5 := Q2Qc (1 # 2); e6 := 0; e7 := 0;
     e8 := 0; e9 := 0; e10 := - (1); e11 := 0;
     e12 := 0; e13 := 0; e14 := - two; e15 := 1 |}.

Definition canvas_800x600 (t : Transform) : Env :=
  {| canvas_width := Q2Qc 800; canvas_height := Q2Qc 600; transform := t |}.

End Trigonometry.

(** *** Cameras that are evaluated *)

(** Rational stand-ins for [Math.tan] and [MathUtil.degreeToRadian], for
    the cameras that are evaluated. *)
Definition tan_rational (x : Qc) : Qc := x.
Definition degreeToRadian_rational (d : Qc) : Qc := d * Q2Qc (355 # 20340).

Definition identity_transform : Transform :=
  {| worldRotationQuaternion :=
       {| Quaternion.x := 0; Quaternion.y := 0; Quaternion.z := 0;
          Quaternion.w := 1 |};
     worldPosition := {| Vector3.x := 0; Vector3.y := 0; Vector3.z := 0 |};
     worldMatrix := Matrix_identity |}.

Definition square_canvas : Env :=
  {| canvas_width := Q2Qc 600; canvas_height := Q2Qc 600;
     transform := identity_transform |}.

(** A perspective projection with [near = 1], [far = 3], set by hand. *)
Definition manual_perspective : Matrix :=
  {| e0 := 1; e1 := 0; e2 := 0; e3 := 0;
     e4 := 0; e5 := 1; e6 := 0; e7 := 0;
     e8 := 0; e9 := 0; e10 := - two; e11 := - (1);
     e12 := 0; e13 := 0; e14 := - (two + 1); e15 := 0 |}.

Definition in_front : Vector3.t :=
  {| Vector3.x := 0; Vector3.y := 0; Vector3.z := - two |}.

(** The square canvas made twice as wide. *)
Definition wide_canvas : Env :=
  {| canvas_width := Q2Qc 1200; canvas_height := Q2Qc 600;
     transform := identity_transform |}.

(** A point to the right of the camera's axis. *)
Definition to_the_right : Vector3.t :=
  {| Vector3.x := Q2Qc (1 # 2); Vector3.y := 0; Vector3.z := - two |}.

(** A new camera after one round trip on the square canvas: its caches
    are filled. *)
Definition camera_after_round_trip : Camera :=
  let r := worldToViewportPoint tan_rational degreeToRadian_rational
             square_canvas Camera_new to_the_right in
  (viewportToWorldPoint tan_rational degreeToRadian_rational square_canvas
     r.2 r.1).2.

(** The transform of an entity at the origin, not rotated, scaled by
    two. *)
Definition scaled_transform : Transform :=
  {| worldRotationQuaternion :=
       {| Quaternion.x := 0; Quaternion.y := 0; Quaternion.z := 0;
          Quaternion.w := 1 |};
     worldPosition := {| Vector3.x := 0; Vector3.y := 0; Vector3.z := 0 |};
     worldMatrix :=
       {| e0 := two; e1 := 0; e2 := 0; e3 := 0;
          e4 := 0; e5 := two; e6 := 0; e7 := 0;
          e8 := 0; e9 := 0; e10 := two; e11 := 0;
          e12 := 0; e13 := 0; e14 := 0; e15 := 1 |} |}.

Definition square_canvas_scaled : Env :=
  {| canvas_width := Q2Qc 600; canvas_height := Q2Qc 600;
     transform := scaled_transform |}.

Definition camera_with_manual_projection : Camera :=
  set_projectionMatrix
    (get_projectionMatrix tan_rational degreeToRadian_rational
       square_canvas Camera_new).2
    manual_perspective.

End Camera.

(** ** SubFont: the glyph atlas pages of one (font, size, style) *)

Module SubFont.

(** Modelled from the spec: [CharInfo], a glyph's metrics and placement,
    as the text layout reads them. *)
Record CharInfo := {
  w : Z;
  h : Z;
  xAdvance : Z;
  ascent : Z;
  descent : Z;
  index : Z;
  data : option nat          (* the pixel buffer, [null] once uploaded *)
}.

(** Modelled from the spec: a GPU texture handle, with its size. *)
Record Texture2D := {
  width : Z;
  height : Z;
  instanceId : nat
}.

Section Atlas.
(** How a page packs glyph bitmaps is the atlas's own business: any
    state [Packing] and any placement rule [place], which answers whether
    the glyph fitted. *)
Context {Packing : Type}.
Variable emptyPage : Packing.
Variable place : Packing → CharInfo → Packing * bool.

(** Modelled from the spec: [FontAtlas] (atlas/FontAtlas.ts) is not among
    the sources.  It is the "glyph-rasterization/packing collaborator
    exposing uploadCharTexture(charInfo) -> success: bool,
    addCharInfo(char, charInfo), getCharInfo(char) -> CharInfo | null, and
    an owned GPU texture handle".  [uploaded] lists the glyphs written to
    the page's texture. *)
Record FontAtlas := {
  texture : Texture2D;
  _charInfoMap : gmap string CharInfo;
  packing : Packing;
  uploaded : list CharInfo
}.

(** Modelled from the spec: a new atlas page; [SubFont] assigns its
    [texture] right after creating it. *)
Definition FontAtlas_new (t : Texture2D) : FontAtlas :=
  {| texture := t; _charInfoMap := ∅; packing := emptyPage; uploaded := [] |}.

(** Modelled from the spec: [uploadCharTexture(charInfo) -> success]. *)
Definition FontAtlas_uploadCharTexture (fa : FontAtlas) (charInfo : CharInfo)
    : FontAtlas * bool :=
  let '(p, ok) := place (packing fa) charInfo in
  ({| texture := texture fa; _charInfoMap := _charInfoMap fa; packing := p;
      uploaded := if ok then charInfo :: uploaded fa else uploaded fa |}, ok).

(** Modelled from the spec: [addCharInfo(char, charInfo)]. *)
Definition FontAtlas_addCharInfo (fa : FontAtlas) (char : string)
    (charInfo : CharInfo) : FontAtlas :=
  {| texture := texture fa; _charInfoMap := <[char:=charInfo]> (_charInfoMap fa);
     packing := packing fa; uploaded := uploaded fa |}.

(** Modelled from the spec: [getCharInfo(char) -> CharInfo | null]. *)
Definition FontAtlas_getCharInfo (fa : FontAtlas) (char : string)
    : option CharInfo :=
  _charInfoMap fa !! char.

(** The sub-font, with the engine's counter of created objects, from
    which a new texture takes its [instanceId]. *)
Record SubFont := {
  _instanceIdCounter : nat;
  _fontAtlases : list FontAtlas;
  _lastIndex : Z
}.

(** [new SubFont(engine)] *)
Definition SubFont_new (counter : nat) : SubFont :=
  {| _instanceIdCounter := counter; _fontAtlases := []; _lastIndex := -1 |}.

(** [fontAtlases[index]] for a number [index] *)
Definition atlas_at (fontAtlases : list FontAtlas) (index : Z)
    : option FontAtlas :=
  if decide (0 ≤ index)%Z then fontAtlases !! Z.to_nat index else None.

(** [fontAtlases[index]], an object, updated in place *)
Definition atlas_put (fontAtlases : list FontAtlas) (index : Z)
    (fa : FontAtlas) : list FontAtlas :=
  <[Z.to_nat index:=fa]> fontAtlases.

Definition _createFontAtlas (s : SubFont) : SubFont * FontAtlas :=
  let id := S (_instanceIdCounter s) in
  let texture := {| width := 256; height := 256; instanceId := id |} in
  let fontAtlas := FontAtlas_new texture in
  ({| _instanceIdCounter := id;
      _fontAtlases := _fontAtlases s ++ [fontAtlas];
      _lastIndex := _lastIndex s |}, fontAtlas).

Definition destroy (s : SubFont) : SubFont :=
  {| _instanceIdCounter := _instanceIdCounter s; _fontAtlases := [];
     _lastIndex := _lastIndex s |}.

(** [_uploadCharTexture(charInfo)]; [None] is the TypeError of calling a
    method of [undefined]. *)
Definition _uploadCharTexture (s : SubFont) (charInfo : CharInfo)
    : option (SubFont * CharInfo) :=
  let lastIndex := _lastIndex s in
  let '(s, lastIndex) :=
    if decide (lastIndex = -1)%Z
    then (fst (_createFontAtlas s), (lastIndex + 1)%Z)
    else (s, lastIndex) in
  fontAtlas ← atlas_at (_fontAtlases s) lastIndex;
  let '(fontAtlas, ok) := FontAtlas_uploadCharTexture fontAtlas charInfo in
  let s := {| _instanceIdCounter := _instanceIdCounter s;
              _fontAtlases := atlas_put (_fontAtlases s) lastIndex fontAtlas;
              _lastIndex := _lastIndex s |} in
  let '(s, lastIndex) :=
    if negb ok then
      let '(s, fontAtlas) := _createFontAtlas s in
      let '(fontAtlas, _) := FontAtlas_uploadCharTexture fontAtlas charInfo in
      ({| _instanceIdCounter := _instanceIdCounter s;
          _fontAtlases :=
            <[length (_fontAtlases s) - 1:=fontAtlas]> (_fontAtlases s);
          _lastIndex := _lastIndex s |}, (lastIndex + 1)%Z)
    else (s, lastIndex) in
  Some ({| _instanceIdCounter := _instanceIdCounter s;
           _fontAtlases := _fontAtlases s;
           _lastIndex := lastIndex |},
        {| w := w charInfo; h := h charInfo; xAdvance := xAdvance charInfo;
           ascent := ascent charInfo; descent := descent charInfo;
           index := index charInfo; data := None |}).

(** [_addCharInfo(char, charInfo)] *)
Definition _addCharInfo (s : SubFont) (char : string) (charInfo : CharInfo)
    : option (SubFont * CharInfo) :=
  let lastIndex := _lastIndex s in
  let charInfo :=
    {| w := w charInfo; h := h charInfo; xAdvance := xAdvance charInfo;
       ascent := ascent charInfo; descent := descent charInfo;
       index := lastIndex; data := data charInfo |} in
  fontAtlas ← atlas_at (_fontAtlases s) lastIndex;
  Some ({| _instanceIdCounter := _instanceIdCounter s;
           _fontAtlases :=
             atlas_put (_fontAtlases s) lastIndex
               (FontAtlas_addCharInfo fontAtlas char charInfo);
           _lastIndex := _lastIndex s |}, charInfo).

(** The scan of [_getCharInfo]: the first page that knows [char]. *)
Fixpoint scan_pages (fontAtlases : list FontAtlas) (char : string)
    : option CharInfo :=
  match fontAtlases with
  | [] => None
  | fontAtlas :: rest =>
      match FontAtlas_getCharInfo fontAtlas char with
      | Some charInfo => Some charInfo
      | None => scan_pages rest char
      end
  end.

Definition _getCharInfo (s : SubFont) (char : string) : option CharInfo :=
  scan_pages (_fontAtlases s) char.

Definition _getTextureByIndex (s : SubFont) (index : Z) : option Texture2D :=
  match atlas_at (_fontAtlases s) index with
  | Some fontAtlas => Some (texture fontAtlas)
  | None => None
  end.

Definition _getLastIndex (s : SubFont) : Z := _lastIndex s.

(** What a sub-font can be brought to: built, then any run of glyph
    uploads, registrations and destructions. *)
Inductive reachable : SubFont → Prop :=
  | reach_new counter : reachable (SubFont_new counter)
  | reach_upload s charInfo s' charInfo' :
      reachable s → _uploadCharTexture s charInfo = Some (s', charInfo') →
      reachable s'
  | reach_add s char charInfo s' charInfo' :
      reachable s → _addCharInfo s char charInfo = Some (s', charInfo') →
      reachable s'
  | reach_destroy s : reachable s → reachable (destroy s).

(** The cursor is on the last page. *)
Definition cursor_on_last (s : SubFont) : Prop :=
  _lastIndex s = (Z.of_nat (length (_fontAtlases s)) - 1)%Z.

(** Any run of uploads and registrations. *)
Inductive later : SubFont → SubFont → Prop :=
  | later_refl s : later s s
  | later_upload s1 s2 charInfo s3 charInfo' :
      later s1 s2 → _uploadCharTexture s2 charInfo = Some (s3, charInfo') →
      later s1 s3
  | later_add s1 s2 char charInfo s3 charInfo' :
      later s1 s2 → _addCharInfo s2 char charInfo = Some (s3, charInfo') →
      later s1 s3.

(** Any run of uploads and of registrations of other characters than
    [char]. *)
Inductive later_others (char : string) : SubFont → SubFont → Prop :=
  | later_others_refl s : later_others char s s
  | later_others_upload s1 s2 charInfo s3 charInfo' :
      later_others char s1 s2 →
      _uploadCharTexture s2 charInfo = Some (s3, charInfo') →
      later_others char s1 s3
  | later_others_add s1 s2 other charInfo s3 charInfo' :
      later_others char s1 s2 → other ≠ char →
      _addCharInfo s2 other charInfo = Some (s3, charInfo') →
      later_others char s1 s3.

(** The page the upload goes to first: the cursor's, or the first page,
    made on the spot. *)
Definition first_target (s : SubFont) : SubFont * Z :=
  if decide (_lastIndex s = -1)%Z
  then ((_createFontAtlas s).1, (_lastIndex s + 1)%Z)
  else (s, _lastIndex s).

(** Every page of [l] is still in [l'], at its place, with its texture
    and with at least the glyphs it knew. *)
Definition pages_grow (l l' : list FontAtlas) : Prop :=
  ∀ i fa, l !! i = Some fa →
    ∃ fa', l' !! i = Some fa' ∧ texture fa' = texture fa ∧
           ∀ char, is_Some (_charInfoMap fa !! char) →
                   is_Some (_charInfoMap fa' !! char).

(** What every reachable sub-font satisfies: the cursor is on the last
    page, unless the pages were destroyed. *)
Definition reach_inv (s : SubFont) : Prop := cursor_on_last s ∨ _fontAtlases s = [].

(** A new glyph enters the sub-font: uploaded, then registered. *)
Definition place_glyph (s : SubFont) (glyph : string * CharInfo)
    : option SubFont :=
  '(s, charInfo) ← _uploadCharTexture s glyph.2;
  '(s, _) ← _addCharInfo s glyph.1 charInfo;
  Some s.

Fixpoint place_glyphs (s : SubFont) (glyphs : list (string * CharInfo))
    : option SubFont :=
  match glyphs with
  | [] => Some s
  | glyph :: glyphs => s ← place_glyph s glyph; place_glyphs s glyphs
  end.

End Atlas.

(** *** Sub-fonts that are evaluated *)

(** A page with room for two glyphs. *)
Definition two_per_page (used : nat) (_ : CharInfo) : nat * bool :=
  if decide (used < 2) then (S used, true) else (used, false).

Definition glyph (char : string) (pixels : nat) : string * CharInfo :=
  (char, {| w := 10; h := 12; xAdvance := 11; ascent := 9; descent := 3;
            index := 0; data := Some pixels |}).

(** The new sub-font after the upload of "a", and after its registration. *)
Definition first_uploaded : SubFont * CharInfo := Eval vm_compute in
  default (SubFont_new 0, (glyph "a" 1).2)
    (_uploadCharTexture 0 two_per_page (SubFont_new 0) (glyph "a" 1).2).

Definition first_registered : SubFont * CharInfo := Eval vm_compute in
  default first_uploaded
    (_addCharInfo first_uploaded.1 "a" first_uploaded.2).

(** The sub-font after "a" and "b": one full page. *)
Definition two_glyphs : SubFont := Eval vm_compute in
    default (SubFont_new 0)
      (place_glyphs 0 two_per_page (SubFont_new 0) [glyph "a" 1; glyph "b" 2]).

(** After the upload of "c": a second page. *)
Definition third_uploaded : SubFont * CharInfo := Eval vm_compute in
    default (two_glyphs, (glyph "c" 3).2)
      (_uploadCharTexture 0 two_per_page two_glyphs (glyph "c" 3).2).

(** After "c", "d" and "e": three pages. *)
Definition five_glyphs : SubFont := Eval vm_compute in
    default two_glyphs
      (place_glyphs 0 two_per_page two_glyphs
         [glyph "c" 3; glyph "d" 4; glyph "e" 5]).

(** A page of fixed size: room for two glyphs, each no larger than the
    page's texture of 256 by 256. *)
Definition two_that_fit (used : nat) (charInfo : CharInfo) : nat * bool :=
  if decide (used < 2 ∧ (w charInfo ≤ 256)%Z ∧ (h charInfo ≤ 256)%Z)
  then (S used, true) else (used, false).

(** A glyph larger than a page. *)
Definition oversized : string * CharInfo :=
  ("W", {| w := 300; h := 320; xAdvance := 310; ascent := 260; descent := 60;
           index := 0; data := Some 9 |}).

(** The new sub-font after the upload of the oversized glyph, and after
    its registration. *)
Definition oversized_uploaded : SubFont * CharInfo := Eval vm_compute in
  default (SubFont_new 0, oversized.2)
    (_uploadCharTexture 0 two_that_fit (SubFont_new 0) oversized.2).

Definition oversized_registered : SubFont * CharInfo := Eval vm_compute in
  default oversized_uploaded
    (_addCharInfo oversized_uploaded.1 oversized.1 oversized_uploaded.2).

End SubFont.

(** ** TextRenderer: parameters behind dirty flags, and the render guard *)

Module TextRenderer.

(** Modelled from the spec: [enum TextHorizontalAlignment]. *)
Module TextHorizontalAlignment.
Inductive t := Left | Center | Right.
Global Instance eq_dec : EqDecision t := ltac:(solve_decision).
End TextHorizontalAlignment.

(** Modelled from the spec: [enum TextVerticalAlignment]. *)
Module TextVerticalAlignment.
Inductive t := Top | Center | Bottom.
Global Instance eq_dec : EqDecision t := ltac:(solve_decision).
End TextVerticalAlignment.

(** Modelled from the spec: [enum OverflowMode]. *)
Module OverflowMode.
Inductive t := Overflow | Truncate.
Global Instance eq_dec : EqDecision t := ltac:(solve_decision).
End OverflowMode.

(** Modelled from the spec: [enum SpriteMaskInteraction]. *)
Module SpriteMaskInteraction.
Inductive t := None | VisibleInsideMask | VisibleOutsideMask.
Global Instance eq_dec : EqDecision t := ltac:(solve_decision).
End SpriteMaskInteraction.

(** Modelled from the spec: [enum CompareFunction], the members that the
    renderer names. *)
Module CompareFunction.
Inductive t := Always | LessEqual | Greater.
End CompareFunction.

(** [ToInt32], which the bitwise operators of JavaScript apply to their
    operands: the number is taken modulo 2^32 into the signed 32-bit
    integers.  On these, as integers in two's complement, [|], [&] and [~]
    are [Z.lor], [Z.land] and [Z.lnot]. *)
Definition ToInt32 (n : Z) : Z := ((n + 2 ^ 31) mod 2 ^ 32 - 2 ^ 31)%Z.

(** The signed 32-bit integers. *)
Definition int32 (n : Z) : Prop := (- 2 ^ 31 ≤ n < 2 ^ 31)%Z.

(** [enum DirtyFlag] *)
Module DirtyFlag.
Definition SubFont : Z := 0x1.
Definition LocalPositionBounds : Z := 0x2.
Definition WorldPosition : Z := 0x4.
Definition WorldBounds : Z := 0x8.
Definition MaskInteraction : Z := 0x10.
Definition Position : Z :=
  Z.lor (Z.lor LocalPositionBounds WorldPosition) WorldBounds.
Definition Font : Z := Z.lor SubFont Position.
End DirtyFlag.

(** Modelled from the spec: the stencil state of the renderer's own
    material instance, the fields that the renderer writes. *)
Record StencilState := {
  enabled : bool;
  writeMask : Z;
  referenceValue : Z;
  compareFunctionFront : CompareFunction.t;
  compareFunctionBack : CompareFunction.t
}.

Section Renderer.
(** The glyph quads, the sub-font and the font are other objects; the
    renderer holds references to them. *)
Context {CharRenderData SubFont Font Color : Type}.
Context `{EqDecision Font}.

Record TextRenderer := {
  _subFont : option SubFont;
  _charRenderDatas : list CharRenderData;
  _dirtyFlag : Z;
  _color : Color;
  _text : string;
  _width : Z;
  _height : Z;
  _font : option Font;
  _fontSize : Z;
  _fontStyle : Z;
  _lineSpacing : Z;
  _horizontalAlignment : TextHorizontalAlignment.t;
  _verticalAlignment : TextVerticalAlignment.t;
  _enableWrapping : bool;
  _overflowMode : OverflowMode.t;
  _maskInteraction : SpriteMaskInteraction.t;
  _maskLayer : Z;
  stencilState : StencilState
}.

(** One field replaced, the others kept. *)
Definition with_subFont (r : TextRenderer) (v : option SubFont) : TextRenderer :=
  let '(Build_TextRenderer _ cs df co tx wi he fo fz fy ls ha va ew om mi ml st) := r in
  Build_TextRenderer v cs df co tx wi he fo fz fy ls ha va ew om mi ml st.

Definition with_color (r : TextRenderer) (v : Color) : TextRenderer :=
  let '(Build_TextRenderer sf cs df _ tx wi he fo fz fy ls ha va ew om mi ml st) := r in
  Build_TextRenderer sf cs df v tx wi he fo fz fy ls ha va ew om mi ml st.

Definition with_dirtyFlag (r : TextRenderer) (v : Z) : TextRenderer :=
  let '(Build_TextRenderer sf cs _ co tx wi he fo fz fy ls ha va ew om mi ml st) := r in
  Build_TextRenderer sf cs v co tx wi he fo fz fy ls ha va ew om mi ml st.

Definition with_text (r : TextRenderer) (v : string) : TextRenderer :=
  let '(Build_TextRenderer sf cs df co _ wi he fo fz fy ls ha va ew om mi ml st) := r in
  Build_TextRenderer sf cs df co v wi he fo fz fy ls ha va ew om mi ml st.

Definition with_width (r : TextRenderer) (v : Z) : TextRenderer :=
  let '(Build_TextRenderer sf cs df co tx _ he fo fz fy ls ha va ew om mi ml st) := r in
  Build_TextRenderer sf cs df co tx v he fo fz fy ls ha va ew om mi ml st.

Definition with_height (r : TextRenderer) (v : Z) : TextRenderer :=
  let '(Build_TextRenderer sf cs df co tx wi _ fo fz fy ls ha va ew om mi ml st) := r in
  Build_TextRenderer sf cs df co tx wi v fo fz fy ls ha va ew om mi ml st.

Definition with_font (r : TextRenderer) (v : option Font) : TextRenderer :=
  let '(Build_TextRenderer sf cs df co tx wi he _ fz fy ls ha va ew om mi ml st) := r in
  Build_TextRenderer sf cs df co tx wi he v fz fy ls ha va ew om mi ml st.

Definition with_fontSize (r : TextRenderer) (v : Z) : TextRenderer :=
  let '(Build_TextRenderer sf cs df co tx wi he fo _ fy ls ha va ew om mi ml st) := r in
  Build_TextRenderer sf cs df co tx wi he fo v fy ls ha va ew om mi ml st.

Definition with_fontStyle (r : TextRenderer) (v : Z) : TextRenderer :=
  let '(Build_TextRenderer sf cs df co tx wi he fo fz _ ls ha va ew om mi ml st) := r in
  Build_TextRenderer sf cs df co tx wi he fo fz v ls ha va ew om mi ml st.

Definition with_lineSpacing (r : TextRenderer) (v : Z) : TextRenderer :=
  let '(Build_TextRenderer sf cs df co tx wi he fo fz fy _ ha va ew om mi ml st) := r in
  Build_TextRenderer sf cs df co tx wi he fo fz fy v ha va ew om mi ml st.

Definition with_horizontalAlignment (r : TextRenderer) (v : TextHorizontalAlignment.t) : TextRenderer :=
  let '(Build_TextRenderer sf cs df co tx wi he fo fz fy ls _ va ew om mi ml st) := r in
  Build_TextRenderer sf cs df co tx wi he fo fz fy ls v va ew om mi ml st.

Definition with_verticalAlignment (r : TextRenderer) (v : TextVerticalAlignment.t) : TextRenderer :=
  let '(Build_TextRenderer sf cs df co tx wi he fo fz fy ls ha _ ew om mi ml st) := r in
  Build_TextRenderer sf cs df co tx wi he fo fz fy ls ha v ew om mi ml st.

Definition with_enableWrapping (r : TextRenderer) (v : bool) : TextRenderer :=
  let '(Build_TextRenderer sf cs df co tx wi he fo fz fy ls ha va _ om mi ml st) := r in
  Build_TextRenderer sf cs df co tx wi he fo fz fy ls ha va v om mi ml st.

Definition with_overflowMode (r : TextRenderer) (v : OverflowMode.t) : TextRenderer :=
  let '(Build_TextRenderer sf cs df co tx wi he fo fz fy ls ha va ew _ mi ml st) := r in
  Build_TextRenderer sf cs df co tx wi he fo fz fy ls ha va ew v mi ml st.

Definition with_maskInteraction (r : TextRenderer) (v : SpriteMaskInteraction.t) : TextRenderer :=
  let '(Build_TextRenderer sf cs df co tx wi he fo fz fy ls ha va ew om _ ml st) := r in
  Build_TextRenderer sf cs df co tx wi he fo fz fy ls ha va ew om v ml st.

Definition with_maskLayer (r : TextRenderer) (v : Z) : TextRenderer :=
  let '(Build_TextRenderer sf cs df co tx wi he fo fz fy ls ha va ew om mi _ st) := r in
  Build_TextRenderer sf cs df co tx wi he fo fz fy ls ha va ew om mi v st.

Definition with_stencilState (r : TextRenderer) (v : StencilState) : TextRenderer :=
  let '(Build_TextRenderer sf cs df co tx wi he fo fz fy ls ha va ew om mi ml _) := r in
  Build_TextRenderer sf cs df co tx wi he fo fz fy ls ha va ew om mi ml v.

(** The three methods on the flag word.  [type] is any number and is
    brought to 32 bits by the operator.  The flag word starts as
    [DirtyFlag.Font] and the class writes it by [|=] and [&= ~] only,
    which give signed 32-bit integers: on such a word the operators do
    not truncate, and the word is taken as it is. *)
Definition _isContainDirtyFlag (r : TextRenderer) (type : Z) : bool :=
  negb (Z.land (_dirtyFlag r) (ToInt32 type) =? 0)%Z.

Definition _setDirtyFlagTrue (r : TextRenderer) (type : Z) : TextRenderer :=
  with_dirtyFlag r (Z.lor (_dirtyFlag r) (ToInt32 type)).

Definition _setDirtyFlagFalse (r : TextRenderer) (type : Z) : TextRenderer :=
  with_dirtyFlag r (Z.land (_dirtyFlag r) (Z.lnot (ToInt32 type))).

(** What a caller may pass where a string is expected. *)
Inductive StringArg := Null | Undefined | Str (s : string).

(** [value || ''], the empty string for a falsy value *)
Definition or_empty (value : StringArg) : string :=
  match value with
  | Str s => if decide (s = String.EmptyString) then String.EmptyString else s
  | Null | Undefined => String.EmptyString
  end.

(** [this._color.copyFrom(value)], skipped when [value] is the stored
    object, whose content it then has. *)
Definition set_color (r : TextRenderer) (value : Color) : TextRenderer :=
  with_color r value.

(** The font setter, with the [_addRefCount] calls it makes. *)
Definition set_font (r : TextRenderer) (value : option Font)
    : TextRenderer * list (Font * Z) :=
  let lastFont := _font r in
  if decide (lastFont ≠ value) then
    (_setDirtyFlagTrue (with_font r value) DirtyFlag.Font,
     (if lastFont is Some f then [(f, -1)%Z] else []) ++
     (if value is Some f then [(f, 1)%Z] else []))
  else (r, []).

Definition set_text (r : TextRenderer) (value : StringArg) : TextRenderer :=
  let value := or_empty value in
  if decide (_text r ≠ value)
  then _setDirtyFlagTrue (with_text r value) DirtyFlag.Position
  else r.

Definition set_width (r : TextRenderer) (value : Z) : TextRenderer :=
  if decide (_width r ≠ value)
  then _setDirtyFlagTrue (with_width r value) DirtyFlag.Position
  else r.

Definition set_height (r : TextRenderer) (value : Z) : TextRenderer :=
  if decide (_height r ≠ value)
  then _setDirtyFlagTrue (with_height r value) DirtyFlag.Position
  else r.

Definition set_fontSize (r : TextRenderer) (value : Z) : TextRenderer :=
  if decide (_fontSize r ≠ value)
  then _setDirtyFlagTrue (with_fontSize r value) DirtyFlag.Font
  else r.

Definition set_fontStyle (r : TextRenderer) (value : Z) : TextRenderer :=
  if decide (_fontStyle r ≠ value)
  then _setDirtyFlagTrue (with_fontStyle r value) DirtyFlag.Font
  else r.

Definition set_lineSpacing (r : TextRenderer) (value : Z) : TextRenderer :=
  if decide (_lineSpacing r ≠ value)
  then _setDirtyFlagTrue (with_lineSpacing r value) DirtyFlag.Position
  else r.

Definition set_horizontalAlignment (r : TextRenderer)
    (value : TextHorizontalAlignment.t) : TextRenderer :=
  if decide (_horizontalAlignment r ≠ value)
  then _setDirtyFlagTrue (with_horizontalAlignment r value) DirtyFlag.Position
  else r.

Definition set_verticalAlignment (r : TextRenderer)
    (value : TextVerticalAlignment.t) : TextRenderer :=
  if decide (_verticalAlignment r ≠ value)
  then _setDirtyFlagTrue (with_verticalAlignment r value) DirtyFlag.Position
  else r.

Definition set_enableWrapping (r : TextRenderer) (value : bool)
    : TextRenderer :=
  if decide (_enableWrapping r ≠ value)
  then _setDirtyFlagTrue (with_enableWrapping r value) DirtyFlag.Position
  else r.

Definition set_overflowMode (r : TextRenderer) (value : OverflowMode.t)
    : TextRenderer :=
  if decide (_overflowMode r ≠ value)
  then _setDirtyFlagTrue (with_overflowMode r value) DirtyFlag.Position
  else r.

Definition set_maskInteraction (r : TextRenderer)
    (value : SpriteMaskInteraction.t) : TextRenderer :=
  if decide (_maskInteraction r ≠ value)
  then _setDirtyFlagTrue (with_maskInteraction r value)
         DirtyFlag.MaskInteraction
  else r.

Definition set_maskLayer (r : TextRenderer) (value : Z) : TextRenderer :=
  with_maskLayer r value.

Definition _updateStencilState (r : TextRenderer) : TextRenderer :=
  let maskInteraction := _maskInteraction r in
  with_stencilState r
    (if decide (maskInteraction = SpriteMaskInteraction.None) then
       {| enabled := false; writeMask := 0xff; referenceValue := 0;
          compareFunctionFront := CompareFunction.Always;
          compareFunctionBack := CompareFunction.Always |}
     else
       let compare :=
         if decide (maskInteraction = SpriteMaskInteraction.VisibleInsideMask)
         then CompareFunction.LessEqual else CompareFunction.Greater in
       {| enabled := true; writeMask := 0x00; referenceValue := 1;
          compareFunctionFront := compare; compareFunctionBack := compare |}).

(** The collaborators of the layout: the font's cache of sub-fonts, the
    text measurement and glyph placement of [_updateLocalData], and the
    entity's world matrix in [_updatePosition]. *)
Variable Font_getSubFont : Font → Z → Z → SubFont.
Variable _updateLocalData : TextRenderer → TextRenderer.
Variable _updatePosition : TextRenderer → TextRenderer.

(** [this._font._getSubFont(..)]; [None] is the TypeError on a [null]
    font. *)
Definition _resetSubFont (r : TextRenderer) : option TextRenderer :=
  font ← _font r;
  Some (with_subFont r (Some (Font_getSubFont font (_fontSize r) (_fontStyle r)))).

(** The text element handed to the render pipeline: the renderer it
    comes from and one sprite element per glyph quad. *)
Record TextElement := {
  component : TextRenderer;
  charElements : list CharRenderData
}.

(** [_render(context)], with the pipeline's list of pushed primitives. *)
Definition _render (r : TextRenderer) (pipeline : list TextElement)
    : option (TextRenderer * list TextElement) :=
  if bool_decide (_text r = String.EmptyString)
     || (_enableWrapping r && bool_decide (_width r ≤ 0)%Z)
     || (bool_decide (_overflowMode r = OverflowMode.Truncate)
         && bool_decide (_height r ≤ 0)%Z)
  then Some (r, pipeline)
  else
    let r :=
      if _isContainDirtyFlag r DirtyFlag.MaskInteraction
      then _setDirtyFlagFalse (_updateStencilState r) DirtyFlag.MaskInteraction
      else r in
    r ← (if _isContainDirtyFlag r DirtyFlag.SubFont
         then r ← _resetSubFont r; Some (_setDirtyFlagFalse r DirtyFlag.SubFont)
         else Some r);
    let r :=
      if _isContainDirtyFlag r DirtyFlag.LocalPositionBounds
      then _setDirtyFlagFalse (_updateLocalData r) DirtyFlag.LocalPositionBounds
      else r in
    let r :=
      if _isContainDirtyFlag r DirtyFlag.WorldPosition
      then _setDirtyFlagFalse (_updatePosition r) DirtyFlag.WorldPosition
      else r in
    let textElement :=
      {| component := r; charElements := _charRenderDatas r |} in
    Some (r, pipeline ++ [textElement]).

(** The conditions under which [_render] gives up at once. *)
Definition nothing_to_render (r : TextRenderer) : Prop :=
  _text r = String.EmptyString ∨
  (_enableWrapping r = true ∧ (_width r ≤ 0)%Z) ∨
  (_overflowMode r = OverflowMode.Truncate ∧ (_height r ≤ 0)%Z).

Definition with_charRenderDatas (r : TextRenderer) (v : list CharRenderData)
    : TextRenderer :=
  let '(Build_TextRenderer sf _ df co tx wi he fo fz fy ls ha va ew om mi ml st) := r in
  Build_TextRenderer sf v df co tx wi he fo fz fy ls ha va ew om mi ml st.

(** The field initialisers and the constructor, which takes the engine's
    default font and counts one more reference to it.  [white] is
    [new Color(1, 1, 1, 1)]; the two enum members are given by their
    values; the stencil state is that of the material the renderer
    starts with. *)
Definition TextRenderer_new (white : Color) (_textDefaultFont : Font)
    (FontStyle_None SpriteMaskLayer_Layer0 : Z) (stencil : StencilState)
    : TextRenderer * list (Font * Z) :=
  ({| _subFont := Datatypes.None; _charRenderDatas := [];
      _dirtyFlag := DirtyFlag.Font; _color := white;
      _text := String.EmptyString; _width := 0; _height := 0;
      _font := Some _textDefaultFont; _fontSize := 24;
      _fontStyle := FontStyle_None;
      _lineSpacing := 0;
      _horizontalAlignment := TextHorizontalAlignment.Center;
      _verticalAlignment := TextVerticalAlignment.Center;
      _enableWrapping := false; _overflowMode := OverflowMode.Overflow;
      _maskInteraction := SpriteMaskInteraction.None;
      _maskLayer := SpriteMaskLayer_Layer0; stencilState := stencil |},
   [(_textDefaultFont, 1%Z)]).

(** [_onTransformChanged(bit)], after the handler of the base class. *)
Definition _onTransformChanged (r : TextRenderer) : TextRenderer :=
  _setDirtyFlagTrue r (Z.lor DirtyFlag.WorldPosition DirtyFlag.WorldBounds).

(** [_updateBounds(worldBounds)] transforms the local bounds, which
    [_updateLocalData] keeps, by the entity's world matrix. *)
Context {BoundingBox : Type}.
Variable _updateBounds : TextRenderer → BoundingBox → BoundingBox.

(** [get bounds()]; [_bounds] is the bounding box that the base class
    holds.  [None] is the TypeError of [_resetSubFont] on a [null] font. *)
Definition get_bounds (r : TextRenderer) (_bounds : BoundingBox)
    : option (BoundingBox * TextRenderer) :=
  r ← (if _isContainDirtyFlag r DirtyFlag.SubFont then _resetSubFont r
       else Some r);
  let r :=
    if _isContainDirtyFlag r DirtyFlag.LocalPositionBounds
    then _updateLocalData r else r in
  let r :=
    if _isContainDirtyFlag r DirtyFlag.WorldPosition
    then _updatePosition r else r in
  let _bounds :=
    if _isContainDirtyFlag r DirtyFlag.WorldBounds
    then _updateBounds r _bounds else _bounds in
  let r := _setDirtyFlagFalse r DirtyFlag.Font in
  Some (_bounds, r).

(** [_onDestroy()], before the handler of the base class: the renderer,
    the glyph quads handed back to the pool and the reference counts
    changed. *)
Definition _onDestroy (r : TextRenderer)
    : TextRenderer * list CharRenderData * list (Font * Z) :=
  let pooled := _charRenderDatas r in
  let r := with_charRenderDatas r [] in
  let '(r, counted) :=
    match _font r with
    | Some font => (with_font r Datatypes.None, [(font, (-1)%Z)])
    | Datatypes.None => (r, [])
    end in
  let r := if _subFont r is Some _ then with_subFont r Datatypes.None else r in
  (r, pooled, counted).

(** [_cloneTo(target)] *)
Definition _cloneTo (r target : TextRenderer)
    : TextRenderer * list (Font * Z) :=
  let '(target, counted) := set_font target (_font r) in
  (with_subFont target (_subFont r), counted).

(** A run of assignments to [font], with all the reference counts
    changed on the way. *)
Fixpoint set_fonts (r : TextRenderer) (values : list (option Font))
    : TextRenderer * list (Font * Z) :=
  match values with
  | [] => (r, [])
  | value :: values =>
      let '(r, counted) := set_font r value in
      let '(r, counted') := set_fonts r values in
      (r, counted ++ counted')
  end.

(** What a list of [_addRefCount] calls adds to the count of [font]. *)
Definition refCount_change (font : Font) (counted : list (Font * Z)) : Z :=
  foldr (λ '(f, n) total, if decide (f = font) then (n + total)%Z else total)
        0%Z counted.

(** The references to [font] that a renderer holds whose font is
    [value]: one or none. *)
Definition references_held (font : Font) (value : option Font) : Z :=
  if decide (value = Some font) then 1%Z else 0%Z.

(** One assignment to a property. *)
Inductive Assignment :=
  | AssignColor (value : Color)
  | AssignFont (value : option Font)
  | AssignText (value : StringArg)
  | AssignWidth (value : Z)
  | AssignHeight (value : Z)
  | AssignFontSize (value : Z)
  | AssignFontStyle (value : Z)
  | AssignLineSpacing (value : Z)
  | AssignHorizontalAlignment (value : TextHorizontalAlignment.t)
  | AssignVerticalAlignment (value : TextVerticalAlignment.t)
  | AssignEnableWrapping (value : bool)
  | AssignOverflowMode (value : OverflowMode.t)
  | AssignMaskInteraction (value : SpriteMaskInteraction.t)
  | AssignMaskLayer (value : Z).

Definition assign (r : TextRenderer) (a : Assignment) : TextRenderer :=
  match a with
  | AssignColor value => set_color r value
  | AssignFont value => (set_font r value).1
  | AssignText value => set_text r value
  | AssignWidth value => set_width r value
  | AssignHeight value => set_height r value
  | AssignFontSize value => set_fontSize r value
  | AssignFontStyle value => set_fontStyle r value
  | AssignLineSpacing value => set_lineSpacing r value
  | AssignHorizontalAlignment value => set_horizontalAlignment r value
  | AssignVerticalAlignment value => set_verticalAlignment r value
  | AssignEnableWrapping value => set_enableWrapping r value
  | AssignOverflowMode value => set_overflowMode r value
  | AssignMaskInteraction value => set_maskInteraction r value
  | AssignMaskLayer value => set_maskLayer r value
  end.

End Renderer.

(** *** A renderer that is evaluated *)

(** Wrapping is on and the width is zero. *)
Definition wrapped_without_width : @TextRenderer nat nat nat nat :=
  {| _subFont := Datatypes.None; _charRenderDatas := []; _dirtyFlag := DirtyFlag.Font;
     _color := 0; _text := "Oasis"; _width := 0; _height := 0;
     _font := Some 0; _fontSize := 24; _fontStyle := 0; _lineSpacing := 0;
     _horizontalAlignment := TextHorizontalAlignment.Center;
     _verticalAlignment := TextVerticalAlignment.Center;
     _enableWrapping := true; _overflowMode := OverflowMode.Overflow;
     _maskInteraction := SpriteMaskInteraction.None; _maskLayer := 1;
     stencilState :=
       {| enabled := false; writeMask := 0xff; referenceValue := 0;
          compareFunctionFront := CompareFunction.Always;
          compareFunctionBack := CompareFunction.Always |} |}.

End TextRenderer.

(** ** TextRenderer: the world positions of the glyph quads *)

Module TextRendererPosition.
Import Camera.

Section Position.
Local Open Scope Qc_scope.

(** Modelled from the spec: [Vector3.scale(a, s, out)]. *)
Definition Vector3_scale (a : Vector3.t) (s : Qc) : Vector3.t :=
  {| Vector3.x := Vector3.x a * s; Vector3.y := Vector3.y a * s;
     Vector3.z := Vector3.z a * s |}.

(** Modelled from the spec: [Vector3.add(left, right, out)]. *)
Definition Vector3_add (left right : Vector3.t) : Vector3.t :=
  {| Vector3.x := Vector3.x left + Vector3.x right;
     Vector3.y := Vector3.y left + Vector3.y right;
     Vector3.z := Vector3.z left + Vector3.z right |}.

(** Modelled from the spec: a glyph quad, reduced to what
    [_updatePosition] reads and writes: the local rectangle
    [localPositions] = (left, top, right, bottom) and the array
    [renderData.positions] of its corners in the world.  [Other] stands
    for the rest (texture, uvs, color). *)
Record CharRenderData {Other : Type} := {
  other : Other;
  localPositions : Vector4.t;
  positions : list Vector3.t
}.
Arguments CharRenderData : clear implicits.

Context {Other : Type}.

(** [positions[i]] is a [Vector3] that is written in place; outside the
    array there is none to write to. *)
Definition write_position (positions : list Vector3.t) (i : nat)
    (v : Vector3.t) : option (list Vector3.t) :=
  if decide (i < length positions)%nat then Some (<[i:=v]> positions)
  else None.

(** The body of the loop of [_updatePosition], for the world matrix [e]. *)
Definition _updatePosition_quad (e : Matrix) (charRenderData : CharRenderData Other)
    : option (CharRenderData Other) :=
  let up := {| Vector3.x := e4 e; Vector3.y := e5 e; Vector3.z := e6 e |} in
  let right := {| Vector3.x := e0 e; Vector3.y := e1 e; Vector3.z := e2 e |} in
  let localPositions := localPositions charRenderData in
  let positions := positions charRenderData in
  let topLeftX := Vector4.x localPositions in
  let topLeftY := Vector4.y localPositions in
  (* Top-Left *)
  positions ← write_position positions 0
    {| Vector3.x := topLeftX * e0 e + topLeftY * e4 e + e12 e;
       Vector3.y := topLeftX * e1 e + topLeftY * e5 e + e13 e;
       Vector3.z := topLeftX * e2 e + topLeftY * e6 e + e14 e |};
  (* Right offset *)
  positions ← write_position positions 1
    (Vector3_scale right (Vector4.z localPositions - topLeftX));
  (* Top-Right *)
  worldPosition0 ← positions !! 0%nat;
  worldPosition1 ← positions !! 1%nat;
  positions ← write_position positions 1
    (Vector3_add worldPosition0 worldPosition1);
  (* Up offset *)
  positions ← write_position positions 2
    (Vector3_scale up (Vector4.w localPositions - topLeftY));
  (* Bottom-Left *)
  worldPosition2 ← positions !! 2%nat;
  positions ← write_position positions 3
    (Vector3_add worldPosition0 worldPosition2);
  (* Bottom-Right *)
  worldPosition1 ← positions !! 1%nat;
  positions ← write_position positions 2
    (Vector3_add worldPosition1 worldPosition2);
  Some {| other := other charRenderData; localPositions := localPositions;
          positions := positions |}.

(** [_updatePosition()] on the renderer's [_charRenderDatas], with the
    entity's world matrix. *)
Definition _updatePosition (worldMatrix : Matrix)
    (charRenderDatas : list (CharRenderData Other))
    : option (list (CharRenderData Other)) :=
  mapM (_updatePosition_quad worldMatrix) charRenderDatas.

(** The point (x, y, 0) of the renderer's plane, in the world. *)
Definition to_world (e : Matrix) (x y : Qc) : Vector3.t :=
  {| Vector3.x := x * e0 e + y * e4 e + e12 e;
     Vector3.y := x * e1 e + y * e5 e + e13 e;
     Vector3.z := x * e2 e + y * e6 e + e14 e |}.

End Position.
Arguments CharRenderData : clear implicits.

End TextRendererPosition.

(** ** JavaScript strings: the built-ins that the sources call *)

Module JSString.

(** A character occurs in a string. *)
Fixpoint occurs (c : ascii) (s : string) : bool :=
  match s with
  | EmptyString => false
  | String a s => bool_decide (a = c) || occurs c s
  end.

(** [s.lastIndexOf(c)] for a search string of one character [c], in a
    string that starts at [position]: the position of the last [c], or
    [-1]. *)
Fixpoint lastIndexOf_from (s : string) (c : ascii) (position : Z) : Z :=
  match s with
  | EmptyString => -1
  | String a s =>
      let later := lastIndexOf_from s c (position + 1) in
      if decide (later ≠ -1)%Z then later
      else if decide (a = c) then position else (-1)%Z
  end.

Definition lastIndexOf (s : string) (c : ascii) : Z := lastIndexOf_from s c 0.

(** [s.substring(indexStart, indexEnd)]: the two indices are brought into
    [0 .. s.length] and taken in order. *)
Definition substring (s : string) (indexStart indexEnd : Z) : string :=
  let len := Z.of_nat (String.length s) in
  let finalStart := Z.min (Z.max indexStart 0) len in
  let finalEnd := Z.min (Z.max indexEnd 0) len in
  let from := Z.min finalStart finalEnd in
  let to := Z.max finalStart finalEnd in
  String.substring (Z.to_nat from) (Z.to_nat (to - from)) s.

End JSString.

(** ** JavaScript objects used as maps *)

Module JSObject.

(** The names of the members of [Object.prototype], which every object
    made by [{}] inherits (ECMAScript, with its annex on web browsers).
    All of them are functions, but for [__proto__], which reads as
    [Object.prototype] itself: none is falsy, and none is enumerated by
    [for .. in]. *)
Definition prototype_names : list string :=
  ["constructor"; "hasOwnProperty"; "isPrototypeOf"; "propertyIsEnumerable";
   "toLocaleString"; "toString"; "valueOf"; "__proto__";
   "__defineGetter__"; "__defineSetter__"; "__lookupGetter__";
   "__lookupSetter__"].

Definition inherited (name : string) : bool :=
  existsb (String.eqb name) prototype_names.

End JSObject.

(** ** BufferParser: is the resource a binary glTF? *)

Module BufferParser.

(** [_isGLB(url)] *)
Definition _isGLB (url : string) : bool :=
  let index := JSString.lastIndexOf url "."%char in
  bool_decide (JSString.substring url (index + 1) (index + 4) = "glb").

End BufferParser.

(** ** Font: the cache of fonts by name and of sub-fonts by size and style *)

Module Font.

(** Fonts and sub-fonts are objects: a reference is the position of the
    object in the heap.  The sub-fonts are taken as they come: [SubFont]
    is their state, [SubFont_new] a new one and [SubFont_destroy] what
    [destroy()] makes of one. *)
Section Fonts.
Context {SubFont : Type}.
Variable SubFont_new : SubFont.
Variable SubFont_destroy : SubFont → SubFont.

(** A font object; [_subFontMap] is [None] once it is [null].  The
    objects used as maps, [Font._fontMap] and [_subFontMap], are the
    finite maps of their own properties.  A read of [Font._fontMap] at a
    name that is not its own finds what every object inherits
    ([fontMap_get]); the keys of [_subFontMap] hold a dash, which no
    inherited name does. *)
Record Font := {
  _name : string;
  _subFontMap : option (gmap string nat)
}.

Record Heap := {
  fonts : list Font;
  subFonts : list SubFont;
  _fontMap : gmap string nat        (* the static [Font._fontMap] *)
}.

(** [new Font(engine, name)] *)
Definition Font_new (h : Heap) (name : string) : nat * Heap :=
  (length (fonts h),
   {| fonts := fonts h ++ [{| _name := name; _subFontMap := Some ∅ |}];
      subFonts := subFonts h; _fontMap := _fontMap h |}).

(** What [fontMap[name]] reads: a font object, or the member of
    [Object.prototype] of that name. *)
Inductive Member :=
  | FontObject (font : nat)
  | Inherited (name : string).

(** [fontMap[name]]: the own property, else the inherited member, else
    [undefined]. *)
Definition fontMap_get (fontMap : gmap string nat) (name : string)
    : option Member :=
  match fontMap !! name with
  | Some font => Some (FontObject font)
  | None =>
      if JSObject.inherited name then Some (Inherited name) else None
  end.

(** [Font.createFromOS(engine, name)]; the result [None] is [null].
    Whatever [fontMap[name]] reads is returned as the font, none of it
    being falsy. *)
Definition createFromOS (h : Heap) (name : string)
    : option Member * Heap :=
  if decide (name ≠ String.EmptyString) then
    match fontMap_get (_fontMap h) name with
    | Some font => (Some font, h)
    | None =>
        let '(font, h) := Font_new h name in
        (Some (FontObject font),
         {| fonts := fonts h; subFonts := subFonts h;
            _fontMap := <[name:=font]> (_fontMap h) |})
    end
  else (None, h).

(** [get name()] *)
Definition get_name (h : Heap) (font : nat) : option string :=
  _name <$> fonts h !! font.

(** The template string [`${fontSize}-${fontStyle}`], for whole numbers
    below 10^21 in size, which print in decimal digits. *)
Definition subFont_key (fontSize fontStyle : Z) : string :=
  pretty fontSize +:+ "-" +:+ pretty fontStyle.

(** [_getSubFont(fontSize, fontStyle)] on the font object [font]; [None]
    is the TypeError of reading a property of [null]. *)
Definition _getSubFont (h : Heap) (font : nat) (fontSize fontStyle : Z)
    : option (nat * Heap) :=
  this ← fonts h !! font;
  let key := subFont_key fontSize fontStyle in
  subFontMap ← _subFontMap this;
  match subFontMap !! key with
  | Some subFont => Some (subFont, h)
  | None =>
      let subFont := length (subFonts h) in
      Some (subFont,
            {| fonts :=
                 <[font:={| _name := _name this;
                            _subFontMap := Some (<[key:=subFont]> subFontMap) |}]>
                   (fonts h);
               subFonts := subFonts h ++ [SubFont_new];
               _fontMap := _fontMap h |})
  end.

(** [subFontMap[k].destroy()] for every key [k] *)
Definition destroy_all (subFontMap : gmap string nat) (subFonts : list SubFont)
    : list SubFont :=
  map_fold (λ _ subFont subFonts, alter SubFont_destroy subFont subFonts)
           subFonts subFontMap.

(** [_onDestroy()] on the font object [font] *)
Definition _onDestroy (h : Heap) (font : nat) : option Heap :=
  this ← fonts h !! font;
  let subFonts :=
    match _subFontMap this with
    | Some subFontMap => destroy_all subFontMap (subFonts h)
    | None => subFonts h
    end in
  Some {| fonts := <[font:={| _name := _name this; _subFontMap := None |}]> (fonts h);
          subFonts := subFonts;
          _fontMap := delete (_name this) (_fontMap h) |}.

(** The heap when no font has been made. *)
Definition Heap_empty : Heap :=
  {| fonts := []; subFonts := []; _fontMap := ∅ |}.

(** What the heap satisfies as long as fonts are made by [createFromOS]:
    a name in the font map leads to a font of that name, and the
    sub-fonts in the maps of the fonts exist, one for each key of each
    font. *)
Definition well_formed (h : Heap) : Prop :=
  (∀ name font, _fontMap h !! name = Some font →
     ∃ this, fonts h !! font = Some this ∧ _name this = name) ∧
  (∀ font this subFontMap key subFont,
     fonts h !! font = Some this → _subFontMap this = Some subFontMap →
     subFontMap !! key = Some subFont → subFont < length (subFonts h)) ∧
  (∀ font1 this1 map1 key1 font2 this2 map2 key2 subFont,
     fonts h !! font1 = Some this1 → _subFontMap this1 = Some map1 →
     fonts h !! font2 = Some this2 → _subFontMap this2 = Some map2 →
     map1 !! key1 = Some subFont → map2 !! key2 = Some subFont →
     font1 = font2 ∧ key1 = key2).

End Fonts.

End Font.

(** * Part II: the proofs *)

(** ** RenderQueue: the sort orders the queue *)

Module SortProofs.
Import RenderQueue.

Section Arrays.
Context {T : Type}.
Implicit Types a b : list T.

Lemma aset_Some a i v : i < length a → aset a i v = Some (<[i:=v]> a).
Proof. intros. unfold aset. by case_decide. Qed.

Lemma div2_bounds (n : nat) : 2 * Nat.div2 n ≤ n ∧ n < 2 * Nat.div2 n + 2.
Proof.
  pose proof (Nat.div2_odd n) as H. destruct (Nat.odd n); simpl in H; lia.
Qed.

Lemma lookup_slice a lo hi k :
  slice a lo hi !! k = if decide (k < hi - lo) then a !! (lo + k) else None.
Proof. unfold slice. rewrite lookup_take. case_decide; [|done]. by rewrite lookup_drop. Qed.

Lemma range_perm_refl a lo hi : range_perm a a lo hi.
Proof. split; [done|]. by intros k _. Qed.

Lemma range_perm_trans a b c lo hi :
  range_perm a b lo hi → range_perm b c lo hi → range_perm a c lo hi.
Proof.
  intros [P1 O1] [P2 O2]. split; [by etrans|].
  intros k Hk. by rewrite O1, O2.
Qed.

Lemma range_perm_mono a b lo hi lo' hi' :
  range_perm a b lo hi → lo' ≤ lo → hi ≤ hi' → range_perm a b lo' hi'.
Proof. intros [P1 O1] ??. split; [done|]. intros k Hk. apply O1. lia. Qed.

Lemma range_perm_length a b lo hi : range_perm a b lo hi → length a = length b.
Proof. intros [P _]. by apply Permutation_length. Qed.

Lemma range_perm_slice a b lo hi :
  range_perm a b lo hi → lo ≤ hi → hi ≤ length a →
  slice a lo hi ≡ₚ slice b lo hi.
Proof.
  intros [HP HO] Hlh Hlen.
  assert (Hl : length a = length b) by by apply Permutation_length.
  assert (Ht : take lo a = take lo b).
  { apply list_eq. intros k. rewrite !lookup_take. case_decide; [|done]. apply HO. lia. }
  assert (Hd : drop hi a = drop hi b).
  { apply list_eq. intros k. rewrite !lookup_drop. apply HO. lia. }
  assert (Ha : ∀ c : list T, c = take lo c ++ slice c lo hi ++ drop hi c).
  { intros c. unfold slice.
    rewrite <-(take_drop lo c) at 1. f_equal.
    rewrite <-(take_drop (hi - lo) (drop lo c)) at 1. f_equal.
    rewrite drop_drop. f_equal. lia. }
  rewrite (Ha a), (Ha b), Ht, Hd in HP.
  apply (inj (take lo b ++.)) in HP.
  by apply (inj (.++ drop hi b)) in HP.
Qed.

Lemma all_range_slice (P : T → Prop) a lo hi :
  all_range P a lo hi ↔ Forall P (slice a lo hi).
Proof.
  rewrite Forall_lookup. split.
  - intros H k x. rewrite lookup_slice. case_decide; [|done].
    apply H; lia.
  - intros H k x ?? Hk. apply (H (k - lo)). rewrite lookup_slice.
    case_decide; [|lia]. by replace (lo + (k - lo)) with k by lia.
Qed.

Lemma all_range_perm (P : T → Prop) a b lo hi :
  range_perm a b lo hi → lo ≤ hi → hi ≤ length a →
  all_range P a lo hi → all_range P b lo hi.
Proof.
  intros HR ??. rewrite !all_range_slice.
  by rewrite (range_perm_slice a b lo hi).
Qed.

Lemma all_range_outside (P : T → Prop) a b lo hi lo' hi' :
  range_perm a b lo hi → hi' ≤ lo ∨ hi ≤ lo' →
  all_range P a lo' hi' → all_range P b lo' hi'.
Proof.
  intros [_ HO] Hd H k x ?? Hk. apply (H k); [done..|].
  rewrite HO; [done|lia].
Qed.
End Arrays.

Section InsertionSortCorrect.
Context {T : Type}.
Variable compareFunc : T → T → Z.
Hypothesis compare_flip :
  ∀ x y, (0 ≤ compareFunc x y)%Z → (compareFunc y x ≤ 0)%Z.
Hypothesis compare_trans :
  ∀ x y z, (compareFunc x y ≤ 0)%Z → (compareFunc y z ≤ 0)%Z →
           (compareFunc x z ≤ 0)%Z.
Implicit Types a b : list T.
Local Abbreviation sorted_range := (sorted_range compareFunc).

Lemma shift_exit a from i h e :
  from ≤ h → h ≤ i → i < length a →
  sorted_except compareFunc a from (S i) h →
  (∀ k x, h < k → k ≤ i → a !! k = Some x → (compareFunc x e > 0)%Z) →
  (h = from ∨ ∃ tmp, a !! (h - 1) = Some tmp ∧ (compareFunc tmp e ≤ 0)%Z) →
  sorted_range (<[h:=e]> a) from (S i).
Proof.
  intros Hfh Hhi Hlen Hsort Hgt Hpred k1 k2 x y H1 H12 H2. unfold cmp_le.
  rewrite !list_lookup_insert.
  repeat case_decide; intros Hx Hy; destruct_and?; simplify_eq.
  - lia.
  - apply compare_flip.
    assert (compareFunc y x > 0)%Z by (eapply (Hgt k2); eauto; lia). lia.
  - destruct Hpred as [->|(tmp & Ht & Hle)]; [lia|].
    destruct (decide (k1 = k2 - 1)) as [->|].
    + by simplify_eq.
    + eapply compare_trans; [|exact Hle].
      eapply (Hsort k1 (k2 - 1)); eauto; lia.
  - eapply (Hsort k1 k2); eauto; lia.
Qed.

Lemma _insertionSort_shift_spec from i e hole :
  ∀ a, from ≤ hole → hole ≤ i → i < length a →
    sorted_except compareFunc a from (S i) hole →
    (∀ k x, hole < k → k ≤ i → a !! k = Some x → (compareFunc x e > 0)%Z) →
    ∃ a', _insertionSort_shift compareFunc a from hole e = Some a' ∧
          a' ≡ₚ <[hole:=e]> a ∧
          same_outside a a' from (S i) ∧
          sorted_range a' from (S i).
Proof.
  induction hole as [|j IH]; intros a Hfh Hhi Hlen Hsort Hgt; simpl.
  - rewrite aset_Some by lia. eexists; split_and!; [done..| |].
    + intros k Hk. rewrite list_lookup_insert_ne; [done|lia].
    + apply shift_exit; auto. left; lia.
  - assert (Hstop : ∀ tmp, (from ≤ j → a !! j = Some tmp ∧ (compareFunc tmp e ≤ 0)%Z) →
      ∃ a', aset a (S j) e = Some a' ∧ a' ≡ₚ <[S j:=e]> a ∧
            same_outside a a' from (S i) ∧ sorted_range a' from (S i)).
    { intros tmp Htmp. rewrite aset_Some by lia. eexists; split_and!; [done..| |].
      - intros k Hk. rewrite list_lookup_insert_ne; [done|lia].
      - apply shift_exit; auto.
        destruct (decide (from ≤ j)) as [Hj|]; [|left; lia].
        right. exists tmp. simpl. rewrite Nat.sub_0_r. auto. }
    case_decide as Hfj.
    + destruct (lookup_lt_is_Some_2 a j) as [tmp Htmp]; [lia|].
      rewrite Htmp; simpl. case_decide as Hord.
      * rewrite aset_Some by lia; simpl.
        destruct (IH (<[S j:=tmp]> a)) as (a' & Hrun & Hperm & Hout & Hsorted).
        -- lia.
        -- lia.
        -- rewrite length_insert. lia.
        -- intros k1 k2 x y ?????.
           rewrite !list_lookup_insert. repeat case_decide; intros; simplify_eq.
           ++ lia.
           ++ eapply (Hsort j k2); eauto; lia.
           ++ eapply (Hsort k1 j); eauto; lia.
           ++ eapply (Hsort k1 k2); eauto; lia.
        -- intros k x ??. rewrite list_lookup_insert.
           case_decide; intros; simplify_eq; [done|].
           eapply (Hgt k); eauto; lia.
        -- exists a'. split_and!; [done| | |done].
           ++ rewrite Hperm.
              rewrite <-(list_insert_insert_eq a (S j) tmp e).
              apply Permutation_insert_swap.
              ** apply list_lookup_insert_eq. lia.
              ** rewrite list_lookup_insert_ne; [done|lia].
           ++ intros k Hk. rewrite <-Hout by done.
              rewrite list_lookup_insert_ne; [done|lia].
      * apply (Hstop tmp). intros _. split; [done|lia].
    + apply (Hstop e). intros; lia.
Qed.

Lemma _insertionSort_loop_spec from to n :
  ∀ i a, from < i → i + n = to → to ≤ length a →
    sorted_range a from i →
    ∃ a', for_range n i
            (λ i a, element ← a !! i;
                    _insertionSort_shift compareFunc a from i element) a = Some a' ∧
          range_perm a a' from to ∧ sorted_range a' from to.
Proof.
  induction n as [|n IH]; intros i a Hfi Hin Hlen Hsort; simpl.
  - exists a. replace to with i by lia. split_and!; [done| |done].
    apply range_perm_refl.
  - destruct (lookup_lt_is_Some_2 a i) as [e He]; [lia|].
    rewrite He; simpl.
    destruct (_insertionSort_shift_spec from i e i a) as (a1 & -> & Hperm & Hout & Hs);
      [lia|lia|lia| | |].
    { intros k1 k2 x y ?????. apply Hsort; lia. }
    { intros; lia. }
    simpl. rewrite list_insert_id in Hperm by done.
    destruct (IH (S i) a1) as (a2 & -> & Hrp & Hs2); [lia|lia| |done|].
    { apply Permutation_length in Hperm. lia. }
    exists a2. split_and!; [done| |done].
    eapply range_perm_trans; [|exact Hrp].
    split; [done|]. intros k Hk. apply Hout. lia.
Qed.

Lemma _insertionSort_spec a from to :
  to ≤ length a →
  ∃ a', _insertionSort compareFunc a from to = Some a' ∧
        range_perm a a' from to ∧ sorted_range a' from to.
Proof.
  intros Hlen. unfold _insertionSort.
  destruct (decide (from + 1 < to)) as [Hlt|Hge].
  - apply _insertionSort_loop_spec; [lia|lia|done|].
    intros k1 k2 ??????. lia.
  - replace (to - (from + 1)) with 0 by lia. simpl.
    exists a. split_and!; [done|apply range_perm_refl|].
    intros k1 k2 ??????. lia.
Qed.
End InsertionSortCorrect.

Section QuickSortCorrect.
Context {T : Type}.
Variable compareFunc : T → T → Z.
Hypothesis compare_flip :
  ∀ x y, (0 ≤ compareFunc x y)%Z → (compareFunc y x ≤ 0)%Z.
Hypothesis compare_trans :
  ∀ x y z, (compareFunc x y ≤ 0)%Z → (compareFunc y z ≤ 0)%Z →
           (compareFunc x z ≤ 0)%Z.
Implicit Types a b : list T.

Local Abbreviation le := (cmp_le compareFunc).
Local Abbreviation zones := (zones compareFunc).
Local Abbreviation sorted_range := (sorted_range compareFunc).

Lemma swap_range_perm a i j x y from to :
  a !! i = Some x → a !! j = Some y →
  from ≤ i → i < to → from ≤ j → j < to →
  range_perm a (<[j:=x]> (<[i:=y]> a)) from to.
Proof.
  intros Hi Hj ????. split.
  - symmetry. by apply Permutation_insert_swap.
  - intros k Hk. rewrite !list_lookup_insert_ne; [done|lia..].
Qed.

Lemma scan_down_spec a pivot i :
  ∀ hs, i < hs → hs ≤ length a →
    ∃ r, scan_down compareFunc a pivot i hs = Some r ∧
      match r with
      | BreakPartition =>
          ∀ k x, i < k → k < hs → a !! k = Some x → (compareFunc x pivot > 0)%Z
      | Found h o =>
          i < h ∧ h < hs ∧ (∃ x, a !! h = Some x ∧ o = compareFunc x pivot) ∧
          ¬ (o > 0)%Z ∧
          ∀ k x, h < k → k < hs → a !! k = Some x → (compareFunc x pivot > 0)%Z
      end.
Proof.
  induction hs as [|hs IH]; intros Hi Hlen; [lia|]. simpl.
  case_decide as Heq.
  - subst. eexists; split; [done|]. simpl. intros; lia.
  - destruct (lookup_lt_is_Some_2 a hs) as [top Htop]; [lia|].
    rewrite Htop; simpl. case_decide as Hord.
    + destruct IH as (r & -> & Hr); [lia|lia|].
      exists r. split; [done|]. destruct r as [|h o].
      * intros k x ?? Hk. destruct (decide (k = hs)) as [->|]; [by simplify_eq|].
        apply (Hr k); [lia..|done].
      * destruct Hr as (? & ? & ? & ? & Hr). split_and!; [lia..|done|done|].
        intros k x ?? Hk. destruct (decide (k = hs)) as [->|]; [by simplify_eq|].
        apply (Hr k); [lia..|done].
    + eexists; split; [done|]. simpl. split_and!; [lia|lia|eauto|done|].
      intros; lia.
Qed.

Ltac do_asets :=
  repeat (rewrite aset_Some by (rewrite ?length_insert; lia); simpl).

Ltac step_range H :=
  let k := fresh "k" in let x := fresh "x" in
  intros k x ??; rewrite ?list_lookup_insert, ?length_insert;
  repeat case_decide; intros; destruct_and?; simplify_eq;
  try lia; try (eapply (H k); eauto; lia).

Lemma partition_spec pivot from to n :
  ∀ a low_end high_start i,
    from < low_end → low_end < i → i ≤ high_start → high_start < to →
    to ≤ length a → high_start - i ≤ n →
    zones a pivot from low_end i high_start to →
    ∃ a' low_end' high_start',
      partition compareFunc n a pivot low_end high_start i
        = Some (a', low_end', high_start') ∧
      range_perm a a' from to ∧
      from < low_end' ∧ low_end' < high_start' ∧ high_start' < to ∧
      zones a' pivot from low_end' high_start' high_start' to.
Proof.
  induction n as [|n IH]; intros a low_end high_start i ?????? (HL & HM & HR).
  { simpl. case_decide; [lia|]. replace i with high_start in * by lia.
    eexists _, _, _; split_and!; [done|apply range_perm_refl|lia..|done]. }
  simpl. case_decide as Hlt.
  2:{ replace i with high_start in * by lia.
      eexists _, _, _; split_and!; [done|apply range_perm_refl|lia..|done]. }
  destruct (lookup_lt_is_Some_2 a i) as [e He]; [lia|].
  destruct (lookup_lt_is_Some_2 a low_end) as [x Hx]; [lia|].
  rewrite He; simpl. case_decide as Hneg; [|case_decide as Hpos].
  - (* order < 0 *)
    rewrite Hx; simpl. do_asets.
    edestruct (IH (<[low_end:=e]> (<[i:=x]> a)) (S low_end) high_start (S i))
      as (a' & le' & hs' & -> & Hrp & ? & ? & ? & Hz);
      [lia|lia|lia|lia|rewrite !length_insert; lia|lia| |].
    { split_and!.
      - step_range HL. unfold cmp_le; lia.
      - step_range HM. eapply (HM low_end); eauto; lia.
      - step_range HR. }
    eexists _, _, _; split_and!; [done| |lia..|done].
    eapply range_perm_trans; [|exact Hrp].
    apply swap_range_perm; [done|done|lia..].
  - (* order > 0 *)
    destruct (scan_down_spec a pivot i high_start) as (r & -> & Hr); [lia|lia|].
    simpl. destruct r as [|h o].
    + eexists _, _, _; split_and!; [done|apply range_perm_refl|lia..|].
      split_and!; [done|done|].
      intros k y ?? Hk. destruct (decide (k = i)) as [->|].
      { simplify_eq. apply compare_flip. lia. }
      destruct (decide (k < high_start)).
      * apply compare_flip. assert (compareFunc y pivot > 0)%Z; [|lia].
        apply (Hr k); [lia..|done].
      * apply (HR k); [lia..|done].
    + destruct Hr as (? & ? & (top & Htop & ->) & Hnpos & Hgt).
      rewrite Htop; simpl. do_asets.
      assert (HR' : ∀ b, (∀ k, h < k → b !! k = a !! k) → b !! h = Some e →
                         all_range (λ x, le pivot x) b h to).
      { intros b Hb Hbh k y ?? Hk. destruct (decide (k = h)) as [->|].
        { simplify_eq. apply compare_flip. lia. }
        rewrite Hb in Hk by lia.
        destruct (decide (k < high_start)).
        * apply compare_flip. assert (compareFunc y pivot > 0)%Z; [|lia].
          apply (Hgt k); [lia..|done].
        * apply (HR k); [lia..|done]. }
      assert (Hrp1 : range_perm a (<[h:=e]> (<[i:=top]> a)) from to).
      { apply swap_range_perm; [done|done|lia..]. }
      case_decide as Hneg2.
      * assert (E1 : <[h:=e]> (<[i:=top]> a) !! i = Some top).
        { rewrite list_lookup_insert_ne by lia. apply list_lookup_insert_eq. lia. }
        assert (E2 : <[h:=e]> (<[i:=top]> a) !! low_end = Some x).
        { by rewrite !list_lookup_insert_ne by lia. }
        rewrite E1; simpl. rewrite E2; simpl. do_asets.
        edestruct (IH (<[low_end:=top]> (<[i:=x]> (<[h:=e]> (<[i:=top]> a))))
                     (S low_end) h (S i))
          as (a' & le' & hs' & -> & Hrp & ? & ? & ? & Hz);
          [lia|lia|lia|lia|rewrite !length_insert; lia|lia| |].
        { split_and!.
          - step_range HL. unfold cmp_le; lia.
          - step_range HM. eapply (HM low_end); eauto; lia.
          - apply HR'.
            + intros k ?. rewrite !list_lookup_insert_ne by lia. done.
            + rewrite !list_lookup_insert_ne by lia.
              apply list_lookup_insert_eq. rewrite length_insert. lia. }
        eexists _, _, _; split_and!; [done| |lia..|done].
        eapply range_perm_trans; [exact Hrp1|].
        eapply range_perm_trans; [|exact Hrp].
        apply swap_range_perm; [done|done|lia..].
      * edestruct (IH (<[h:=e]> (<[i:=top]> a)) low_end h (S i))
          as (a' & le' & hs' & -> & Hrp & ? & ? & ? & Hz);
          [lia|lia|lia|lia|rewrite !length_insert; lia|lia| |].
        { split_and!.
          - step_range HL.
          - step_range HM. split; [unfold cmp_le; lia|apply compare_flip; lia].
          - apply HR'.
            + intros k ?. rewrite !list_lookup_insert_ne by lia. done.
            + apply list_lookup_insert_eq. rewrite length_insert. lia. }
        eexists _, _, _; split_and!; [done| |lia..|done].
        eapply range_perm_trans; [exact Hrp1|exact Hrp].
  - (* order = 0 *)
    edestruct (IH a low_end high_start (S i))
      as (a' & le' & hs' & -> & Hrp & ? & ? & ? & Hz);
      [lia|lia|lia|lia|lia|lia| |].
    { split_and!; [done| |done].
      intros k y ?? Hk. destruct (decide (k = i)) as [->|].
      - simplify_eq. split; [unfold cmp_le; lia|apply compare_flip; lia].
      - apply (HM k); [lia..|done]. }
    eexists _, _, _; split_and!; [done|done|lia..|done].
Qed.

Lemma median3_spec a p q r x0 x1 x2 u v w :
  p ≠ q → p ≠ r → q ≠ r →
  a !! p = Some x0 → a !! q = Some x1 → a !! r = Some x2 →
  median3 compareFunc x0 x1 x2 = (u, v, w) →
  le u v ∧ le v w ∧
  ∃ su sv sw,
    a !! su = Some u ∧ a !! sv = Some v ∧ a !! sw = Some w ∧
    su ≠ sv ∧ su ≠ sw ∧ sv ≠ sw ∧
    (su = p ∨ su = q ∨ su = r) ∧ (sv = p ∨ sv = q ∨ sv = r) ∧
    (sw = p ∨ sw = q ∨ sw = r).
Proof.
  intros ??? Hp Hq Hr. unfold median3, cmp_le.
  pose proof (compare_flip x0 x1). pose proof (compare_flip x0 x2).
  pose proof (compare_flip x1 x2).
  repeat case_decide; intros; simplify_eq; (split; [lia|split; [lia|]]).
  - exists r, q, p. naive_solver.
  - exists q, r, p. naive_solver.
  - exists q, p, r. naive_solver.
  - exists r, p, q. naive_solver.
  - exists p, r, q. naive_solver.
  - exists p, q, r. naive_solver.
Qed.

Lemma perm_by_cancel a b (f g : nat → nat) :
  length b = length a → (∀ k, g (f k) = k) → (∀ k, b !! k = a !! f k) →
  b ≡ₚ a.
Proof.
  intros Hlen Hc Hl. apply Permutation_inj. split; [done|].
  exists f. split; [|done].
  intros i j Hij. rewrite <-(Hc i), <-(Hc j). by rewrite Hij.
Qed.

Lemma median_writes a p q r s su sv sw u v w y :
  p ≠ q → p ≠ r → p ≠ s → q ≠ r → q ≠ s → r ≠ s →
  p < length a → q < length a → r < length a → s < length a →
  su ≠ sv → su ≠ sw → sv ≠ sw →
  (su = p ∨ su = q ∨ su = r) → (sv = p ∨ sv = q ∨ sv = r) →
  (sw = p ∨ sw = q ∨ sw = r) →
  a !! su = Some u → a !! sv = Some v → a !! sw = Some w → a !! s = Some y →
  <[s:=v]> (<[r:=y]> (<[q:=w]> (<[p:=u]> a))) ≡ₚ a.
Proof.
  intros ?????? ???? ??? Hsu Hsv Hsw Hu Hv Hw Hy.
  apply (perm_by_cancel _ _
    (λ k, if decide (k = p) then su else if decide (k = q) then sw
          else if decide (k = s) then sv else if decide (k = r) then s
          else k)
    (λ k, if decide (k = su) then p else if decide (k = sw) then q
          else if decide (k = sv) then s else if decide (k = s) then r
          else k)).
  - by rewrite !length_insert.
  - intros k.
    destruct Hsu as [Hsu | [Hsu | Hsu]], Hsv as [Hsv | [Hsv | Hsv]],
      Hsw as [Hsw | [Hsw | Hsw]]; subst; try done;
      repeat case_decide; congruence.
  - intros k; rewrite !list_lookup_insert, !length_insert.
    repeat case_decide; destruct_and?; simplify_eq; try done; lia.
Qed.

Lemma sorted_range_outside a b lo hi from to :
  same_outside a b lo hi → hi ≤ from ∨ to ≤ lo →
  sorted_range a from to → sorted_range b from to.
Proof.
  intros HO Hd Hs i j x y ??? Hi Hj.
  rewrite <-HO in Hi by lia. rewrite <-HO in Hj by lia.
  by apply (Hs i j).
Qed.

Lemma sorted_combine a pivot from low_end high_start to :
  zones a pivot from low_end high_start high_start to →
  sorted_range a from low_end →
  sorted_range a high_start to →
  sorted_range a from to.
Proof.
  intros (HL & HM & HR) HsL HsR i j x y ??? Hi Hj.
  destruct (decide (j < low_end)); [by apply (HsL i j)|].
  destruct (decide (high_start ≤ i)); [by apply (HsR i j)|].
  assert (le x pivot).
  { destruct (decide (i < low_end)).
    - apply (HL i); [lia..|done].
    - apply (HM i); [lia..|done]. }
  assert (le pivot y).
  { destruct (decide (j < high_start)).
    - apply (HM j); [lia..|done].
    - apply (HR j); [lia..|done]. }
  by eapply compare_trans.
Qed.

Lemma zones_perm_low a b pivot from low_end high_start to :
  range_perm a b from low_end →
  from ≤ low_end → low_end ≤ high_start → high_start ≤ to → to ≤ length a →
  zones a pivot from low_end high_start high_start to →
  zones b pivot from low_end high_start high_start to.
Proof.
  intros Hrp ???? (HL & HM & HR). split_and!.
  - eapply all_range_perm; eauto; lia.
  - eapply all_range_outside; eauto.
  - eapply all_range_outside; eauto.
Qed.

Lemma zones_perm_high a b pivot from low_end high_start to :
  range_perm a b high_start to →
  from ≤ low_end → low_end ≤ high_start → high_start ≤ to → to ≤ length a →
  zones a pivot from low_end high_start high_start to →
  zones b pivot from low_end high_start high_start to.
Proof.
  intros Hrp ???? (HL & HM & HR). split_and!.
  - eapply all_range_outside; eauto.
  - eapply all_range_outside; eauto.
  - eapply all_range_perm; eauto; lia.
Qed.

Lemma _quickSort_spec fuel :
  ∀ a from to, from ≤ to → to ≤ length a → to - from < fuel →
    ∃ a', _quickSort compareFunc fuel a from to = Some a' ∧
          range_perm a a' from to ∧ sorted_range a' from to.
Proof.
  induction fuel as [|fuel IH]; intros a from to Hft Hlen Hfuel; [lia|].
  simpl. case_decide as Hsmall.
  { by apply _insertionSort_spec. }
  pose proof (div2_bounds (from + to)) as Hthird.
  set (third := Nat.div2 (from + to)) in *.
  destruct (lookup_lt_is_Some_2 a from) as [x0 Hx0]; [lia|].
  destruct (lookup_lt_is_Some_2 a (to - 1)) as [x1 Hx1]; [lia|].
  destruct (lookup_lt_is_Some_2 a third) as [x2 Hx2]; [lia|].
  destruct (lookup_lt_is_Some_2 a (from + 1)) as [y Hy]; [lia|].
  rewrite Hx0, Hx1, Hx2; simpl.
  destruct (median3 compareFunc x0 x1 x2) as [[u v] w] eqn:Hmed.
  destruct (median3_spec a from (to - 1) third x0 x1 x2 u v w)
    as (Huv & Hvw & su & sv & sw & Hsu & Hsv & Hsw & ? & ? & ? & ? & ? & ?);
    [lia|lia|lia|done..|].
  do_asets.
  rewrite !list_lookup_insert_ne by lia. rewrite Hy; simpl. do_asets.
  set (a1 := <[from + 1:=v]> (<[third:=y]> (<[to - 1:=w]> (<[from:=u]> a)))).
  assert (Hrp1 : range_perm a a1 from to).
  { split.
    - symmetry. eapply (median_writes a from (to - 1) third (from + 1) su sv sw);
        eauto; lia.
    - intros k Hk. unfold a1. rewrite !list_lookup_insert_ne; [done|lia..]. }
  assert (Hlen1 : length a1 = length a) by (unfold a1; by rewrite !length_insert).
  assert (Hvv : le v v).
  { unfold cmp_le. destruct (decide (0 ≤ compareFunc v v)%Z); [|lia].
    by apply compare_flip. }
  destruct (partition_spec v from to
              (to - 1 - (from + 1 + 1)) a1 (from + 1) (to - 1) (from + 1 + 1))
    as (a2 & le' & hs' & -> & Hrp2 & ? & ? & ? & Hz); [lia..| |].
  { unfold a1. split_and!.
    - intros k x ??. replace k with from by lia.
      rewrite !list_lookup_insert_ne by lia.
      rewrite list_lookup_insert_eq by lia. intros; by simplify_eq.
    - intros k x ??. replace k with (from + 1) by lia.
      rewrite list_lookup_insert_eq by (rewrite !length_insert; lia).
      intros; by simplify_eq.
    - intros k x ??. replace k with (to - 1) by lia.
      rewrite !list_lookup_insert_ne by lia.
      rewrite list_lookup_insert_eq by (rewrite !length_insert; lia).
      intros; by simplify_eq. }
  simpl.
  assert (Hlen2 : length a2 = length a).
  { rewrite <-Hlen1. symmetry. by eapply range_perm_length. }
  case_decide.
  - destruct (IH a2 hs' to) as (a3 & -> & Hrp3 & Hs3); [lia..|]. simpl.
    assert (Hlen3 : length a3 = length a).
    { rewrite <-Hlen2. symmetry. by eapply range_perm_length. }
    destruct (IH a3 from le') as (a4 & -> & Hrp4 & Hs4); [lia..|].
    exists a4. split_and!; [done| |].
    + eapply range_perm_trans; [exact Hrp1|].
      eapply range_perm_trans; [exact Hrp2|].
      eapply range_perm_trans; eapply range_perm_mono; eauto; lia.
    + eapply (sorted_combine a4 v from le' hs' to); [|done|].
      * eapply zones_perm_low; [exact Hrp4|lia..|].
        eapply zones_perm_high; [exact Hrp3|lia..|done].
      * eapply sorted_range_outside; [apply Hrp4| |done]. lia.
  - destruct (IH a2 from le') as (a3 & -> & Hrp3 & Hs3); [lia..|]. simpl.
    assert (Hlen3 : length a3 = length a).
    { rewrite <-Hlen2. symmetry. by eapply range_perm_length. }
    destruct (IH a3 hs' to) as (a4 & -> & Hrp4 & Hs4); [lia..|].
    exists a4. split_and!; [done| |].
    + eapply range_perm_trans; [exact Hrp1|].
      eapply range_perm_trans; [exact Hrp2|].
      eapply range_perm_trans; eapply range_perm_mono; eauto; lia.
    + eapply (sorted_combine a4 v from le' hs' to); [| |done].
      * eapply zones_perm_high; [exact Hrp4|lia..|].
        eapply zones_perm_low; [exact Hrp3|lia..|done].
      * eapply sorted_range_outside; [apply Hrp4| |done]. lia.
Qed.

Lemma sort_spec items :
  ∃ out, sort compareFunc items = Some out ∧ items ≡ₚ out ∧
         sorted_range out 0 (length out).
Proof.
  destruct (_quickSort_spec (S (length items)) items 0 (length items))
    as (out & Hrun & [Hperm _] & Hsorted); [lia..|].
  exists out. split_and!; [done..|].
  by rewrite <-(Permutation_length Hperm).
Qed.
End QuickSortCorrect.

Section PlainInsertionSort.
Context {T : Type}.
Variable compareFunc : T → T → Z.
Implicit Types a pre front back rest : list T.

Lemma aset_middle pre z rest e :
  aset (pre ++ z :: rest) (length pre) e = Some (pre ++ e :: rest).
Proof.
  rewrite aset_Some by (rewrite length_app; simpl; lia).
  f_equal. rewrite insert_app_r_alt by lia. by rewrite Nat.sub_diag.
Qed.

Lemma _insertionSort_shift_stop a from e :
  _insertionSort_shift compareFunc a from from e = aset a from e.
Proof. destruct from as [|j]; simpl; [done|]. case_decide; [lia|done]. Qed.

Lemma _insertionSort_shift_plain pre front :
  ∀ z back e,
    _insertionSort_shift compareFunc (pre ++ front ++ z :: back)
      (length pre) (length pre + length front) e
    = Some (pre ++ reverse (insert_back compareFunc e (reverse front)) ++ back).
Proof.
  induction front as [|tmp front IH] using rev_ind; intros z back e.
  - simpl. rewrite Nat.add_0_r, _insertionSort_shift_stop. apply aset_middle.
  - rewrite length_app; simpl.
    replace (length pre + (length front + 1)) with (S (length pre + length front)) by lia.
    simpl. case_decide; [|lia].
    assert (Hj : (pre ++ (front ++ [tmp]) ++ z :: back) !! (length pre + length front)
                 = Some tmp).
    { rewrite <-(assoc_L (++)), (assoc_L (++) pre). simpl.
      apply list_lookup_middle. by rewrite length_app. }
    rewrite Hj; simpl. rewrite reverse_snoc; simpl.
    assert (Hw : ∀ v, aset (pre ++ (front ++ [tmp]) ++ z :: back)
                        (S (length pre + length front)) v
                      = Some (pre ++ front ++ tmp :: v :: back)).
    { intros v. rewrite <-(assoc_L (++) front). simpl.
      rewrite (assoc_L (++) pre front), (cons_middle tmp), (assoc_L (++) _ [tmp]).
      replace (S (length pre + length front))
        with (length ((pre ++ front) ++ [tmp])) by (rewrite !length_app; simpl; lia).
      rewrite aset_middle. by rewrite <-!(assoc_L (++)). }
    case_decide.
    + rewrite Hw; simpl. rewrite IH. rewrite reverse_cons.
      by rewrite <-!(assoc_L (++)).
    + rewrite Hw. rewrite !reverse_cons, reverse_involutive.
      by rewrite <-!(assoc_L (++)).
Qed.

Lemma _insertionSort_loop_plain pre rest todo :
  ∀ front,
    for_range (length todo) (length pre + length front)
      (λ i a, element ← a !! i;
              _insertionSort_shift compareFunc a (length pre) i element)
      (pre ++ front ++ todo ++ rest)
    = Some (pre ++ reverse (foldl (λ rev_front element,
                                     insert_back compareFunc element rev_front)
                                  (reverse front) todo) ++ rest).
Proof.
  induction todo as [|e todo IH]; intros front; simpl.
  - by rewrite reverse_involutive.
  - assert (He : (pre ++ front ++ e :: todo ++ rest) !! (length pre + length front)
                 = Some e).
    { rewrite (assoc_L (++) pre). apply list_lookup_middle. by rewrite length_app. }
    rewrite He; simpl. rewrite _insertionSort_shift_plain; simpl.
    set (front' := reverse (insert_back compareFunc e (reverse front))).
    assert (Hlen : length front' = S (length front)).
    { unfold front'. rewrite length_reverse.
      rewrite <-(length_reverse front). generalize (reverse front).
      intros l. induction l as [|x l IHl]; simpl; [done|].
      case_decide; simpl; lia. }
    replace (S (length pre + length front)) with (length pre + length front') by lia.
    rewrite IH. unfold front'. by rewrite reverse_involutive.
Qed.

Lemma _insertionSort_plain pre mid rest :
  _insertionSort compareFunc (pre ++ mid ++ rest)
    (length pre) (length pre + length mid)
  = Some (pre ++ plain_insertion_sort compareFunc mid ++ rest).
Proof.
  unfold _insertionSort, plain_insertion_sort.
  destruct mid as [|x todo]; simpl.
  - by replace (length pre + 0 - (length pre + 1)) with 0 by lia.
  - replace (length pre + S (length todo) - (length pre + 1))
      with (length todo) by lia.
    pose proof (_insertionSort_loop_plain pre rest todo [x]) as H.
    simpl in H. rewrite H. done.
Qed.

Lemma sort_small_plain (items : list T) :
  length items ≤ 10 →
  sort compareFunc items = Some (plain_insertion_sort compareFunc items).
Proof.
  intros Hlen. unfold sort. simpl. case_decide; [|lia].
  pose proof (_insertionSort_plain [] items []) as Hplain. simpl in Hplain.
  by rewrite !app_nil_r in Hplain.
Qed.
End PlainInsertionSort.

Section SortedInput.
Context {T K : Type}.
Variable compareFunc : T → T → Z.
Variable key : T → K.
Variable compareKeys : K → K → Z.
Hypothesis compare_key : ∀ x y, compareFunc x y = compareKeys (key x) (key y).
Hypothesis keys_flip :
  ∀ k1 k2, (0 ≤ compareKeys k1 k2)%Z → (compareKeys k2 k1 ≤ 0)%Z.
Hypothesis keys_trans :
  ∀ k1 k2 k3, (compareKeys k1 k2 ≤ 0)%Z → (compareKeys k2 k3 ≤ 0)%Z →
              (compareKeys k1 k3 ≤ 0)%Z.
Hypothesis keys_antisym :
  ∀ k1 k2, (compareKeys k1 k2 ≤ 0)%Z → (compareKeys k2 k1 ≤ 0)%Z → k1 = k2.
Implicit Types a items out : list T.

Lemma compare_flip_of_keys x y :
  (0 ≤ compareFunc x y)%Z → (compareFunc y x ≤ 0)%Z.
Proof. rewrite !compare_key. apply keys_flip. Qed.

Lemma compare_trans_of_keys x y z :
  (compareFunc x y ≤ 0)%Z → (compareFunc y z ≤ 0)%Z → (compareFunc x z ≤ 0)%Z.
Proof. rewrite !compare_key. apply keys_trans. Qed.

Lemma sorted_range_StronglySorted a :
  sorted_range compareFunc a 0 (length a) →
  StronglySorted (cmp_le compareFunc) a.
Proof.
  induction a as [|x a IH]; intros Hs; constructor.
  - apply IH. intros i j y z ??? Hi Hj.
    apply (Hs (S i) (S j)); simpl in *; [lia..|done|done].
  - apply Forall_lookup. intros i y Hi.
    apply (Hs 0 (S i)); simpl; [lia..| |done|done].
    apply lookup_lt_Some in Hi. lia.
Qed.

Lemma sorted_same_keys items out :
  sorted_range compareFunc items 0 (length items) →
  sorted_range compareFunc out 0 (length out) →
  items ≡ₚ out → key <$> out = key <$> items.
Proof.
  intros Hs1 Hs2 Hperm.
  apply (StronglySorted_unique_strong (λ k1 k2, (compareKeys k1 k2 ≤ 0)%Z)).
  - intros ?? _ _. apply keys_antisym.
  - eapply StronglySorted_fmap; [|by apply sorted_range_StronglySorted].
    intros x y. unfold cmp_le. by rewrite compare_key.
  - eapply StronglySorted_fmap; [|by apply sorted_range_StronglySorted].
    intros x y. unfold cmp_le. by rewrite compare_key.
  - by rewrite Hperm.
Qed.

Lemma same_keys_NoDup items out :
  key <$> out = key <$> items → items ≡ₚ out → NoDup (key <$> items) →
  out = items.
Proof.
  intros Hkeys Hperm Hnd. apply list_eq. intros i.
  destruct (out !! i) as [o|] eqn:Ho.
  - assert (Hin : o ∈ items) by (rewrite Hperm; by eapply list_elem_of_lookup_2).
    apply list_elem_of_lookup in Hin as [j Hj].
    assert (i = j) as ->; [|done].
    apply (NoDup_lookup _ _ _ (key o) Hnd).
    + rewrite <-Hkeys, list_lookup_fmap, Ho. done.
    + rewrite list_lookup_fmap, Hj. done.
  - symmetry. apply lookup_ge_None. apply lookup_ge_None in Ho.
    by rewrite (Permutation_length Hperm).
Qed.
End SortedInput.

Section SortedInputSmall.
Context {T : Type}.
Variable compareFunc : T → T → Z.
Implicit Types a : list T.

Lemma _insertionSort_loop_sorted from n :
  ∀ i a, from < i → i + n ≤ length a →
    sorted_range compareFunc a from (i + n) →
    for_range n i
      (λ i a, element ← a !! i;
              _insertionSort_shift compareFunc a from i element) a = Some a.
Proof.
  induction n as [|n IH]; intros i a Hfi Hlen Hs; simpl; [done|].
  destruct (lookup_lt_is_Some_2 a i) as [e He]; [lia|].
  rewrite He; simpl. destruct i as [|j]; [lia|]. simpl.
  case_decide; [|lia].
  destruct (lookup_lt_is_Some_2 a j) as [tmp Htmp]; [lia|].
  rewrite Htmp; simpl.
  assert (cmp_le compareFunc tmp e) as Hle.
  { apply (Hs j (S j)); [lia..|done|done]. }
  unfold cmp_le in Hle. case_decide; [lia|].
  rewrite aset_Some by lia. rewrite list_insert_id by done. simpl.
  apply IH; [lia..|]. by replace (S (S j) + n) with (S j + S n) by lia.
Qed.

Lemma _insertionSort_sorted a from to :
  to ≤ length a → sorted_range compareFunc a from to →
  _insertionSort compareFunc a from to = Some a.
Proof.
  intros Hlen Hs. unfold _insertionSort.
  destruct (decide (from + 1 < to)).
  - apply _insertionSort_loop_sorted; [lia..|].
    by replace (from + 1 + (to - (from + 1))) with to by lia.
  - by replace (to - (from + 1)) with 0 by lia.
Qed.

Lemma sort_small_sorted (items : list T) :
  length items ≤ 10 → sorted_range compareFunc items 0 (length items) →
  sort compareFunc items = Some items.
Proof.
  intros Hlen Hs. unfold sort. simpl. case_decide; [|lia].
  by apply _insertionSort_sorted.
Qed.
End SortedInputSmall.

(** The two comparators of the queue. *)
Section Comparators.
Lemma compareNearToFar_keys a b :
  _compareFromNearToFar a b = compareKeysNearToFar (sortKey a) (sortKey b).
Proof. done. Qed.

Lemma compareFarToNear_keys a b :
  _compareFromFarToNear a b = compareKeysFarToNear (sortKey a) (sortKey b).
Proof. done. Qed.

Lemma keysNearToFar_flip k1 k2 :
  (0 ≤ compareKeysNearToFar k1 k2)%Z → (compareKeysNearToFar k2 k1 ≤ 0)%Z.
Proof. unfold compareKeysNearToFar, or_else. repeat case_decide; lia. Qed.

Lemma keysNearToFar_trans k1 k2 k3 :
  (compareKeysNearToFar k1 k2 ≤ 0)%Z → (compareKeysNearToFar k2 k3 ≤ 0)%Z →
  (compareKeysNearToFar k1 k3 ≤ 0)%Z.
Proof. unfold compareKeysNearToFar, or_else. repeat case_decide; lia. Qed.

Lemma keysNearToFar_antisym k1 k2 :
  (compareKeysNearToFar k1 k2 ≤ 0)%Z → (compareKeysNearToFar k2 k1 ≤ 0)%Z →
  k1 = k2.
Proof.
  destruct k1, k2. unfold compareKeysNearToFar, or_else; simpl.
  repeat case_decide; intros; f_equal; lia.
Qed.

Lemma keysNearToFar_lex k1 k2 :
  (compareKeysNearToFar k1 k2 ≤ 0)%Z ↔ lex_le k1 k2.
Proof. unfold compareKeysNearToFar, or_else, lex_le. case_decide; lia. Qed.

Lemma keysFarToNear_flip k1 k2 :
  (0 ≤ compareKeysFarToNear k1 k2)%Z → (compareKeysFarToNear k2 k1 ≤ 0)%Z.
Proof. unfold compareKeysFarToNear, or_else. repeat case_decide; lia. Qed.

Lemma keysFarToNear_trans k1 k2 k3 :
  (compareKeysFarToNear k1 k2 ≤ 0)%Z → (compareKeysFarToNear k2 k3 ≤ 0)%Z →
  (compareKeysFarToNear k1 k3 ≤ 0)%Z.
Proof. unfold compareKeysFarToNear, or_else. repeat case_decide; lia. Qed.

Lemma keysFarToNear_antisym k1 k2 :
  (compareKeysFarToNear k1 k2 ≤ 0)%Z → (compareKeysFarToNear k2 k1 ≤ 0)%Z →
  k1 = k2.
Proof.
  destruct k1, k2. unfold compareKeysFarToNear, or_else; simpl.
  repeat case_decide; intros; f_equal; lia.
Qed.

Lemma keysFarToNear_far k1 k2 :
  (compareKeysFarToNear k1 k2 ≤ 0)%Z ↔ far_le k1 k2.
Proof. unfold compareKeysFarToNear, or_else, far_le. case_decide; lia. Qed.
End Comparators.

(** C1.  For every array of render elements, [sort] with the near-to-far
    comparator returns a rearrangement of the array that is non-decreasing
    in the key (priority, distance), ordered lexicographically; with the
    far-to-near comparator, a rearrangement that is non-decreasing in
    priority and, for equal priority, non-increasing in distance.  Elements
    with the keys (0,5), (0,1), (1,0) come out near to far as (0,1), (0,5),
    (1,0). *)
Theorem sort_orders_the_queue :
  (∀ items : list RenderElement,
     ∃ out, sort _compareFromNearToFar items = Some out ∧ items ≡ₚ out ∧
       ∀ i j a b, i < j → out !! i = Some a → out !! j = Some b →
                  lex_le (sortKey a) (sortKey b)) ∧
  (∀ items : list RenderElement,
     ∃ out, sort _compareFromFarToNear items = Some out ∧ items ≡ₚ out ∧
       ∀ i j a b, i < j → out !! i = Some a → out !! j = Some b →
                  far_le (sortKey a) (sortKey b)) ∧
  (∀ l1 l2 l3 m1 m2 m3 s1 s2 s3,
     let e1 := {| component := {| priority := 0; _distanceForSort := 5; layer := l1 |};
                  material := m1; subMesh := s1 |} in
     let e2 := {| component := {| priority := 0; _distanceForSort := 1; layer := l2 |};
                  material := m2; subMesh := s2 |} in
     let e3 := {| component := {| priority := 1; _distanceForSort := 0; layer := l3 |};
                  material := m3; subMesh := s3 |} in
     sort _compareFromNearToFar [e1; e2; e3] = Some [e2; e1; e3]).
Proof.
  split_and!.
  - intros items.
    destruct (sort_spec _compareFromNearToFar) with (items := items)
      as (out & Hrun & Hperm & Hs).
    { intros x y. rewrite !compareNearToFar_keys. apply keysNearToFar_flip. }
    { intros x y z. rewrite !compareNearToFar_keys. apply keysNearToFar_trans. }
    exists out. split_and!; [done..|].
    intros i j a b Hij Hi Hj. apply keysNearToFar_lex.
    rewrite <-compareNearToFar_keys. apply (Hs i j); [lia|done| |done|done].
    by apply lookup_lt_Some in Hj.
  - intros items.
    destruct (sort_spec _compareFromFarToNear) with (items := items)
      as (out & Hrun & Hperm & Hs).
    { intros x y. rewrite !compareFarToNear_keys. apply keysFarToNear_flip. }
    { intros x y z. rewrite !compareFarToNear_keys. apply keysFarToNear_trans. }
    exists out. split_and!; [done..|].
    intros i j a b Hij Hi Hj. apply keysFarToNear_far.
    rewrite <-compareFarToNear_keys. apply (Hs i j); [lia|done| |done|done].
    by apply lookup_lt_Some in Hj.
  - intros. reflexivity.
Qed.

(** C4.  On an array of at most ten elements, for every comparator, [sort]
    is the call of [_insertionSort] on the whole array, and its result is,
    element for element, that of the plain insertion sort. *)
Theorem sort_small_is_insertion_sort {T : Type}
    (compareFunc : T → T → Z) (items : list T) :
  length items ≤ 10 →
  sort compareFunc items = _insertionSort compareFunc items 0 (length items) ∧
  sort compareFunc items = Some (plain_insertion_sort compareFunc items).
Proof.
  intros Hlen. split.
  - unfold sort. simpl. by case_decide; [|lia].
  - by apply sort_small_plain.
Qed.

Lemma sort_small_is_insertion_sort_witness :
  length [3; 1; 2; 1]%Z ≤ 10 ∧
  sort Z.sub [3; 1; 2; 1]%Z = _insertionSort Z.sub [3; 1; 2; 1]%Z 0 4 ∧
  sort Z.sub [3; 1; 2; 1]%Z = Some [1; 1; 2; 3]%Z.
Proof.
  split; [simpl; lia|].
  apply (sort_small_is_insertion_sort Z.sub [3; 1; 2; 1]%Z). simpl; lia.
Defined.

(** C5 as stated fails: eleven elements with equal keys are sorted, and
    [sort] moves the sixth to the front and the first to the sixth place. *)
Lemma sort_moves_equal_elements :
  sorted_range _compareFromNearToFar eleven_equal 0 (length eleven_equal) ∧
  sort _compareFromNearToFar eleven_equal
    = Some ((λ s, elem 0 0 0 s) <$> [5; 0; 2; 3; 4; 1; 6; 7; 8; 9; 10]) ∧
  sort _compareFromNearToFar eleven_equal ≠ Some eleven_equal.
Proof.
  split_and!.
  - assert (Hall : Forall (λ e, sortKey e = (0, 0)%Z) eleven_equal)
      by (repeat constructor).
    rewrite Forall_lookup in Hall.
    intros i j x y _ _ _ Hx Hy. unfold cmp_le.
    rewrite compareNearToFar_keys, (Hall _ _ Hx), (Hall _ _ Hy). done.
  - reflexivity.
  - intros H. vm_compute in H. discriminate H.
Qed.

(** C5, amended.  On an array that is sorted for one of the two
    comparators, [sort] with that comparator returns an array with the
    same key at every position; every element keeps its position when the
    array has at most ten elements, and when no two elements have the same
    key. *)
Theorem sort_sorted_input (compareFunc : RenderElement → RenderElement → Z)
    (items : list RenderElement) :
  compareFunc = _compareFromNearToFar ∨ compareFunc = _compareFromFarToNear →
  sorted_range compareFunc items 0 (length items) →
  ∃ out, sort compareFunc items = Some out ∧
    sortKey <$> out = sortKey <$> items ∧
    (length items ≤ 10 → out = items) ∧
    (NoDup (sortKey <$> items) → out = items).
Proof.
  intros Hcmp Hsorted.
  assert (∃ compareKeys,
    (∀ x y, compareFunc x y = compareKeys (sortKey x) (sortKey y)) ∧
    (∀ k1 k2, (0 ≤ compareKeys k1 k2)%Z → (compareKeys k2 k1 ≤ 0)%Z) ∧
    (∀ k1 k2 k3, (compareKeys k1 k2 ≤ 0)%Z → (compareKeys k2 k3 ≤ 0)%Z →
                 (compareKeys k1 k3 ≤ 0)%Z) ∧
    (∀ k1 k2, (compareKeys k1 k2 ≤ 0)%Z → (compareKeys k2 k1 ≤ 0)%Z → k1 = k2))
    as (compareKeys & Hkey & Hflip & Htrans & Hanti).
  { destruct Hcmp as [-> | ->].
    - exists compareKeysNearToFar.
      split_and!; [done|apply keysNearToFar_flip|apply keysNearToFar_trans|
                   apply keysNearToFar_antisym].
    - exists compareKeysFarToNear.
      split_and!; [done|apply keysFarToNear_flip|apply keysFarToNear_trans|
                   apply keysFarToNear_antisym]. }
  destruct (sort_spec compareFunc) with (items := items)
    as (out & Hrun & Hperm & Hs).
  { eapply compare_flip_of_keys; eauto. }
  { eapply compare_trans_of_keys; eauto. }
  assert (Hkeys : sortKey <$> out = sortKey <$> items).
  { eapply sorted_same_keys; eauto. }
  exists out. split_and!; [done|done| |].
  - intros Hlen. rewrite sort_small_sorted in Hrun by done. by simplify_eq.
  - intros Hnd. by eapply same_keys_NoDup.
Qed.

Lemma sort_sorted_input_witness :
  ∃ out, sort _compareFromFarToNear [elem 0 5 0 0; elem 0 1 0 1; elem 1 0 0 2]
           = Some out ∧
    sortKey <$> out = [(0, 5); (0, 1); (1, 0)]%Z ∧
    (3 ≤ 10 → out = [elem 0 5 0 0; elem 0 1 0 1; elem 1 0 0 2]) ∧
    (NoDup [(0, 5); (0, 1); (1, 0)]%Z →
     out = [elem 0 5 0 0; elem 0 1 0 1; elem 1 0 0 2]).
Proof.
  apply (sort_sorted_input _compareFromFarToNear
           [elem 0 5 0 0; elem 0 1 0 1; elem 1 0 0 2]).
  - by right.
  - intros i j x y _ Hij Hj Hx Hy. simpl in Hj.
    destruct i as [|[|[|i]]], j as [|[|[|j]]]; try lia;
      simpl in Hx, Hy; simplify_eq; vm_compute; discriminate.
Defined.

End SortProofs.

(** ** Camera: dirty flags, the projection getter and the round trip *)

Module CameraProofs.
Import Camera.
Local Open Scope Qc_scope.

Section MatrixAlgebra.
Lemma transformToVec4_apply4 v m :
  Vector3_transformToVec4 v m = apply4 m (hom v).
Proof. unfold Vector3_transformToVec4, apply4, hom; simpl. f_equal; ring. Qed.

Lemma transformCoordinate_apply4 v m :
  Vector3_transformCoordinate v m = dehom (apply4 m (hom v)).
Proof.
  unfold Vector3_transformCoordinate, apply4, hom, dehom, Qcdiv; simpl.
  rewrite !Qcmult_1_l. f_equal; ring.
Qed.

Lemma apply4_multiply a b v :
  apply4 (Matrix_multiply a b) v = apply4 a (apply4 b v).
Proof. unfold apply4, Matrix_multiply; simpl. f_equal; ring. Qed.

Lemma apply4_scale m k v : apply4 m (scale4 k v) = scale4 k (apply4 m v).
Proof. unfold apply4, scale4; simpl. f_equal; ring. Qed.

Lemma apply4_identity v : apply4 Matrix_identity v = v.
Proof. destruct v. unfold apply4; simpl. f_equal; ring. Qed.

Lemma dehom_scale k v :
  k ≠ 0 → Vector4.w v ≠ 0 → dehom (scale4 k v) = dehom v.
Proof. intros. unfold dehom, scale4; simpl. f_equal; by field. Qed.

Lemma dehom_hom v : dehom (hom v) = v.
Proof. destruct v. unfold dehom, hom; simpl. f_equal; by field. Qed.

Lemma Matrix_invert_out a out out' :
  Matrix_determinant a ≠ 0 → Matrix_invert a out = Matrix_invert a out'.
Proof.
  intros Hdet. unfold Matrix_invert. fold (Matrix_determinant a).
  by destruct (decide _).
Qed.

Lemma Matrix_invert_right a out :
  Matrix_determinant a ≠ 0 →
  Matrix_multiply a (Matrix_invert a out) = Matrix_identity.
Proof.
  intros Hdet. unfold Matrix_invert. fold (Matrix_determinant a).
  destruct (decide _) as [|_]; [done|].
  destruct a. unfold Matrix_multiply, Matrix_identity, Matrix_determinant in *.
  cbn [e0 e1 e2 e3 e4 e5 e6 e7 e8 e9 e10 e11 e12 e13 e14 e15] in *.
  f_equal; field; exact Hdet.
Qed.

Lemma Matrix_invert_left a out :
  Matrix_determinant a ≠ 0 →
  Matrix_multiply (Matrix_invert a out) a = Matrix_identity.
Proof.
  intros Hdet. unfold Matrix_invert. fold (Matrix_determinant a).
  destruct (decide _) as [|_]; [done|].
  destruct a. unfold Matrix_multiply, Matrix_identity, Matrix_determinant in *.
  cbn [e0 e1 e2 e3 e4 e5 e6 e7 e8 e9 e10 e11 e12 e13 e14 e15] in *.
  f_equal; field; exact Hdet.
Qed.

Lemma Matrix_rotationTranslation_affine q t :
  affine (Matrix_rotationTranslation q t).
Proof. done. Qed.

Lemma Matrix_invert_affine a out :
  affine a → Matrix_determinant a ≠ 0 → affine (Matrix_invert a out).
Proof.
  intros (H3 & H7 & H11 & H15) Hdet.
  unfold Matrix_invert. fold (Matrix_determinant a).
  destruct (decide _) as [|_]; [done|].
  destruct a. unfold affine, Matrix_determinant in *.
  cbn [e0 e1 e2 e3 e4 e5 e6 e7 e8 e9 e10 e11 e12 e13 e14 e15] in *. subst.
  split_and!; field; intros E; apply Hdet; (etrans; [|exact E]); ring.
Qed.

Lemma apply4_affine_w m v : affine m → Vector4.w (apply4 m v) = Vector4.w v.
Proof.
  intros (H3 & H7 & H11 & H15). unfold apply4; simpl.
  rewrite H3, H7, H11, H15. ring.
Qed.
End MatrixAlgebra.

Section RoundTrip.
Variable Math_tan : Qc → Qc.
Variable MathUtil_degreeToRadian : Qc → Qc.

Local Abbreviation derive_projection :=
  (derive_projection Math_tan MathUtil_degreeToRadian).
Local Abbreviation get_projectionMatrix :=
  (get_projectionMatrix Math_tan MathUtil_degreeToRadian).
Local Abbreviation worldToViewportPoint :=
  (worldToViewportPoint Math_tan MathUtil_degreeToRadian).
Local Abbreviation viewportToWorldPoint :=
  (viewportToWorldPoint Math_tan MathUtil_degreeToRadian).
Local Abbreviation coherent := (coherent Math_tan MathUtil_degreeToRadian).
Local Abbreviation depth := (depth Math_tan MathUtil_degreeToRadian).

Lemma two_neq_0 : two ≠ 0.
Proof. done. Qed.

Lemma round_trip_algebra view world projection inverse near far orthographic
    point :
  let cameraPoint := apply4 view (hom point) in
  let clip := apply4 projection cameraPoint in
  affine view →
  Matrix_multiply world view = Matrix_identity →
  Matrix_multiply inverse projection = Matrix_identity →
  Vector4.w clip ≠ 0 →
  ndc_depth near far orthographic (- Vector4.z cameraPoint)
    = Vector4.z clip / Vector4.w clip →
  unproject near far orthographic (Matrix_multiply world inverse)
    (project view projection point) = point.
Proof.
  intros cameraPoint clip Haff Hview Hproj Hw Hdepth.
  assert (Hcam : Vector4.w cameraPoint = 1).
  { unfold cameraPoint. by rewrite apply4_affine_w. }
  assert (Hc : hom (Vector3_transformCoordinate point view) = cameraPoint).
  { rewrite transformCoordinate_apply4. fold cameraPoint.
    destruct cameraPoint as [cx cy cz cw]. simpl in Hcam. subst cw.
    unfold hom, dehom; simpl. f_equal; by field. }
  unfold unproject, project, _innerViewportToWorldPoint.
  rewrite transformToVec4_apply4, Hc. fold clip.
  cbn [Vector3.x Vector3.y Vector3.z].
  assert (Hz : Vector3.z (Vector3_transformCoordinate point view)
               = Vector4.z cameraPoint).
  { rewrite <-Hc. done. }
  rewrite Hz, Hdepth.
  rewrite transformCoordinate_apply4.
  assert (Hndc : hom {| Vector3.x := (Vector4.x clip / Vector4.w clip + 1) * (1 / two) * two - 1;
                         Vector3.y := 1 - (1 - Vector4.y clip / Vector4.w clip) * (1 / two) * two;
                         Vector3.z := (Vector4.z clip / Vector4.w clip + 1) / two * two - 1 |}
                 = scale4 (1 / Vector4.w clip) clip).
  { pose proof two_neq_0. destruct clip as [x y z w]. simpl in *.
    unfold hom, scale4; simpl. f_equal; by field. }
  rewrite Hndc, apply4_scale, apply4_multiply.
  unfold clip at 2. rewrite <-(apply4_multiply inverse), Hproj, apply4_identity.
  unfold cameraPoint. rewrite <-apply4_multiply, Hview, apply4_identity.
  rewrite dehom_scale; [apply dehom_hom| |done].
  intros E. apply Hw.
  assert (Vector4.w clip = Vector4.w clip * (1 / Vector4.w clip) * Vector4.w clip)
    as -> by (by field).
  rewrite <-Qcmult_assoc, (Qcmult_comm (1 / _)), Qcmult_assoc.
  unfold Qcdiv in *. rewrite Qcmult_1_l in E.
  replace (Vector4.w clip * Vector4.w clip * / Vector4.w clip)
    with (Vector4.w clip * Vector4.w clip * (/ Vector4.w clip)) by done.
  rewrite E. ring.
Qed.

Ltac camera_simpl :=
  cbn [_virtualCamera _isProjMatSetting _nearClipPlane _farClipPlane
       _fieldOfView _orthographicSize _isProjectionDirty _isInvProjMatDirty
       _isFrustumProjectDirty _customAspectRatio _frustumViewChangeFlag
       _isViewMatrixDirty _isInvViewProjDirty _viewport
       _inverseProjectionMatrix _lastAspectSize _invViewProjMat
       isOrthographic viewMatrix projectionMatrix viewProjectionMatrix
       with_virtualCamera with_isProjMatSetting with_nearClipPlane
       with_farClipPlane with_fieldOfView with_orthographicSize
       with_isProjectionDirty with_isInvProjMatDirty
       with_isFrustumProjectDirty with_customAspectRatio
       with_isViewMatrixDirty with_isInvViewProjDirty with_viewport
       with_inverseProjectionMatrix with_lastAspectSize with_invViewProjMat
       with_isOrthographic with_viewMatrix with_projectionMatrix
       Vector2.x Vector2.y fst snd negb orb andb] in *.

(** What the two transforms compute on a coherent camera whose
    projection is the automatic one. *)
Lemma transforms_on_coherent env c point viewportPoint :
  coherent env c → _isProjMatSetting c = false →
  let view :=
    Matrix_rotationTranslation (worldRotationQuaternion (transform env))
      (worldPosition (transform env)) in
  let projection := derive_projection env c in
  let r := worldToViewportPoint env c point in
  r.1 = project (Matrix_invert view view) projection point ∧
  (viewportToWorldPoint env r.2 viewportPoint).1
    = unproject (_nearClipPlane c) (_farClipPlane c)
        (isOrthographic (_virtualCamera c))
        (Matrix_multiply (worldMatrix (transform env))
           (Matrix_invert projection (_inverseProjectionMatrix c)))
        viewportPoint.
Proof.
  destruct c as [[io vm pm vpm] ps ne fa fv os pd id fd ar fc vd ivd vw ip la iv].
  unfold Camera.coherent, Camera.worldToViewportPoint,
    Camera.viewportToWorldPoint, _getInvViewProjMat,
    _getInverseProjectionMatrix, Camera.get_projectionMatrix, get_viewMatrix,
    Camera.derive_projection, get_aspectRatio.
  camera_simpl. intros (Hv & Hp & Hip & Hivp) ->.
  unfold project, unproject, ndc_depth.
  destruct vd, pd, id, ivd; camera_simpl;
    repeat (case_bool_decide; camera_simpl);
    rewrite ?bool_decide_eq_true_2 by done; camera_simpl;
    set (view := Matrix_rotationTranslation _ _) in *;
    set (projection := if negb io then _ else _) in *;
    clearbody view projection;
    rewrite ?Hv, ?Hp, <-?Hip, ?Hivp, <-?Hip by done;
    done.
Qed.

End RoundTrip.

Section RoundTrip2.
Variable Math_tan : Qc → Qc.
Variable MathUtil_degreeToRadian : Qc → Qc.

Local Abbreviation well_formed := (well_formed Math_tan MathUtil_degreeToRadian).

Local Abbreviation derive_projection :=
  (derive_projection Math_tan MathUtil_degreeToRadian).
Local Abbreviation get_projectionMatrix :=
  (get_projectionMatrix Math_tan MathUtil_degreeToRadian).
Local Abbreviation worldToViewportPoint :=
  (worldToViewportPoint Math_tan MathUtil_degreeToRadian).
Local Abbreviation viewportToWorldPoint :=
  (viewportToWorldPoint Math_tan MathUtil_degreeToRadian).
Local Abbreviation coherent := (coherent Math_tan MathUtil_degreeToRadian).
Local Abbreviation depth := (depth Math_tan MathUtil_degreeToRadian).

Lemma neq_0_of_inverse (a b : Qc) : a * b = 1 → a ≠ 0.
Proof. intros Hab ->. by rewrite Qcmult_0_l in Hab. Qed.

Lemma mult_neq_0 (a b : Qc) : a ≠ 0 → b ≠ 0 → a * b ≠ 0.
Proof. intros Ha Hb E. by destruct (Qcmult_integral _ _ E). Qed.

Lemma opp_neq_0 (a : Qc) : a ≠ 0 → - a ≠ 0.
Proof. intros Ha E. apply Ha. by rewrite <-(Qcopp_involutive a), E. Qed.

Lemma sub_neq_0 (a b : Qc) : a ≠ b → a - b ≠ 0.
Proof. intros Hab E. apply Hab. rewrite <-(Qcplus_0_l b), <-E. ring. Qed.

Lemma perspective_facts fovY aspect near far (cameraPoint : Vector4.t) :
  let projection := Matrix_perspective Math_tan fovY aspect near far in
  let clip := apply4 projection cameraPoint in
  Math_tan (fovY / two) ≠ 0 → aspect ≠ 0 → near ≠ far → near ≠ 0 → far ≠ 0 →
  Vector4.w cameraPoint = 1 → Vector4.z cameraPoint ≠ 0 →
  Matrix_determinant projection ≠ 0 ∧ Vector4.w clip ≠ 0 ∧
  ndc_depth near far false (- Vector4.z cameraPoint)
    = Vector4.z clip / Vector4.w clip.
Proof.
  intros projection clip Htan Hasp Hnf Hn Hf Hw Hz.
  pose proof (sub_neq_0 _ _ Hnf) as Hd.
  pose proof two_neq_0 as H2.
  destruct cameraPoint as [x y z w]. simpl in Hw, Hz. subst w.
  subst projection clip.
  unfold ndc_depth, apply4, Matrix_perspective, Matrix_determinant.
  cbn [e0 e1 e2 e3 e4 e5 e6 e7 e8 e9 e10 e11 e12 e13 e14 e15
       Vector4.x Vector4.y Vector4.z Vector4.w].
  set (t := Math_tan (fovY / two)) in *. clearbody t.
  assert (Hw : x * 0 + y * 0 + z * - (1) + 1 * 0 = - z) by ring.
  rewrite Hw. pose proof (opp_neq_0 _ Hz).
  split_and!; [|done|].
  - apply (neq_0_of_inverse _ (t * t * aspect * (near - far) / (two * far * near))).
    field. split_and!; done.
  - field. split_and!; done.
Qed.

Lemma ortho_facts size aspect near far (cameraPoint : Vector4.t) :
  let width := size * aspect in
  let projection := Matrix_ortho (- width) width (- size) size near far in
  let clip := apply4 projection cameraPoint in
  size ≠ 0 → aspect ≠ 0 → near ≠ far → Vector4.w cameraPoint = 1 →
  Matrix_determinant projection ≠ 0 ∧ Vector4.w clip ≠ 0 ∧
  ndc_depth near far true (- Vector4.z cameraPoint)
    = Vector4.z clip / Vector4.w clip.
Proof.
  intros width projection clip Hsize Hasp Hnf Hw.
  pose proof (sub_neq_0 _ _ Hnf) as Hd.
  pose proof two_neq_0 as H2.
  destruct cameraPoint as [x y z w]. simpl in Hw. subst w.
  subst projection clip width.
  unfold ndc_depth, apply4, Matrix_ortho, Matrix_determinant.
  cbn [e0 e1 e2 e3 e4 e5 e6 e7 e8 e9 e10 e11 e12 e13 e14 e15
       Vector4.x Vector4.y Vector4.z Vector4.w].
  assert (Hww : - (size * aspect) - size * aspect ≠ 0).
  { replace (- (size * aspect) - size * aspect)
      with (- (two * (size * aspect))) by (unfold two; ring).
    auto using opp_neq_0, mult_neq_0. }
  assert (Hhh : - size - size ≠ 0).
  { replace (- size - size) with (- (two * size)) by (unfold two; ring).
    auto using opp_neq_0, mult_neq_0. }
  assert (Hone : x * 0 + y * 0 + z * 0 + 1 * 1 = 1) by ring.
  rewrite Hone. unfold two in *.
  split_and!; [|done|].
  - apply (neq_0_of_inverse _
             ((size * aspect) * size * (near - far) / (1 + 1))).
    field. split_and!; done.
  - field. split_and!; done.
Qed.

(** X30.  On a camera whose projection was not set by hand, whose
    cached matrices are those of its parameters or marked dirty, whose
    node has a world matrix made of its rotation and position, and whose
    projection parameters give an invertible projection, a world point at
    a depth strictly between the clip planes is what [viewportToWorldPoint]
    gives back from the result of [worldToViewportPoint]. *)
Theorem viewport_world_round_trip env c point :
  coherent env c → _isProjMatSetting c = false → rigid env →
  well_formed env c →
  _nearClipPlane c < depth env c point →
  depth env c point < _farClipPlane c →
  (viewportToWorldPoint env (worldToViewportPoint env c point).2
     (worldToViewportPoint env c point).1).1 = point.
Proof.
  intros Hcoh Hset [HW Hdet] [Hasp Hwf] Hnear Hfar.
  unfold Camera.depth in Hnear, Hfar.
  destruct (transforms_on_coherent Math_tan MathUtil_degreeToRadian env c point
              (worldToViewportPoint env c point).1 Hcoh Hset) as [E1 E2].
  rewrite E2. rewrite E1 in Hnear, Hfar |- *. clear E1 E2.
  rewrite HW in Hdet |- *.
  set (view := Matrix_rotationTranslation _ _) in *.
  assert (Haff : affine (Matrix_invert view view)).
  { apply Matrix_invert_affine; [apply Matrix_rotationTranslation_affine|done]. }
  set (cameraPoint := apply4 (Matrix_invert view view) (hom point)).
  assert (Hcw : Vector4.w cameraPoint = 1).
  { unfold cameraPoint. by rewrite apply4_affine_w. }
  assert (Hcz : Vector3.z (project (Matrix_invert view view)
                             (derive_projection env c) point)
                = - Vector4.z cameraPoint).
  { unfold project. cbn [Vector3.z]. rewrite transformCoordinate_apply4.
    fold cameraPoint. unfold dehom. cbn [Vector3.z]. rewrite Hcw. by field. }
  rewrite Hcz in Hnear, Hfar.
  assert (Hnf : _nearClipPlane c ≠ _farClipPlane c).
  { apply Qclt_not_eq. by eapply Qclt_trans. }
  assert (Hfacts :
    Matrix_determinant (derive_projection env c) ≠ 0 ∧
    Vector4.w (apply4 (derive_projection env c) cameraPoint) ≠ 0 ∧
    ndc_depth (_nearClipPlane c) (_farClipPlane c)
      (isOrthographic (_virtualCamera c)) (- Vector4.z cameraPoint)
    = Vector4.z (apply4 (derive_projection env c) cameraPoint)
      / Vector4.w (apply4 (derive_projection env c) cameraPoint)).
  { unfold Camera.derive_projection.
    destruct (isOrthographic (_virtualCamera c)); cbn [negb].
    - by apply ortho_facts.
    - destruct Hwf as [Htan Hpos].
      assert (0 < - Vector4.z cameraPoint) as Hd by (by eapply Qclt_trans).
      assert (0 < _farClipPlane c) as Hf by (by eapply Qclt_trans).
      apply perspective_facts; [done|done|done| | |done|].
      + apply not_eq_sym. by apply Qclt_not_eq.
      + apply not_eq_sym. by apply Qclt_not_eq.
      + intros E. rewrite E in Hd. by apply (Qclt_not_eq _ _ Hd). }
  destruct Hfacts as (Hpdet & Hw & Hdepth).
  apply round_trip_algebra; [done| | |done|done].
  - by apply Matrix_invert_right.
  - by apply Matrix_invert_left.
Qed.
End RoundTrip2.

Section Flags.
Variable Math_tan : Qc → Qc.
Variable MathUtil_degreeToRadian : Qc → Qc.

Local Abbreviation derive_projection :=
  (derive_projection Math_tan MathUtil_degreeToRadian).
Local Abbreviation get_projectionMatrix :=
  (get_projectionMatrix Math_tan MathUtil_degreeToRadian).

(** C6.  Each of the seven setters is some field update followed by
    [_projMatChange]: afterwards the four flags are raised, and the stored
    matrices, the canvas size last seen and the view flag are what they
    were.  The projection is derived anew by the next read of
    [projectionMatrix], unless it was set by hand and the canvas has the
    size last seen. *)
Theorem setters_only_mark_dirty env c m :
  projection_flags (mutate c m) = (true, true, true, true) ∧
  (∃ c0, mutate c m = _projMatChange c0 ∧
         projection_flags c0 = projection_flags c ∧
         cached_matrices c0 = cached_matrices c) ∧
  cached_matrices (mutate c m) = cached_matrices c ∧
  _lastAspectSize (mutate c m) = _lastAspectSize c ∧
  _isViewMatrixDirty (mutate c m) = _isViewMatrixDirty c ∧
  (get_projectionMatrix env (mutate c m)).1
    = if _isProjMatSetting c
         && bool_decide (Vector2.x (_lastAspectSize c) = canvas_width env)
         && bool_decide (Vector2.y (_lastAspectSize c) = canvas_height env)
      then projectionMatrix (_virtualCamera c)
      else derive_projection env (mutate c m).
Proof.
  destruct c as [[io vm pm vpm] ps ne fa fv os pd id fd ar fc vd ivd vw ip la iv].
  split_and!.
  - by destruct m.
  - destruct m; eexists; (split; [reflexivity|]); done.
  - by destruct m.
  - by destruct m.
  - by destruct m.
  - unfold Camera.get_projectionMatrix.
    destruct m; cbn -[Camera.derive_projection bool_decide];
      (destruct (ps && _ && _); [done|]); reflexivity.
Qed.

(** C2 fails on a new camera.  After [projectionMatrix = manual_projection]
    on a canvas of 800 by 600, the first read of [projectionMatrix] returns
    the perspective projection of the camera's parameters, not the matrix
    set by hand, though [_isProjMatSetting] still holds and
    [resetProjectionMatrix] was not called. *)
Theorem manual_projection_lost_on_first_read t :
  let env := canvas_800x600 t in
  let c := set_projectionMatrix Camera_new manual_projection in
  (get_projectionMatrix env c).1
    = Matrix_perspective Math_tan (MathUtil_degreeToRadian (Q2Qc 45))
        (Q2Qc 800 * 1 / (Q2Qc 600 * 1)) (Q2Qc (1 # 10)) (Q2Qc 100) ∧
  (get_projectionMatrix env c).1 ≠ manual_projection ∧
  _isProjMatSetting (get_projectionMatrix env c).2 = true.
Proof.
  intros env c.
  assert (E : (get_projectionMatrix env c).1
    = Matrix_perspective Math_tan (MathUtil_degreeToRadian (Q2Qc 45))
        (Q2Qc 800 * 1 / (Q2Qc 600 * 1)) (Q2Qc (1 # 10)) (Q2Qc 100))
    by reflexivity.
  split_and!; [exact E| |reflexivity].
  rewrite E. intros H. apply (f_equal e11) in H. done.
Qed.

(** It does not survive a change of the canvas size either. *)
Lemma manual_projection_lost_on_resize env c m :
  (Vector2.x (_lastAspectSize c) ≠ canvas_width env ∨
   Vector2.y (_lastAspectSize c) ≠ canvas_height env) →
  (get_projectionMatrix env (set_projectionMatrix c m)).1
    = derive_projection env (set_projectionMatrix c m).
Proof.
  destruct c as [[io vm pm vpm] ps ne fa fv os pd id fd ar fc vd ivd vw ip la iv].
  unfold Camera.get_projectionMatrix.
  cbn -[Camera.derive_projection bool_decide]. intros Hsize.
  destruct Hsize.
  - rewrite (bool_decide_eq_false_2 (Vector2.x la = _)) by done. done.
  - rewrite (bool_decide_eq_false_2 (Vector2.y la = _)) by done.
    by rewrite andb_false_r.
Qed.

(** While the canvas keeps the size last seen, the manual projection is
    what every read returns, whatever parameters are set in between. *)
Lemma manual_projection_kept env c m (ms : list Mutation) :
  Vector2.x (_lastAspectSize c) = canvas_width env →
  Vector2.y (_lastAspectSize c) = canvas_height env →
  get_projectionMatrix env (foldl mutate (set_projectionMatrix c m) ms)
    = (m, foldl mutate (set_projectionMatrix c m) ms).
Proof.
  intros Hx Hy.
  assert (Hinv : ∀ c', _isProjMatSetting c' = true →
                       projectionMatrix (_virtualCamera c') = m →
                       _lastAspectSize c' = _lastAspectSize c →
                       get_projectionMatrix env (foldl mutate c' ms) = (m, foldl mutate c' ms)).
  { induction ms as [|mu ms IH]; intros c' Hs Hp Hl; simpl.
    - unfold Camera.get_projectionMatrix.
      rewrite Hs, Hl, orb_true_r.
      rewrite !bool_decide_eq_true_2 by done. simpl. by rewrite Hp.
    - apply IH.
      + by destruct c' as [[] ? ? ? ? ? ? ? ? ? ? ? ? ? ? ? ?], mu.
      + rewrite <-Hp. by destruct c' as [[] ? ? ? ? ? ? ? ? ? ? ? ? ? ? ? ?], mu.
      + rewrite <-Hl. by destruct c' as [[] ? ? ? ? ? ? ? ? ? ? ? ? ? ? ? ?], mu. }
  apply Hinv; by destruct c as [[] ? ? ? ? ? ? ? ? ? ? ? ? ? ? ? ?].
Qed.
End Flags.

(** With a projection set by hand the round trip fails as well: the
    point (0, 0, -2), at depth 2 between the clip planes 1/10 and 100 and
    in the middle of the viewport, does not come back, since
    [viewportToWorldPoint] rebuilds the depth by the formula of the
    automatic projection. *)
Lemma round_trip_fails_with_manual_projection :
  let c := camera_with_manual_projection in
  let r := worldToViewportPoint tan_rational degreeToRadian_rational
             square_canvas c in_front in
  _nearClipPlane c < depth tan_rational degreeToRadian_rational square_canvas c in_front ∧
  depth tan_rational degreeToRadian_rational square_canvas c in_front < _farClipPlane c ∧
  r.1 = {| Vector3.x := Q2Qc (1 # 2); Vector3.y := Q2Qc (1 # 2); Vector3.z := two |} ∧
  (viewportToWorldPoint tan_rational degreeToRadian_rational square_canvas
     r.2 r.1).1 ≠ in_front.
Proof.
  split_and!.
  - vm_compute. reflexivity.
  - vm_compute. reflexivity.
  - cbv zeta. f_equal; apply Qc_is_canon; vm_compute; reflexivity.
  - intros H. apply (f_equal Vector3.z) in H. apply (f_equal this) in H.
    vm_compute in H. discriminate H.
Qed.

(** A vector is its three coordinates, which are decided by
    computation. *)
Lemma Vector3_by_coordinates (v : Vector3.t) (x y z : Qc) :
  (Vector3.x v == x)%Q → (Vector3.y v == y)%Q → (Vector3.z v == z)%Q →
  v = {| Vector3.x := x; Vector3.y := y; Vector3.z := z |}.
Proof.
  destruct v as [vx vy vz]. simpl. intros Hx Hy Hz.
  f_equal; by apply Qc_is_canon.
Qed.

(** C3 fails on a camera with the automatic projection, by a slip in the
    caches.  A new camera makes one round trip on a canvas of 600 by 600,
    which fills its caches, and the canvas is made 1200 wide.  The next
    read of [projectionMatrix] sees the new size and derives the
    projection anew, but it marks neither the inverse of the projection
    nor the inverse of view and projection as stale, as [_projMatChange]
    does on every change of a parameter, and [viewportToWorldPoint] goes
    on with the inverse for the old canvas.  The point (1/2, 0, -2), at
    depth 2 between the clip planes 1/10 and 100 and inside the viewport,
    came back before the canvas changed and comes back as (1/4, 0, -2)
    after. *)
Theorem round_trip_lost_after_canvas_resize :
  let W2V := worldToViewportPoint tan_rational degreeToRadian_rational in
  let V2W := viewportToWorldPoint tan_rational degreeToRadian_rational in
  let before := W2V square_canvas Camera_new to_the_right in
  let c := camera_after_round_trip in
  let r := W2V wide_canvas c to_the_right in
  (V2W square_canvas before.2 before.1).1 = to_the_right ∧
  _isProjMatSetting c = false ∧
  _nearClipPlane c
    < depth tan_rational degreeToRadian_rational wide_canvas c to_the_right ∧
  depth tan_rational degreeToRadian_rational wide_canvas c to_the_right
    < _farClipPlane c ∧
  r.1 = {| Vector3.x := Q2Qc (234 # 355); Vector3.y := Q2Qc (1 # 2);
           Vector3.z := two |} ∧
  projectionMatrix (_virtualCamera r.2)
    = derive_projection tan_rational degreeToRadian_rational wide_canvas c ∧
  _isInvProjMatDirty r.2 = false ∧
  _isInvViewProjDirty r.2 = false ∧
  _invViewProjMat r.2 = _invViewProjMat c ∧
  (V2W wide_canvas r.2 r.1).1
    = {| Vector3.x := Q2Qc (1 # 4); Vector3.y := 0; Vector3.z := - two |} ∧
  (V2W wide_canvas r.2 r.1).1 ≠ to_the_right.
Proof.
  assert (Hback :
    (viewportToWorldPoint tan_rational degreeToRadian_rational wide_canvas
       (worldToViewportPoint tan_rational degreeToRadian_rational wide_canvas
          camera_after_round_trip to_the_right).2
       (worldToViewportPoint tan_rational degreeToRadian_rational wide_canvas
          camera_after_round_trip to_the_right).1).1
    = {| Vector3.x := Q2Qc (1 # 4); Vector3.y := 0; Vector3.z := - two |}).
  { apply Vector3_by_coordinates; vm_compute; reflexivity. }
  cbv zeta. split_and!.
  - apply Vector3_by_coordinates; vm_compute; reflexivity.
  - reflexivity.
  - vm_compute. reflexivity.
  - vm_compute. reflexivity.
  - apply Vector3_by_coordinates; vm_compute; reflexivity.
  - reflexivity.
  - reflexivity.
  - reflexivity.
  - reflexivity.
  - exact Hback.
  - rewrite Hback. intros H. apply (f_equal Vector3.x) in H.
    apply (f_equal this) in H. vm_compute in H. discriminate H.
Qed.

(** The round trip fails on a scaled entity too.  [get viewMatrix]
    leaves the scale out, as its comment says, while
    [_getInvViewProjMat] multiplies by the entity's world matrix, which
    has it: on an entity scaled by two the point (1/2, 0, -2) comes back
    as (1, 0, -4). *)
Lemma round_trip_lost_on_scaled_entity :
  let r := worldToViewportPoint tan_rational degreeToRadian_rational
             square_canvas_scaled Camera_new to_the_right in
  r.1 = {| Vector3.x := Q2Qc (581 # 710); Vector3.y := Q2Qc (1 # 2);
           Vector3.z := two |} ∧
  (viewportToWorldPoint tan_rational degreeToRadian_rational
     square_canvas_scaled r.2 r.1).1
  = {| Vector3.x := 1; Vector3.y := 0; Vector3.z := - (two + two) |}.
Proof.
  cbv zeta. split; apply Vector3_by_coordinates; vm_compute; reflexivity.
Qed.

Lemma viewport_world_round_trip_witness :
  (viewportToWorldPoint tan_rational degreeToRadian_rational square_canvas
     (worldToViewportPoint tan_rational degreeToRadian_rational square_canvas
        Camera_new in_front).2
     (worldToViewportPoint tan_rational degreeToRadian_rational square_canvas
        Camera_new in_front).1).1 = in_front.
Proof.
  apply viewport_world_round_trip.
  - split_and!; intros H; discriminate H.
  - reflexivity.
  - split.
    + f_equal; apply Qc_is_canon; vm_compute; reflexivity.
    + intros H. apply (f_equal this) in H. vm_compute in H. discriminate H.
  - split.
    + intros H. apply (f_equal this) in H. vm_compute in H. discriminate H.
    + split.
      * intros H. apply (f_equal this) in H. vm_compute in H. discriminate H.
      * vm_compute. reflexivity.
  - vm_compute. reflexivity.
  - vm_compute. reflexivity.
Defined.

End CameraProofs.

(** ** SubFont: pages, cursor and lookup *)

Module SubFontProofs.
Import SubFont.

Section AtlasProofs.
Context {Packing : Type}.
Variable emptyPage : Packing.
Variable place : Packing → CharInfo → Packing * bool.

Local Abbreviation FontAtlas := (@FontAtlas Packing).
Local Abbreviation SubFont := (@SubFont Packing).
Local Abbreviation upload := (FontAtlas_uploadCharTexture place).
Local Abbreviation _uploadCharTexture := (_uploadCharTexture emptyPage place).
Local Abbreviation _createFontAtlas := (_createFontAtlas emptyPage).
Local Abbreviation reachable := (reachable emptyPage place).
Local Abbreviation later := (later emptyPage place).
Local Abbreviation first_target := (first_target emptyPage).
Local Abbreviation pages_grow := (@pages_grow Packing).
Implicit Types s : SubFont.
Implicit Types fa : FontAtlas.
Implicit Types l : list FontAtlas.

Lemma upload_texture fa ci : texture (upload fa ci).1 = texture fa.
Proof. unfold FontAtlas_uploadCharTexture. by destruct (place _ _). Qed.

Lemma upload_charInfoMap fa ci : _charInfoMap (upload fa ci).1 = _charInfoMap fa.
Proof. unfold FontAtlas_uploadCharTexture. by destruct (place _ _). Qed.

Lemma upload_uploaded fa ci :
  uploaded (upload fa ci).1
  = if (upload fa ci).2 then ci :: uploaded fa else uploaded fa.
Proof. unfold FontAtlas_uploadCharTexture. by destruct (place _ _) as [? []]. Qed.

Lemma atlas_at_Some (l : list FontAtlas) (i : Z) fa :
  atlas_at l i = Some fa ↔ (0 ≤ i)%Z ∧ l !! Z.to_nat i = Some fa.
Proof.
  unfold atlas_at. case_decide; split.
  - by intros ?.
  - by intros [_ ?].
  - done.
  - intros [? _]. lia.
Qed.

Lemma _uploadCharTexture_unfold s ci fa :
  atlas_at (_fontAtlases (first_target s).1) (first_target s).2 = Some fa →
  _uploadCharTexture s ci =
    let s1 := (first_target s).1 in
    let cur := (first_target s).2 in
    let pages1 := atlas_put (_fontAtlases s1) cur (upload fa ci).1 in
    Some
      (if (upload fa ci).2 then
         {| _instanceIdCounter := _instanceIdCounter s1;
            _fontAtlases := pages1; _lastIndex := cur |}
       else
         {| _instanceIdCounter := S (_instanceIdCounter s1);
            _fontAtlases :=
              pages1 ++ [(upload (FontAtlas_new emptyPage
                  {| width := 256; height := 256;
                     instanceId := S (_instanceIdCounter s1) |}) ci).1];
            _lastIndex := (cur + 1)%Z |},
       {| w := w ci; h := h ci; xAdvance := xAdvance ci; ascent := ascent ci;
          descent := descent ci; index := index ci; data := None |}).
Proof.
  unfold SubFont._uploadCharTexture, first_target.
  destruct (decide (_lastIndex s = -1)%Z) as [Hl|Hl]; simpl; intros ->; simpl.
  all: destruct (upload fa ci) as [fa1 ok] eqn:Hup; simpl.
  all: destruct ok; simpl; [done|].
  all: destruct (upload (FontAtlas_new _ _) ci) as [fa2 ok2] eqn:Hup2; simpl.
  all: do 2 f_equal; f_equal.
  all: rewrite length_app; simpl.
  all: rewrite insert_app_r_alt by lia.
  all: f_equal.
  all: match goal with |- <[?n:=_]> _ = _ => replace n with 0 by lia end; done.
Qed.

Lemma first_target_spec s :
  cursor_on_last s →
  ∃ fa, atlas_at (_fontAtlases (first_target s).1) (first_target s).2 = Some fa ∧
        (first_target s).2
          = (Z.of_nat (length (_fontAtlases (first_target s).1)) - 1)%Z ∧
        (0 ≤ (first_target s).2)%Z.
Proof.
  unfold cursor_on_last, first_target. intros Hc.
  destruct (decide (_lastIndex s = -1)%Z) as [Hl|Hl]; simpl.
  - assert (_fontAtlases s = []) as ->.
    { destruct (_fontAtlases s); [done|]. simpl in Hc. lia. }
    rewrite Hl. simpl. eexists. split; [reflexivity|]. lia.
  - destruct (lookup_lt_is_Some_2 (_fontAtlases s) (Z.to_nat (_lastIndex s)))
      as [fa Hfa]; [lia|].
    exists fa. split; [|lia]. apply atlas_at_Some. split; [lia|done].
Qed.

Lemma pages_grow_refl l : pages_grow l l.
Proof. intros i fa ?. eauto. Qed.

Lemma pages_grow_trans l1 l2 l3 :
  pages_grow l1 l2 → pages_grow l2 l3 → pages_grow l1 l3.
Proof.
  intros H12 H23 i fa Hi.
  destruct (H12 i fa Hi) as (fa2 & Hi2 & Ht2 & Hm2).
  destruct (H23 i fa2 Hi2) as (fa3 & Hi3 & Ht3 & Hm3).
  exists fa3. split_and!; [done|congruence|auto].
Qed.

Lemma pages_grow_app l more : pages_grow l (l ++ more).
Proof.
  intros i fa Hi. exists fa. split_and!; [|done..].
  by apply lookup_app_l_Some.
Qed.

Lemma pages_grow_put l i fa fa' :
  l !! i = Some fa → texture fa' = texture fa →
  (∀ char, is_Some (_charInfoMap fa !! char) →
           is_Some (_charInfoMap fa' !! char)) →
  pages_grow l (<[i:=fa']> l).
Proof.
  intros Hi Ht Hm j fb Hj. destruct (decide (i = j)) as [->|].
  - exists fa'. simplify_eq. split_and!; [|done..].
    apply list_lookup_insert_eq. by eapply lookup_lt_Some.
  - exists fb. by rewrite list_lookup_insert_ne.
Qed.

Lemma scan_pages_is_Some (l : list FontAtlas) char :
  is_Some (scan_pages l char) ↔
  ∃ i fa, l !! i = Some fa ∧ is_Some (_charInfoMap fa !! char).
Proof.
  induction l as [|fa l IH]; simpl.
  - split; [by intros [? ?]|]. by intros (i & ? & ? & _).
  - unfold FontAtlas_getCharInfo.
    destruct (_charInfoMap fa !! char) as [ci|] eqn:Hfa.
    + split; [|eauto]. intros _. exists 0, fa. rewrite Hfa. eauto.
    + rewrite IH. split.
      * intros (i & fb & ? & ?). exists (S i), fb. eauto.
      * intros ([|i] & fb & Hi & Hs); simpl in Hi.
        -- simplify_eq. rewrite Hfa in Hs. by destruct Hs.
        -- eauto.
Qed.

Lemma pages_grow_scan l l' char :
  pages_grow l l' → is_Some (scan_pages l char) → is_Some (scan_pages l' char).
Proof.
  rewrite !scan_pages_is_Some. intros Hg (i & fa & Hi & Hs).
  destruct (Hg i fa Hi) as (fa' & ? & _ & Hm). eauto.
Qed.

Lemma _uploadCharTexture_target s ci s' ci' :
  _uploadCharTexture s ci = Some (s', ci') →
  ∃ fa, atlas_at (_fontAtlases (first_target s).1) (first_target s).2 = Some fa.
Proof.
  unfold SubFont._uploadCharTexture, first_target.
  destruct (decide (_lastIndex s = -1)%Z); simpl;
    destruct (atlas_at _ _); simpl; intros; simplify_eq; eauto.
Qed.

Lemma first_target_grow s : pages_grow (_fontAtlases s) (_fontAtlases (first_target s).1).
Proof.
  unfold first_target. case_decide; simpl.
  - apply pages_grow_app.
  - apply pages_grow_refl.
Qed.

Lemma _uploadCharTexture_grow s ci s' ci' :
  _uploadCharTexture s ci = Some (s', ci') →
  pages_grow (_fontAtlases s) (_fontAtlases s').
Proof.
  intros Hrun. destruct (_uploadCharTexture_target _ _ _ _ Hrun) as [fa Hfa].
  rewrite (_uploadCharTexture_unfold s ci fa Hfa) in Hrun. simpl in Hrun.
  apply atlas_at_Some in Hfa as [? Hfa].
  eapply pages_grow_trans; [apply first_target_grow|].
  assert (pages_grow (_fontAtlases (first_target s).1)
            (atlas_put (_fontAtlases (first_target s).1) (first_target s).2
                       (upload fa ci).1)) as Hput.
  { eapply pages_grow_put; [done|apply upload_texture|].
    intros char. by rewrite upload_charInfoMap. }
  destruct (upload fa ci).2; simplify_eq; simpl; [done|].
  eapply pages_grow_trans; [exact Hput|apply pages_grow_app].
Qed.

Lemma _addCharInfo_grow s char ci s' ci' :
  _addCharInfo s char ci = Some (s', ci') →
  pages_grow (_fontAtlases s) (_fontAtlases s') ∧
  is_Some (_getCharInfo s' char).
Proof.
  unfold _addCharInfo, _getCharInfo.
  destruct (atlas_at _ _) as [fa|] eqn:Hfa; simpl; intros; simplify_eq. simpl.
  apply atlas_at_Some in Hfa as [? Hfa]. split.
  - eapply pages_grow_put; [done|done|]. simpl.
    intros c Hc. rewrite lookup_insert. by case_decide.
  - apply scan_pages_is_Some. eexists _, _. split.
    + apply list_lookup_insert_eq. by eapply lookup_lt_Some.
    + simpl. rewrite lookup_insert_eq. eauto.
Qed.

Lemma later_grow s1 s2 :
  later s1 s2 → pages_grow (_fontAtlases s1) (_fontAtlases s2).
Proof.
  induction 1 as [|???? ? _ IH Hup|????? ? _ IH Hadd].
  - apply pages_grow_refl.
  - eapply pages_grow_trans; [exact IH|]. by eapply _uploadCharTexture_grow.
  - eapply pages_grow_trans; [exact IH|]. by eapply _addCharInfo_grow.
Qed.

Lemma first_target_length s :
  length (_fontAtlases (first_target s).1)
  = length (_fontAtlases s) + (if decide (_lastIndex s = -1)%Z then 1 else 0).
Proof.
  unfold SubFont.first_target. case_decide; simpl; [|lia].
  by rewrite length_app.
Qed.

Lemma scan_pages_app l1 l2 char :
  scan_pages (l1 ++ l2) char
  = match scan_pages l1 char with
    | Some charInfo => Some charInfo
    | None => scan_pages l2 char
    end.
Proof.
  induction l1 as [|fa l1 IH]; simpl; [done|].
  by destruct (FontAtlas_getCharInfo fa char).
Qed.

Lemma scan_pages_Some l char ci :
  scan_pages l char = Some ci →
  ∃ i fa, l !! i = Some fa ∧ _charInfoMap fa !! char = Some ci.
Proof.
  induction l as [|fa l IH]; simpl; [done|].
  unfold FontAtlas_getCharInfo.
  destruct (_charInfoMap fa !! char) as [ci0|] eqn:Hfa.
  - intros; simplify_eq. by exists 0, fa.
  - intros Hs. destruct (IH Hs) as (i & fb & ? & ?). by exists (S i), fb.
Qed.

(** Pages with the same glyph maps answer every lookup the same. *)
Lemma scan_pages_same_maps l l' char :
  (_charInfoMap <$> l) = (_charInfoMap <$> l') →
  scan_pages l char = scan_pages l' char.
Proof.
  revert l'. induction l as [|fa l IH]; intros [|fa' l'] Hm; simplify_eq/=;
    [done|].
  unfold FontAtlas_getCharInfo.
  match goal with E : _charInfoMap fa = _ |- _ => rewrite E end.
  by erewrite IH.
Qed.

Lemma scan_pages_empty_page l (t : Texture2D) p u char :
  scan_pages (l ++ [{| texture := t; _charInfoMap := ∅; packing := p;
                       uploaded := u |}]) char
  = scan_pages l char.
Proof.
  rewrite scan_pages_app. destruct (scan_pages l char); [done|]. simpl.
  unfold FontAtlas_getCharInfo. simpl. by rewrite lookup_empty.
Qed.

(** What an upload does to the glyph maps: nothing, but for an empty map
    at the end when a page was added. *)
Lemma _uploadCharTexture_maps s ci s' ci' :
  _uploadCharTexture s ci = Some (s', ci') →
  ∃ more, (_charInfoMap <$> _fontAtlases s')
          = (_charInfoMap <$> _fontAtlases s) ++ more ∧
          Forall (λ m, m = ∅) more.
Proof.
  intros Hrun. destruct (_uploadCharTexture_target _ _ _ _ Hrun) as [fa Hfa].
  rewrite (_uploadCharTexture_unfold s ci fa Hfa) in Hrun. simpl in Hrun.
  apply atlas_at_Some in Hfa as [? Hfa].
  assert (Hput : _charInfoMap <$> atlas_put (_fontAtlases (first_target s).1)
                                   (first_target s).2 (upload fa ci).1
                 = _charInfoMap <$> _fontAtlases (first_target s).1).
  { unfold atlas_put. rewrite list_fmap_insert, upload_charInfoMap.
    apply list_insert_id. by rewrite list_lookup_fmap, Hfa. }
  assert (Hfirst : ∃ more, (_charInfoMap <$> _fontAtlases (first_target s).1)
                           = (_charInfoMap <$> _fontAtlases s) ++ more ∧
                           Forall (λ m, m = ∅) more).
  { unfold SubFont.first_target. case_decide; simpl.
    - exists [∅]. rewrite fmap_app. split; [done|]. by repeat constructor.
    - exists []. by rewrite app_nil_r. }
  destruct Hfirst as (more & Hmore & Hall).
  destruct (upload fa ci).2; simplify_eq; simpl.
  - exists more. by rewrite Hput.
  - exists (more ++ [∅]). rewrite fmap_app, Hput, Hmore. simpl.
    rewrite upload_charInfoMap. simpl. rewrite <-(assoc_L (++)).
    split; [done|]. apply Forall_app. split; [done|]. by repeat constructor.
Qed.

Lemma scan_pages_more_empty l l' more char :
  (_charInfoMap <$> l') = (_charInfoMap <$> l) ++ more →
  Forall (λ m, m = ∅) more →
  scan_pages l' char = scan_pages l char.
Proof.
  intros Hm Hall.
  assert (Hl' : l' = take (length l) l' ++ drop (length l) l')
    by (by rewrite take_drop).
  rewrite Hl', scan_pages_app.
  assert (Htake : _charInfoMap <$> take (length l) l' = _charInfoMap <$> l).
  { rewrite fmap_take, Hm. rewrite take_app_length'; [done|].
    by rewrite length_fmap. }
  rewrite (scan_pages_same_maps _ l char Htake).
  destruct (scan_pages l char); [done|].
  assert (Hdrop : _charInfoMap <$> drop (length l) l' = more).
  { rewrite fmap_drop, Hm. rewrite drop_app_length'; [done|].
    by rewrite length_fmap. }
  clear Hl' Htake Hm. revert Hdrop Hall. generalize (drop (length l) l').
  intros rest. revert more.
  induction rest as [|fa rest IH]; intros more Hd Hall; simpl; [done|].
  destruct more as [|m more]; simplify_eq/=.
  apply Forall_cons in Hall as [Hm Hall].
  unfold FontAtlas_getCharInfo. rewrite Hm, lookup_empty. by eapply IH.
Qed.

(** The scan returns what the first page that knows the character
    holds. *)
Lemma scan_pages_first l char i fa found :
  l !! i = Some fa → _charInfoMap fa !! char = Some found →
  (∀ j fb, j < i → l !! j = Some fb → _charInfoMap fb !! char = None) →
  scan_pages l char = Some found.
Proof.
  revert i. induction l as [|fb l IH]; intros i Hi Hfound Hnone; [done|].
  simpl. unfold FontAtlas_getCharInfo. destruct i as [|i]; simpl in Hi.
  - simplify_eq. by rewrite Hfound.
  - rewrite (Hnone 0 fb) by (done || lia).
    apply (IH i); [done..|]. intros j fc Hj. apply (Hnone (S j)). lia.
Qed.

Lemma scan_pages_first_page l char found :
  scan_pages l char = Some found →
  ∃ i fa, l !! i = Some fa ∧ _charInfoMap fa !! char = Some found ∧
          ∀ j fb, j < i → l !! j = Some fb → _charInfoMap fb !! char = None.
Proof.
  induction l as [|fb l IH]; simpl; [done|].
  unfold FontAtlas_getCharInfo.
  destruct (_charInfoMap fb !! char) as [ci|] eqn:Hfb.
  - intros; simplify_eq. exists 0, fb. split_and!; [done..|]. intros; lia.
  - intros Hs. destruct (IH Hs) as (i & fa & Hi & Hfound & Hnone).
    exists (S i), fa. split_and!; [done..|].
    intros [|j] fc Hj Hfc; simpl in Hfc; [by simplify_eq|].
    apply (Hnone j); [lia|done].
Qed.

Lemma scan_pages_None l char :
  scan_pages l char = None →
  ∀ i fa, l !! i = Some fa → _charInfoMap fa !! char = None.
Proof.
  intros Hnone i fa Hi.
  destruct (_charInfoMap fa !! char) as [ci|] eqn:Hci; [|done].
  assert (is_Some (scan_pages l char)) as [? Hs]; [|by rewrite Hs in Hnone].
  apply scan_pages_is_Some. exists i, fa. by rewrite Hci.
Qed.

(** Pages that agree on a character, one by one, give the same scan for
    it. *)
Lemma scan_pages_agree l l' char :
  Forall2 (λ fa fa', _charInfoMap fa !! char = _charInfoMap fa' !! char) l l' →
  scan_pages l char = scan_pages l' char.
Proof.
  induction 1 as [|fa fa' l l' Hfa _ IH]; simpl; [done|].
  unfold FontAtlas_getCharInfo. rewrite Hfa, IH. done.
Qed.

(** What a registration does: the glyph, stamped with the cursor, enters
    the map of the cursor's page, and nothing else changes. *)
Lemma _addCharInfo_unfold s char ci s' ci' :
  _addCharInfo s char ci = Some (s', ci') →
  ∃ fa, (0 ≤ _lastIndex s)%Z ∧
    _fontAtlases s !! Z.to_nat (_lastIndex s) = Some fa ∧
    ci' = {| w := w ci; h := h ci; xAdvance := xAdvance ci; ascent := ascent ci;
             descent := descent ci; index := _lastIndex s; data := data ci |} ∧
    _fontAtlases s'
      = <[Z.to_nat (_lastIndex s):=FontAtlas_addCharInfo fa char ci']>
          (_fontAtlases s) ∧
    _lastIndex s' = _lastIndex s.
Proof.
  unfold _addCharInfo. destruct (atlas_at _ _) as [fa|] eqn:Hfa; simpl;
    intros; simplify_eq. simpl.
  apply atlas_at_Some in Hfa as [? Hfa]. by exists fa.
Qed.

Lemma _addCharInfo_found s char ci s' ci' :
  _getCharInfo s char = None → _addCharInfo s char ci = Some (s', ci') →
  _getCharInfo s' char = Some ci'.
Proof.
  intros Hnone Hadd.
  destruct (_addCharInfo_unfold _ _ _ _ _ Hadd) as (fa & Hpos & Hfa & _ & Hpages & _).
  unfold _getCharInfo in *. rewrite Hpages.
  eapply (scan_pages_first _ _ (Z.to_nat (_lastIndex s))).
  - apply list_lookup_insert_eq. by eapply lookup_lt_Some.
  - simpl. by rewrite lookup_insert_eq.
  - intros j fb Hj Hfb. rewrite list_lookup_insert_ne in Hfb by lia.
    by eapply scan_pages_None.
Qed.

Lemma _addCharInfo_other s other ci s' ci' char :
  other ≠ char → _addCharInfo s other ci = Some (s', ci') →
  Forall2 (λ fa fa', _charInfoMap fa !! char = _charInfoMap fa' !! char ∧
                     texture fa = texture fa')
    (_fontAtlases s) (_fontAtlases s').
Proof.
  intros Hne Hadd.
  destruct (_addCharInfo_unfold _ _ _ _ _ Hadd) as (fa & Hpos & Hfa & _ & Hpages & _).
  rewrite Hpages. rewrite <-(list_insert_id _ _ _ Hfa) at 1.
  apply Forall2_insert.
  - by apply Forall_Forall2_diag, Forall_true.
  - simpl. by rewrite lookup_insert_ne.
Qed.

(** An upload moves the cursor forward, if at all. *)
Lemma _uploadCharTexture_forward s ci s' ci' :
  _uploadCharTexture s ci = Some (s', ci') → (_lastIndex s ≤ _lastIndex s')%Z.
Proof.
  intros Hrun. destruct (_uploadCharTexture_target _ _ _ _ Hrun) as [fa Hfa].
  rewrite (_uploadCharTexture_unfold s ci fa Hfa) in Hrun. simpl in Hrun.
  assert (_lastIndex s ≤ (first_target s).2)%Z.
  { unfold SubFont.first_target. case_decide; simpl; lia. }
  destruct (upload fa ci).2; simplify_eq; simpl; lia.
Qed.

(** Through uploads and registrations of other characters, every page
    keeps its place, its texture and what it holds for [char]; the
    lookup of [char] keeps its answer and the cursor does not go back. *)
Lemma later_others_pages char s1 s2 :
  later_others emptyPage place char s1 s2 →
  (∀ i fa, _fontAtlases s1 !! i = Some fa →
     ∃ fa', _fontAtlases s2 !! i = Some fa' ∧
            _charInfoMap fa' !! char = _charInfoMap fa !! char ∧
            texture fa' = texture fa) ∧
  _getCharInfo s2 char = _getCharInfo s1 char ∧
  (_lastIndex s1 ≤ _lastIndex s2)%Z.
Proof.
  induction 1 as [s|s1 s2 ci s3 ci' _ IH Hup|s1 s2 other ci s3 ci' _ IH Hne Hadd].
  - split_and!; [|done|lia]. intros i fa Hi. by exists fa.
  - destruct IH as (Hpages & Hfind & Hcur). split_and!.
    + intros i fa Hi. destruct (Hpages i fa Hi) as (fa2 & Hi2 & Hm2 & Ht2).
      destruct (_uploadCharTexture_grow _ _ _ _ Hup i fa2 Hi2)
        as (fa3 & Hi3 & Ht3 & _).
      exists fa3. split_and!; [done| |congruence].
      destruct (_uploadCharTexture_maps _ _ _ _ Hup) as (more & Hm & _).
      assert ((_charInfoMap <$> _fontAtlases s3) !! i = Some (_charInfoMap fa2))
        as Hmi.
      { rewrite Hm. apply lookup_app_l_Some. by rewrite list_lookup_fmap, Hi2. }
      rewrite list_lookup_fmap, Hi3 in Hmi. simpl in Hmi.
      injection Hmi as ->. done.
    + rewrite <-Hfind.
      destruct (_uploadCharTexture_maps _ _ _ _ Hup) as (more & Hm & Hall).
      unfold _getCharInfo. by eapply scan_pages_more_empty.
    + pose proof (_uploadCharTexture_forward _ _ _ _ Hup). lia.
  - destruct IH as (Hpages & Hfind & Hcur).
    pose proof (_addCharInfo_other _ _ _ _ _ char Hne Hadd) as Hsame.
    destruct (_addCharInfo_unfold _ _ _ _ _ Hadd) as (_ & _ & _ & _ & _ & Hl).
    split_and!.
    + intros i fa Hi. destruct (Hpages i fa Hi) as (fa2 & Hi2 & Hm2 & Ht2).
      destruct (Forall2_lookup_l _ _ _ _ _ Hsame Hi2) as (fa3 & Hi3 & Hm3 & Ht3).
      exists fa3. split_and!; [done|congruence|congruence].
    + rewrite <-Hfind. unfold _getCharInfo. symmetry.
      apply scan_pages_agree. eapply Forall2_impl; [exact Hsame|].
      by intros ?? [? _].
    + lia.
Qed.

(** C7.  An upload on a sub-font whose cursor is on its last page goes to
    the cursor's page (the first page is made on the first upload).  It
    adds one page to the list when that page refuses the glyph, and none
    when it accepts it; the added page is a fresh page on which the upload
    was tried again, once.  A character that was registered is found by
    [_getCharInfo] after any further uploads and registrations: the
    lookup goes through the pages in order and returns what the first
    page that knows the character holds, a page no later than the one
    of the registration.  And when the character was not known before
    and is not registered again, what the lookup returns is the glyph
    of the registration, stamped with the page it lives on, at every
    later time, whether or not the cursor has moved on. *)
Theorem upload_adds_one_page_per_failure :
  (∀ s ci, cursor_on_last s →
     ∃ s' ci' cursorPage,
       _uploadCharTexture s ci = Some (s', ci') ∧
       atlas_at (_fontAtlases (first_target s).1) (first_target s).2
         = Some cursorPage ∧
       length (_fontAtlases s')
         = length (_fontAtlases s)
           + (if decide (_lastIndex s = -1)%Z then 1 else 0)
           + (if (upload cursorPage ci).2 then 0 else 1) ∧
       ((upload cursorPage ci).2 = false →
        last (_fontAtlases s')
          = Some (upload (FontAtlas_new emptyPage
                    {| width := 256; height := 256;
                       instanceId :=
                         S (_instanceIdCounter (first_target s).1) |})
                    ci).1)) ∧
  (∀ s char ci s1 ci1 s2,
     _addCharInfo s char ci = Some (s1, ci1) → later s1 s2 →
     ∃ i page found,
       _getCharInfo s2 char = Some found ∧
       _fontAtlases s2 !! i = Some page ∧
       _charInfoMap page !! char = Some found ∧
       (∀ j earlier, j < i → _fontAtlases s2 !! j = Some earlier →
                     _charInfoMap earlier !! char = None) ∧
       (Z.of_nat i ≤ _lastIndex s)%Z) ∧
  (∀ s char ci s1 ci1 s2,
     _getCharInfo s char = None →
     _addCharInfo s char ci = Some (s1, ci1) →
     later_others emptyPage place char s1 s2 →
     ci1 = {| w := w ci; h := h ci; xAdvance := xAdvance ci;
              ascent := ascent ci; descent := descent ci;
              index := _lastIndex s; data := data ci |} ∧
     _getCharInfo s2 char = Some ci1 ∧
     (index ci1 ≤ _lastIndex s2)%Z ∧
     ∃ page, atlas_at (_fontAtlases s2) (index ci1) = Some page ∧
             _charInfoMap page !! char = Some ci1 ∧
             _getTextureByIndex s2 (index ci1) = Some (texture page)).
Proof.
  split_and!.
  - intros s ci Hc.
    destruct (first_target_spec s Hc) as (fa & Hfa & Hcur & Hpos).
    rewrite (_uploadCharTexture_unfold s ci fa Hfa). simpl.
    eexists _, _, fa. split_and!; [done..| |].
    + rewrite <-first_target_length.
      destruct (upload fa ci).2; simpl; unfold atlas_put.
      * rewrite length_insert. lia.
      * rewrite length_app, length_insert; simpl. lia.
    + intros Hfail. rewrite Hfail. simpl. unfold atlas_put.
      by rewrite last_snoc.
  - intros s char ci s1 ci1 s2 Hadd Hlater.
    destruct (_addCharInfo_unfold _ _ _ _ _ Hadd)
      as (fa & Hpos & Hfa & _ & Hpages & _).
    assert (Hk : ∃ fa1, _fontAtlases s1 !! Z.to_nat (_lastIndex s) = Some fa1 ∧
                        is_Some (_charInfoMap fa1 !! char)).
    { eexists. rewrite Hpages. split.
      - apply list_lookup_insert_eq. by eapply lookup_lt_Some.
      - simpl. rewrite lookup_insert_eq. eauto. }
    destruct Hk as (fa1 & Hfa1 & Hknows).
    destruct (later_grow _ _ Hlater _ _ Hfa1) as (fa2 & Hfa2 & _ & Hm2).
    specialize (Hm2 char Hknows).
    assert (is_Some (scan_pages (_fontAtlases s2) char)) as [found Hfound].
    { apply scan_pages_is_Some. eauto. }
    destruct (scan_pages_first_page _ _ _ Hfound) as (i & page & Hi & Hc & Hnone).
    exists i, page, found. split_and!; [done..|].
    destruct (decide (i ≤ Z.to_nat (_lastIndex s))); [lia|].
    rewrite (Hnone (Z.to_nat (_lastIndex s)) fa2) in Hm2 by (done || lia).
    by destruct Hm2.
  - intros s char ci s1 ci1 s2 Hnone Hadd Hlater.
    destruct (_addCharInfo_unfold _ _ _ _ _ Hadd)
      as (fa & Hpos & Hfa & Hci1 & Hpages & Hl).
    destruct (later_others_pages char s1 s2 Hlater) as (Hkeep & Hfind & Hcur).
    assert (Hindex : index ci1 = _lastIndex s) by (by rewrite Hci1).
    split_and!; [done| |lia|].
    + rewrite Hfind. by eapply _addCharInfo_found.
    + destruct (Hkeep (Z.to_nat (_lastIndex s))
                  (FontAtlas_addCharInfo fa char ci1))
        as (page & Hpage & Hmap & _).
      { rewrite Hpages. apply list_lookup_insert_eq. by eapply lookup_lt_Some. }
      simpl in Hmap. rewrite lookup_insert_eq in Hmap.
      assert (Hat : atlas_at (_fontAtlases s2) (index ci1) = Some page).
      { apply atlas_at_Some. rewrite Hindex. done. }
      exists page. split_and!; [done..|].
      unfold _getTextureByIndex. by rewrite Hat.
Qed.

Lemma _uploadCharTexture_cursor s ci s' ci' :
  cursor_on_last s → _uploadCharTexture s ci = Some (s', ci') →
  cursor_on_last s' ∧
  ∀ i, Z.of_nat i ≠ _lastIndex s' →
    uploaded <$> _fontAtlases s' !! i = uploaded <$> _fontAtlases s !! i ∨
    (_fontAtlases s !! i = None ∧
     uploaded <$> _fontAtlases s' !! i = Some []).
Proof.
  intros Hc Hrun.
  destruct (first_target_spec s Hc) as (fa & Hfa & Hcur & Hpos).
  rewrite (_uploadCharTexture_unfold s ci fa Hfa) in Hrun. simpl in Hrun.
  apply atlas_at_Some in Hfa as [_ Hfa].
  revert Hfa Hcur Hpos Hrun. unfold first_target, cursor_on_last in *.
  pose proof (upload_uploaded fa ci) as Hupl.
  destruct (decide (_lastIndex s = -1)%Z) as [Hl|Hl]; simpl.
  - assert (_fontAtlases s = []) as Hnil.
    { destruct (_fontAtlases s); [done|]. simpl in Hc. lia. }
    rewrite Hnil, Hl. simpl. intros ? _ _. simplify_eq. simpl in Hupl.
    destruct (upload _ ci).2 eqn:Hok; intros; simplify_eq; simpl.
    + split; [done|]. intros [|i] ?; [lia|]. by left.
    + split; [done|]. intros [|[|i]] ?; [|lia|by left].
      right. split; [done|]. simpl. by rewrite Hupl.
  - intros Hfa Hcur Hpos.
    destruct (upload fa ci).2 eqn:Hok; intros; simplify_eq; simpl.
    + unfold atlas_put. rewrite length_insert. split; [done|].
      intros i ?. left. rewrite list_lookup_insert_ne; [done|lia].
    + unfold atlas_put. rewrite length_app, length_insert. simpl.
      split; [lia|]. intros i Hi. left.
      destruct (decide (i = Z.to_nat (_lastIndex s))) as [->|].
      * rewrite lookup_app_l by (rewrite length_insert; lia).
        rewrite list_lookup_insert_eq by lia. rewrite Hfa. simpl.
        by rewrite Hupl.
      * destruct (decide (i < length (_fontAtlases s))).
        -- rewrite lookup_app_l by (rewrite length_insert; lia).
           by rewrite list_lookup_insert_ne.
        -- rewrite !lookup_ge_None_2; [done|lia|].
           rewrite length_app, length_insert; simpl. lia.
Qed.

Lemma _addCharInfo_pages s char ci s' ci' :
  _addCharInfo s char ci = Some (s', ci') →
  _lastIndex s' = _lastIndex s ∧
  length (_fontAtlases s') = length (_fontAtlases s) ∧
  _fontAtlases s ≠ [].
Proof.
  unfold _addCharInfo. destruct (atlas_at _ _) as [fa|] eqn:Hfa; simpl;
    intros; simplify_eq. simpl.
  apply atlas_at_Some in Hfa as [_ Hfa]. unfold atlas_put.
  rewrite length_insert. split_and!; [done..|].
  intros Hnil. by rewrite Hnil in Hfa.
Qed.

Lemma _uploadCharTexture_no_pages s ci s' ci' :
  _fontAtlases s = [] → _uploadCharTexture s ci = Some (s', ci') →
  cursor_on_last s.
Proof.
  intros Hnil Hrun.
  destruct (_uploadCharTexture_target _ _ _ _ Hrun) as [fa Hfa].
  unfold cursor_on_last, first_target in *. rewrite Hnil. simpl.
  destruct (decide (_lastIndex s = -1)%Z) as [->|]; [done|].
  simpl in Hfa. rewrite Hnil in Hfa.
  apply atlas_at_Some in Hfa as [_ Hfa]. done.
Qed.

Lemma reachable_inv s : reachable s → reach_inv s.
Proof.
  induction 1 as [c|s ci s' ci' _ IH Hrun|s char ci s' ci' _ IH Hrun|s _ _].
  - by left.
  - left. destruct IH as [Hc|Hnil].
    + by eapply _uploadCharTexture_cursor.
    + eapply _uploadCharTexture_cursor; [|done].
      by eapply _uploadCharTexture_no_pages.
  - destruct (_addCharInfo_pages _ _ _ _ _ Hrun) as (Hl & Hlen & Hne).
    destruct IH as [Hc|Hnil]; [|done]. left.
    unfold cursor_on_last in *. by rewrite Hl, Hlen.
  - by right.
Qed.

(** C9, amended.  On a sub-font reached from a new one by the class's
    methods, every upload that returns leaves the cursor on the last
    page; the pages that were there are still there, at their places and
    with their textures; no glyph went to a page other than the
    cursor's.  When the cursor's page or else the fresh page took the
    glyph, the glyph is on the page the cursor is left on.  The
    registration that follows stamps the glyph with the cursor and
    enters it in the map of that same page, and [_getTextureByIndex] at
    the stamp gives the texture of that page. *)
Theorem cursor_is_last_page_after_upload s ci s' ci' :
  reachable s → _uploadCharTexture s ci = Some (s', ci') →
  cursor_on_last s' ∧
  pages_grow (_fontAtlases s) (_fontAtlases s') ∧
  (∀ i, Z.of_nat i ≠ _lastIndex s' →
     uploaded <$> _fontAtlases s' !! i = uploaded <$> _fontAtlases s !! i ∨
     (_fontAtlases s !! i = None ∧
      uploaded <$> _fontAtlases s' !! i = Some [])) ∧
  ∃ page,
    atlas_at (_fontAtlases s') (_lastIndex s') = Some page ∧
    (∀ cursorPage,
       atlas_at (_fontAtlases (first_target s).1) (first_target s).2
         = Some cursorPage →
       (upload cursorPage ci).2 = true ∨ (place emptyPage ci).2 = true →
       uploaded page
       = ci :: (if (upload cursorPage ci).2 then uploaded cursorPage else [])) ∧
    ∀ char, ∃ s'' ci'',
      _addCharInfo s' char ci' = Some (s'', ci'') ∧
      index ci'' = _lastIndex s' ∧
      atlas_at (_fontAtlases s'') (index ci'')
        = Some (FontAtlas_addCharInfo page char ci'') ∧
      _getTextureByIndex s'' (index ci'') = Some (texture page).
Proof.
  intros Hreach Hrun.
  assert (cursor_on_last s) as Hc.
  { destruct (reachable_inv s Hreach) as [Hc|Hnil]; [done|].
    by eapply _uploadCharTexture_no_pages. }
  destruct (_uploadCharTexture_cursor s ci s' ci' Hc Hrun) as [Hc' Hup].
  split_and!; [done|by eapply _uploadCharTexture_grow|done|].
  destruct (first_target_spec s Hc) as (fa & Hfa & Hcur & Hpos).
  assert (0 ≤ _lastIndex s')%Z as Hpos'.
  { rewrite (_uploadCharTexture_unfold s ci fa Hfa) in Hrun. simpl in Hrun.
    destruct (upload fa ci).2; simplify_eq; simpl; lia. }
  destruct (lookup_lt_is_Some_2 (_fontAtlases s') (Z.to_nat (_lastIndex s')))
    as [page Hpage]; [unfold cursor_on_last in Hc'; lia|].
  assert (atlas_at (_fontAtlases s') (_lastIndex s') = Some page) as Hat.
  { apply atlas_at_Some. done. }
  exists page. split_and!; [done| |].
  - intros cursorPage Hcursor Htaken. rewrite Hfa in Hcursor.
    injection Hcursor as <-.
    rewrite (_uploadCharTexture_unfold s ci fa Hfa) in Hrun. simpl in Hrun.
    apply atlas_at_Some in Hfa as [_ Hfa].
    pose proof (upload_uploaded fa ci) as Hupl.
    destruct (upload fa ci).2 eqn:Hok.
    + simplify_eq. simpl in Hpage. unfold atlas_put in Hpage.
      rewrite list_lookup_insert_eq in Hpage by (by eapply lookup_lt_Some).
      by simplify_eq.
    + destruct Htaken as [?|Hfresh]; [done|].
      simplify_eq. simpl in Hpage. unfold atlas_put in Hpage.
      rewrite lookup_app_r in Hpage by (rewrite length_insert; lia).
      rewrite length_insert in Hpage.
      replace (Z.to_nat ((first_target s).2 + 1)
               - length (_fontAtlases (first_target s).1)) with 0 in Hpage
        by lia.
      simpl in Hpage. simplify_eq.
      rewrite upload_uploaded. unfold FontAtlas_uploadCharTexture. simpl.
      destruct (place emptyPage ci) as [p ok]. simpl in *. by subst.
  - intros char. unfold _addCharInfo, _getTextureByIndex. rewrite Hat. simpl.
    eexists _, _. split_and!; [done..| |]; simpl.
    + unfold atlas_at, atlas_put. case_decide; [|lia].
      rewrite list_lookup_insert_eq by (by eapply lookup_lt_Some). done.
    + unfold atlas_at, atlas_put. case_decide; [|lia].
      rewrite list_lookup_insert_eq by (by eapply lookup_lt_Some). done.
Qed.

Lemma upload_returns s ci :
  cursor_on_last s → is_Some (_uploadCharTexture s ci).
Proof.
  intros Hc. destruct (first_target_spec s Hc) as (fa & Hfa & _).
  rewrite (_uploadCharTexture_unfold s ci fa Hfa). eauto.
Qed.
End AtlasProofs.

Section Placing.
Context {Packing : Type}.
Variable emptyPage : Packing.
Variable place : Packing → CharInfo → Packing * bool.

Local Abbreviation place_glyph := (place_glyph emptyPage place).
Local Abbreviation place_glyphs := (place_glyphs emptyPage place).

Lemma place_glyphs_later glyphs :
  ∀ s0 s s', later emptyPage place s0 s → place_glyphs s glyphs = Some s' →
             later emptyPage place s0 s'.
Proof.
  induction glyphs as [|[char ci] glyphs IH]; intros s0 s s' Hl Hrun; simpl in Hrun.
  - by simplify_eq.
  - unfold place_glyph in Hrun. simpl in Hrun.
    destruct (_uploadCharTexture _ _ s ci) as [[s1 ci1]|] eqn:Hup; [|done].
    simpl in Hrun.
    destruct (_addCharInfo s1 char ci1) as [[s2 ci2]|] eqn:Hadd; [|done].
    simpl in Hrun. eapply IH; [|done].
    eapply later_add; [|done]. eapply later_upload; done.
Qed.

Lemma place_glyphs_later_others char glyphs :
  Forall (λ glyph, glyph.1 ≠ char) glyphs →
  ∀ s0 s s', later_others emptyPage place char s0 s →
             place_glyphs s glyphs = Some s' →
             later_others emptyPage place char s0 s'.
Proof.
  induction 1 as [|[other ci] glyphs Hne _ IH]; intros s0 s s' Hl Hrun;
    simpl in Hrun.
  - by simplify_eq.
  - unfold place_glyph in Hrun. simpl in Hrun.
    destruct (_uploadCharTexture _ _ s ci) as [[s1 ci1]|] eqn:Hup; [|done].
    simpl in Hrun.
    destruct (_addCharInfo s1 other ci1) as [[s2 ci2]|] eqn:Hadd; [|done].
    simpl in Hrun. eapply IH; [|done].
    eapply later_others_add; [|exact Hne|done].
    eapply later_others_upload; done.
Qed.

Lemma later_reachable s s' :
  reachable emptyPage place s → later emptyPage place s s' →
  reachable emptyPage place s'.
Proof.
  intros Hr Hl.
  induction Hl as [|s1 s2 ci s3 ci' _ IH Hup|s1 s2 char ci s3 ci' _ IH Hadd].
  - done.
  - eapply reach_upload; [by apply IH|exact Hup].
  - eapply reach_add; [by apply IH|exact Hadd].
Qed.
End Placing.

Lemma two_glyphs_placed :
  place_glyphs 0 two_per_page (SubFont_new 0) [glyph "a" 1; glyph "b" 2]
  = Some two_glyphs.
Proof. vm_compute. reflexivity. Qed.

Lemma five_glyphs_placed :
  place_glyphs 0 two_per_page two_glyphs [glyph "c" 3; glyph "d" 4; glyph "e" 5]
  = Some five_glyphs.
Proof. vm_compute. reflexivity. Qed.

Lemma two_glyphs_reachable : reachable 0 two_per_page two_glyphs.
Proof.
  eapply later_reachable; [apply (reach_new _ _ 0)|].
  eapply place_glyphs_later; [apply later_refl|apply two_glyphs_placed].
Qed.

Lemma first_registered_later :
  later 0 two_per_page first_registered.1 five_glyphs.
Proof.
  eapply (place_glyphs_later 0 two_per_page
            [glyph "b" 2; glyph "c" 3; glyph "d" 4; glyph "e" 5]);
    [apply later_refl|].
  vm_compute. reflexivity.
Qed.

Lemma first_registered_later_others :
  later_others 0 two_per_page "a" first_registered.1 five_glyphs.
Proof.
  eapply (place_glyphs_later_others 0 two_per_page "a"
            [glyph "b" 2; glyph "c" 3; glyph "d" 4; glyph "e" 5]).
  - repeat constructor; discriminate.
  - apply later_others_refl.
  - vm_compute. reflexivity.
Qed.

(** C9 as stated fails when no page takes the glyph.  A new sub-font
    whose pages take glyphs of at most 256 by 256 is given a glyph of
    300 by 320: the first page refuses it, a second page is made and
    refuses it too, which the upload does not look at, and the cursor
    goes to the second page.  The registration stamps the glyph with 1,
    and [_getTextureByIndex] at 1 returns the texture of the second
    page; but the glyph was written to no page. *)
Lemma stamped_page_lacks_oversized_glyph :
  _uploadCharTexture 0 two_that_fit (SubFont_new 0) oversized.2
    = Some oversized_uploaded ∧
  cursor_on_last oversized_uploaded.1 ∧
  _addCharInfo oversized_uploaded.1 oversized.1 oversized_uploaded.2
    = Some oversized_registered ∧
  index oversized_registered.2 = 1%Z ∧
  _getTextureByIndex oversized_registered.1 (index oversized_registered.2)
    = Some {| width := 256; height := 256; instanceId := 2 |} ∧
  Forall (λ page, uploaded page = []) (_fontAtlases oversized_registered.1) ∧
  ¬ ∃ page,
      atlas_at (_fontAtlases oversized_registered.1)
        (index oversized_registered.2) = Some page ∧
      oversized.2 ∈ uploaded page.
Proof.
  split_and!; [reflexivity..| |].
  - repeat constructor.
  - intros (page & Hpage & Hin). vm_compute in Hpage.
    injection Hpage as <-. simpl in Hin. by apply elem_of_nil in Hin.
Qed.

Lemma upload_adds_one_page_per_failure_witness :
  (∃ s' ci', _uploadCharTexture 0 two_per_page two_glyphs (glyph "c" 3).2
               = Some (s', ci') ∧
             length (_fontAtlases s') = 2) ∧
  (∃ found, _getCharInfo five_glyphs "a" = Some found) ∧
  _getCharInfo five_glyphs "a" = Some first_registered.2.
Proof.
  destruct (upload_adds_one_page_per_failure 0 two_per_page)
    as (Hupload & Hfind & Hexact).
  split_and!.
  - destruct (Hupload two_glyphs (glyph "c" 3).2)
      as (s' & ci' & page & Hrun & Hpage & Hlen & _); [reflexivity|].
    exists s', ci'. split; [exact Hrun|].
    vm_compute in Hpage. injection Hpage as <-. exact Hlen.
  - destruct (Hfind first_uploaded.1 "a" first_uploaded.2
                first_registered.1 first_registered.2 five_glyphs)
      as (i & page & found & Hfound & _).
    + vm_compute. reflexivity.
    + apply first_registered_later.
    + exists found. exact Hfound.
  - apply (Hexact first_uploaded.1 "a" first_uploaded.2
             first_registered.1 first_registered.2 five_glyphs).
    + vm_compute. reflexivity.
    + vm_compute. reflexivity.
    + apply first_registered_later_others.
Defined.

Lemma cursor_is_last_page_after_upload_witness :
  cursor_on_last third_uploaded.1 ∧
  ∃ page,
    atlas_at (_fontAtlases third_uploaded.1) (_lastIndex third_uploaded.1)
      = Some page ∧
    uploaded page = [(glyph "c" 3).2].
Proof.
  destruct (cursor_is_last_page_after_upload 0 two_per_page two_glyphs
              (glyph "c" 3).2 third_uploaded.1 third_uploaded.2)
    as (Hcursor & _ & _ & page & Hpage & Hplaced & _).
  - apply two_glyphs_reachable.
  - vm_compute. reflexivity.
  - split; [exact Hcursor|]. exists page. split; [exact Hpage|].
    refine (Hplaced _ eq_refl _). right. reflexivity.
Defined.

End SubFontProofs.

(** ** TextRenderer: setters and the render guard *)

Module TextRendererProofs.
Import TextRenderer.

Section RendererProofs.
Context {CharRenderData SubFont Font Color : Type}.
Context `{EqDecision Font}.
Local Abbreviation TextRenderer :=
  (@TextRenderer CharRenderData SubFont Font Color).
Implicit Types r : TextRenderer.

Lemma or_empty_Str s : or_empty (Str s) = s.
Proof. simpl. by case_decide. Qed.

Lemma text_after_empty r :
  _text (if decide (_text r ≠ String.EmptyString)
         then _setDirtyFlagTrue (with_text r String.EmptyString) DirtyFlag.Position
         else r) = String.EmptyString.
Proof.
  case_decide as Hne.
  - by destruct r.
  - by destruct (decide (_text r = String.EmptyString)).
Qed.

(** C10.  Assigning [null] or [undefined] to [text] stores the empty
    string; assigning to one of the eleven properties the value it holds
    leaves the renderer as it was, dirty flags included. *)
Theorem setters_keep_equal_values r :
  _text (set_text r Null) = String.EmptyString ∧
  _text (set_text r Undefined) = String.EmptyString ∧
  set_text r (Str (_text r)) = r ∧
  set_width r (_width r) = r ∧
  set_height r (_height r) = r ∧
  set_fontSize r (_fontSize r) = r ∧
  set_fontStyle r (_fontStyle r) = r ∧
  set_lineSpacing r (_lineSpacing r) = r ∧
  set_horizontalAlignment r (_horizontalAlignment r) = r ∧
  set_verticalAlignment r (_verticalAlignment r) = r ∧
  set_enableWrapping r (_enableWrapping r) = r ∧
  set_overflowMode r (_overflowMode r) = r ∧
  set_maskInteraction r (_maskInteraction r) = r.
Proof.
  split_and!.
  - apply text_after_empty.
  - apply text_after_empty.
  - unfold set_text. rewrite or_empty_Str. by case_decide.
  - unfold set_width. by case_decide.
  - unfold set_height. by case_decide.
  - unfold set_fontSize. by case_decide.
  - unfold set_fontStyle. by case_decide.
  - unfold set_lineSpacing. by case_decide.
  - unfold set_horizontalAlignment. by case_decide.
  - unfold set_verticalAlignment. by case_decide.
  - unfold set_enableWrapping. by case_decide.
  - unfold set_overflowMode. by case_decide.
  - unfold set_maskInteraction. by case_decide.
Qed.

Variable Font_getSubFont : Font → Z → Z → SubFont.
Variable _updateLocalData : TextRenderer → TextRenderer.
Variable _updatePosition : TextRenderer → TextRenderer.
Local Abbreviation _render :=
  (_render Font_getSubFont _updateLocalData _updatePosition).

(** C8.  When the text is empty, or wrapping is on and the width is not
    positive, or the overflow mode is [Truncate] and the height is not
    positive, [_render] returns with the renderer and the pipeline as they
    were. *)
Theorem render_nothing r pipeline :
  nothing_to_render r → _render r pipeline = Some (r, pipeline).
Proof.
  unfold nothing_to_render, TextRenderer._render.
  intros [Htext|[[Hwrap Hw]|[Hover Hh]]].
  - by rewrite bool_decide_eq_true_2.
  - rewrite Hwrap, (bool_decide_eq_true_2 (_width r ≤ 0)%Z) by done.
    by rewrite orb_true_r.
  - rewrite (bool_decide_eq_true_2 (_overflowMode r = _)) by done.
    rewrite (bool_decide_eq_true_2 (_height r ≤ 0)%Z) by done.
    by rewrite orb_true_r.
Qed.

(** Otherwise, with a font at hand, one text element is pushed. *)
Lemma render_something r pipeline :
  ¬ nothing_to_render r → is_Some (_font r) →
  ∃ r' element, _render r pipeline = Some (r', pipeline ++ [element]).
Proof.
  unfold nothing_to_render, TextRenderer._render. intros Hnot [font Hfont].
  rewrite bool_decide_eq_false_2 by tauto. simpl.
  destruct (_enableWrapping r) eqn:Hwrap; simpl.
  - rewrite bool_decide_eq_false_2 by tauto. simpl.
    destruct (bool_decide (_overflowMode r = _)) eqn:Hover; simpl.
    + apply bool_decide_eq_true in Hover.
      rewrite bool_decide_eq_false_2 by tauto.
      set (r1 := if _isContainDirtyFlag r _ then _ else r).
      assert (_font r1 = Some font) as Hf1.
      { unfold r1. destruct (_isContainDirtyFlag r _); [|done]. by destruct r. }
      unfold _resetSubFont. rewrite Hf1. simpl.
      destruct (_isContainDirtyFlag r1 _); simpl; eauto.
    + set (r1 := if _isContainDirtyFlag r _ then _ else r).
      assert (_font r1 = Some font) as Hf1.
      { unfold r1. destruct (_isContainDirtyFlag r _); [|done]. by destruct r. }
      unfold _resetSubFont. rewrite Hf1. simpl.
      destruct (_isContainDirtyFlag r1 _); simpl; eauto.
  - destruct (bool_decide (_overflowMode r = _)) eqn:Hover; simpl.
    + apply bool_decide_eq_true in Hover.
      rewrite bool_decide_eq_false_2 by tauto.
      set (r1 := if _isContainDirtyFlag r _ then _ else r).
      assert (_font r1 = Some font) as Hf1.
      { unfold r1. destruct (_isContainDirtyFlag r _); [|done]. by destruct r. }
      unfold _resetSubFont. rewrite Hf1. simpl.
      destruct (_isContainDirtyFlag r1 _); simpl; eauto.
    + set (r1 := if _isContainDirtyFlag r _ then _ else r).
      assert (_font r1 = Some font) as Hf1.
      { unfold r1. destruct (_isContainDirtyFlag r _); [|done]. by destruct r. }
      unfold _resetSubFont. rewrite Hf1. simpl.
      destruct (_isContainDirtyFlag r1 _); simpl; eauto.
Qed.
End RendererProofs.

Lemma render_nothing_witness :
  _render (λ font size style, font + Z.to_nat size + Z.to_nat style)
    (λ r, r) (λ r, r) wrapped_without_width [] = Some (wrapped_without_width, []).
Proof.
  apply (render_nothing (λ font size style, font + Z.to_nat size + Z.to_nat style)
           (λ r, r) (λ r, r) wrapped_without_width []).
  right. left. split; [reflexivity|simpl; lia].
Defined.

End TextRendererProofs.

(** ** RenderQueue: the sort under any comparator, ranges and stability *)

Module SortExtras.
Import RenderQueue SortProofs.

Section AnyComparator.
Context {T : Type}.
Variable compareFunc : T → T → Z.
Implicit Types a b : list T.

Ltac do_asets :=
  repeat (rewrite aset_Some by (rewrite ?length_insert; lia); simpl).

(** The partition keeps its indices in range and only swaps, whatever the
    comparator answers. *)
Lemma partition_safe pivot from to n :
  ∀ a low_end high_start i,
    from < low_end → low_end < i → i ≤ high_start → high_start < to →
    to ≤ length a → high_start - i ≤ n →
    ∃ a' low_end' high_start',
      partition compareFunc n a pivot low_end high_start i
        = Some (a', low_end', high_start') ∧
      range_perm a a' from to ∧
      from < low_end' ∧ low_end' < high_start' ∧ high_start' < to.
Proof.
  induction n as [|n IH]; intros a low_end high_start i ??????.
  { simpl. case_decide; [lia|].
    eexists _, _, _; split_and!; [done|apply range_perm_refl|lia..]. }
  simpl. case_decide as Hlt.
  2:{ eexists _, _, _; split_and!; [done|apply range_perm_refl|lia..]. }
  destruct (lookup_lt_is_Some_2 a i) as [e He]; [lia|].
  destruct (lookup_lt_is_Some_2 a low_end) as [x Hx]; [lia|].
  rewrite He; simpl. case_decide as Hneg; [|case_decide as Hpos].
  - rewrite Hx; simpl. do_asets.
    edestruct (IH (<[low_end:=e]> (<[i:=x]> a)) (S low_end) high_start (S i))
      as (a' & le' & hs' & -> & Hrp & ? & ? & ?);
      [lia|lia|lia|lia|rewrite !length_insert; lia|lia|].
    eexists _, _, _; split_and!; [done| |lia..].
    eapply range_perm_trans; [|exact Hrp].
    apply swap_range_perm; [done|done|lia..].
  - destruct (scan_down_spec compareFunc a pivot i high_start)
      as (r & -> & Hr); [lia|lia|].
    simpl. destruct r as [|h o].
    + eexists _, _, _; split_and!; [done|apply range_perm_refl|lia..].
    + destruct Hr as (? & ? & (top & Htop & ->) & Hnpos & Hgt).
      rewrite Htop; simpl. do_asets.
      assert (Hrp1 : range_perm a (<[h:=e]> (<[i:=top]> a)) from to).
      { apply swap_range_perm; [done|done|lia..]. }
      case_decide as Hneg2.
      * assert (E1 : <[h:=e]> (<[i:=top]> a) !! i = Some top).
        { rewrite list_lookup_insert_ne by lia. apply list_lookup_insert_eq. lia. }
        assert (E2 : <[h:=e]> (<[i:=top]> a) !! low_end = Some x).
        { by rewrite !list_lookup_insert_ne by lia. }
        rewrite E1; simpl. rewrite E2; simpl. do_asets.
        edestruct (IH (<[low_end:=top]> (<[i:=x]> (<[h:=e]> (<[i:=top]> a))))
                     (S low_end) h (S i))
          as (a' & le' & hs' & -> & Hrp & ? & ? & ?);
          [lia|lia|lia|lia|rewrite !length_insert; lia|lia|].
        eexists _, _, _; split_and!; [done| |lia..].
        eapply range_perm_trans; [exact Hrp1|].
        eapply range_perm_trans; [|exact Hrp].
        apply swap_range_perm; [done|done|lia..].
      * edestruct (IH (<[h:=e]> (<[i:=top]> a)) low_end h (S i))
          as (a' & le' & hs' & -> & Hrp & ? & ? & ?);
          [lia|lia|lia|lia|rewrite !length_insert; lia|lia|].
        eexists _, _, _; split_and!; [done| |lia..].
        eapply range_perm_trans; [exact Hrp1|exact Hrp].
  - edestruct (IH a low_end high_start (S i))
      as (a' & le' & hs' & -> & Hrp & ? & ? & ?); [lia..|].
    eexists _, _, _; split_and!; [done|done|lia..].
Qed.

(** The three values that [median3] returns are the three it was given. *)
Lemma median3_positions a p q r x0 x1 x2 u v w :
  p ≠ q → p ≠ r → q ≠ r →
  a !! p = Some x0 → a !! q = Some x1 → a !! r = Some x2 →
  median3 compareFunc x0 x1 x2 = (u, v, w) →
  ∃ su sv sw,
    a !! su = Some u ∧ a !! sv = Some v ∧ a !! sw = Some w ∧
    su ≠ sv ∧ su ≠ sw ∧ sv ≠ sw ∧
    (su = p ∨ su = q ∨ su = r) ∧ (sv = p ∨ sv = q ∨ sv = r) ∧
    (sw = p ∨ sw = q ∨ sw = r).
Proof.
  intros ??? Hp Hq Hr. unfold median3.
  repeat case_decide; intros; simplify_eq.
  - exists r, q, p. naive_solver.
  - exists q, r, p. naive_solver.
  - exists q, p, r. naive_solver.
  - exists r, p, q. naive_solver.
  - exists p, r, q. naive_solver.
  - exists p, q, r. naive_solver.
Qed.

Lemma plain_insertion_sort_perm (l : list T) :
  plain_insertion_sort compareFunc l ≡ₚ l.
Proof.
  unfold plain_insertion_sort. rewrite reverse_Permutation.
  assert (Hins : ∀ e rf, insert_back compareFunc e rf ≡ₚ e :: rf).
  { intros e rf. induction rf as [|tmp rf IH]; simpl; [done|].
    case_decide; [|done]. rewrite IH. apply Permutation_swap. }
  assert (Hfold : ∀ rf, foldl (λ rev_front element,
                                 insert_back compareFunc element rev_front) rf l
                        ≡ₚ rf ++ l).
  { induction l as [|e l IH]; intros rf; simpl; [by rewrite app_nil_r|].
    rewrite IH, Hins. simpl. apply Permutation_middle. }
  by rewrite Hfold.
Qed.

Lemma _insertionSort_safe a from to :
  from ≤ to → to ≤ length a →
  ∃ a', _insertionSort compareFunc a from to = Some a' ∧ range_perm a a' from to.
Proof.
  intros Hft Hlen.
  pose proof (_insertionSort_plain compareFunc (take from a)
                (take (to - from) (drop from a)) (drop to a)) as Hrun.
  assert (Ha : take from a ++ take (to - from) (drop from a) ++ drop to a = a).
  { replace (drop to a) with (drop (to - from) (drop from a))
      by (rewrite drop_drop; f_equal; lia).
    by rewrite !take_drop. }
  rewrite Ha in Hrun.
  rewrite length_take, length_take, length_drop in Hrun.
  replace (from `min` length a) with from in Hrun by lia.
  replace (from + (to - from) `min` (length a - from)) with to in Hrun by lia.
  eexists; split; [exact Hrun|]. split.
  - rewrite <-Ha at 1. by rewrite plain_insertion_sort_perm.
  - intros k Hk. rewrite <-Ha at 1.
    assert (Hl1 : length (take from a) = from) by (rewrite length_take; lia).
    assert (Hl2 : length (plain_insertion_sort compareFunc
                            (take (to - from) (drop from a))) = to - from).
    { rewrite (Permutation_length (plain_insertion_sort_perm _)).
      rewrite length_take, length_drop. lia. }
    assert (Hl3 : length (take (to - from) (drop from a)) = to - from).
    { rewrite length_take, length_drop. lia. }
    destruct Hk as [Hk|Hk].
    + by rewrite !lookup_app_l by lia.
    + rewrite !(lookup_app_r (take from a)) by lia.
      rewrite !lookup_app_r by lia. by rewrite Hl2, Hl3.
Qed.

Lemma _quickSort_safe fuel :
  ∀ a from to, from ≤ to → to ≤ length a → to - from < fuel →
    ∃ a', _quickSort compareFunc fuel a from to = Some a' ∧
          range_perm a a' from to.
Proof.
  induction fuel as [|fuel IH]; intros a from to Hft Hlen Hfuel; [lia|].
  simpl. case_decide as Hsmall.
  { by apply _insertionSort_safe. }
  pose proof (div2_bounds (from + to)) as Hthird.
  set (third := Nat.div2 (from + to)) in *.
  destruct (lookup_lt_is_Some_2 a from) as [x0 Hx0]; [lia|].
  destruct (lookup_lt_is_Some_2 a (to - 1)) as [x1 Hx1]; [lia|].
  destruct (lookup_lt_is_Some_2 a third) as [x2 Hx2]; [lia|].
  destruct (lookup_lt_is_Some_2 a (from + 1)) as [y Hy]; [lia|].
  rewrite Hx0, Hx1, Hx2; simpl.
  destruct (median3 compareFunc x0 x1 x2) as [[u v] w] eqn:Hmed.
  destruct (median3_positions a from (to - 1) third x0 x1 x2 u v w)
    as (su & sv & sw & Hsu & Hsv & Hsw & ? & ? & ? & ? & ? & ?);
    [lia|lia|lia|done..|].
  do_asets.
  rewrite !list_lookup_insert_ne by lia. rewrite Hy; simpl. do_asets.
  set (a1 := <[from + 1:=v]> (<[third:=y]> (<[to - 1:=w]> (<[from:=u]> a)))).
  assert (Hrp1 : range_perm a a1 from to).
  { split.
    - symmetry. eapply (median_writes a from (to - 1) third (from + 1) su sv sw);
        eauto; lia.
    - intros k Hk. unfold a1. rewrite !list_lookup_insert_ne; [done|lia..]. }
  assert (Hlen1 : length a1 = length a) by (unfold a1; by rewrite !length_insert).
  destruct (partition_safe v from to
              (to - 1 - (from + 1 + 1)) a1 (from + 1) (to - 1) (from + 1 + 1))
    as (a2 & le' & hs' & -> & Hrp2 & ? & ? & ?); [lia..|].
  simpl.
  assert (Hlen2 : length a2 = length a).
  { rewrite <-Hlen1. symmetry. by eapply range_perm_length. }
  case_decide.
  - destruct (IH a2 hs' to) as (a3 & -> & Hrp3); [lia..|]. simpl.
    assert (Hlen3 : length a3 = length a).
    { rewrite <-Hlen2. symmetry. by eapply range_perm_length. }
    destruct (IH a3 from le') as (a4 & -> & Hrp4); [lia..|].
    exists a4. split; [done|].
    eapply range_perm_trans; [exact Hrp1|].
    eapply range_perm_trans; [exact Hrp2|].
    eapply range_perm_trans; eapply range_perm_mono; eauto; lia.
  - destruct (IH a2 from le') as (a3 & -> & Hrp3); [lia..|]. simpl.
    assert (Hlen3 : length a3 = length a).
    { rewrite <-Hlen2. symmetry. by eapply range_perm_length. }
    destruct (IH a3 hs' to) as (a4 & -> & Hrp4); [lia..|].
    exists a4. split; [done|].
    eapply range_perm_trans; [exact Hrp1|].
    eapply range_perm_trans; [exact Hrp2|].
    eapply range_perm_trans; eapply range_perm_mono; eauto; lia.
Qed.

(** Elements of one class, any two of which the comparator lets stand in
    either order, keep their order in the insertion sort. *)
Lemma insert_back_filter (P : T → Prop) `{∀ x, Decision (P x)} e rf :
  (∀ x y, P x → P y → (compareFunc x y ≤ 0)%Z) →
  filter P (insert_back compareFunc e rf) = filter P (e :: rf).
Proof.
  intros Hclass. induction rf as [|tmp rf IH]; simpl; [done|].
  case_decide as Hgt; [|done].
  rewrite filter_cons, IH, !filter_cons.
  destruct (decide (P tmp)) as [Ht|Ht], (decide (P e)) as [He|He]; try done.
  specialize (Hclass tmp e Ht He). lia.
Qed.

Lemma plain_insertion_sort_filter (P : T → Prop) `{∀ x, Decision (P x)} l :
  (∀ x y, P x → P y → (compareFunc x y ≤ 0)%Z) →
  filter P (plain_insertion_sort compareFunc l) = filter P l.
Proof.
  intros Hclass. unfold plain_insertion_sort.
  assert (Hfold : ∀ rf, filter P (reverse (foldl (λ rev_front element,
                                 insert_back compareFunc element rev_front) rf l))
                        = filter P (reverse rf ++ l)).
  { induction l as [|e l IH]; intros rf; simpl; [by rewrite app_nil_r|].
    rewrite IH. rewrite !filter_app, !filter_reverse.
    rewrite insert_back_filter by done.
    rewrite !filter_cons. destruct (decide (P e)); [|done].
    rewrite reverse_cons. by rewrite <-(assoc_L (++)). }
  by rewrite Hfold.
Qed.
End AnyComparator.

(** X1.  Whatever the comparator answers, consistent or not, [sort]
    returns, and what it returns is a rearrangement of the array: it reads
    and writes inside the array only, and no element is lost or doubled. *)
Theorem sort_permutes_for_any_comparator {T : Type}
    (compareFunc : T → T → Z) (items : list T) :
  ∃ out, sort compareFunc items = Some out ∧ items ≡ₚ out.
Proof.
  destruct (_quickSort_safe compareFunc (S (length items)) items 0 (length items))
    as (out & Hrun & Hperm & _); [lia..|].
  by exists out.
Qed.

(** X2.  For every comparator that never puts two elements each strictly
    before the other and is transitive, [sort] returns the array
    rearranged so that no element stands after one it compares greater
    than. *)
Theorem sort_sorts_for_consistent_comparator {T : Type}
    (compareFunc : T → T → Z) (items : list T) :
  (∀ x y, (0 ≤ compareFunc x y)%Z → (compareFunc y x ≤ 0)%Z) →
  (∀ x y z, (compareFunc x y ≤ 0)%Z → (compareFunc y z ≤ 0)%Z →
            (compareFunc x z ≤ 0)%Z) →
  ∃ out, sort compareFunc items = Some out ∧ items ≡ₚ out ∧
    ∀ i j a b, i < j → out !! i = Some a → out !! j = Some b →
               (compareFunc a b ≤ 0)%Z.
Proof.
  intros Hflip Htrans.
  destruct (sort_spec compareFunc Hflip Htrans items)
    as (out & Hrun & Hperm & Hsorted).
  exists out. split_and!; [done..|].
  intros i j a b Hij Ha Hb.
  apply (Hsorted i j); [lia|done|by apply lookup_lt_Some in Hb|done|done].
Qed.

Lemma sort_sorts_for_consistent_comparator_witness :
  ∃ out, sort Z.sub [12; 3; 7; 1; 9; 3; 11; 5; 2; 8; 6; 4]%Z = Some out ∧
    [12; 3; 7; 1; 9; 3; 11; 5; 2; 8; 6; 4]%Z ≡ₚ out ∧
    ∀ i j a b, i < j → out !! i = Some a → out !! j = Some b → (a - b ≤ 0)%Z.
Proof.
  apply (sort_sorts_for_consistent_comparator Z.sub
           [12; 3; 7; 1; 9; 3; 11; 5; 2; 8; 6; 4]%Z); intros; lia.
Defined.

(** X3.  [_quickSort] on the positions [from .. to - 1] of an array returns
    an array that differs from it by a rearrangement of these positions:
    every position outside keeps its element, for every comparator.  For a
    consistent comparator the positions [from .. to - 1] are in order
    afterwards. *)
Theorem quickSort_rearranges_its_range_only {T : Type}
    (compareFunc : T → T → Z) (fuel : nat) (a : list T) (from to : nat) :
  from ≤ to → to ≤ length a → to - from < fuel →
  ∃ a', _quickSort compareFunc fuel a from to = Some a' ∧
    (∀ k, k < from ∨ to ≤ k → a' !! k = a !! k) ∧
    slice a from to ≡ₚ slice a' from to ∧
    ((∀ x y, (0 ≤ compareFunc x y)%Z → (compareFunc y x ≤ 0)%Z) →
     (∀ x y z, (compareFunc x y ≤ 0)%Z → (compareFunc y z ≤ 0)%Z →
               (compareFunc x z ≤ 0)%Z) →
     sorted_range compareFunc a' from to).
Proof.
  intros Hft Hlen Hfuel.
  destruct (_quickSort_safe compareFunc fuel a from to Hft Hlen Hfuel)
    as (a' & Hrun & Hrp).
  exists a'. split_and!; [done| | |].
  - intros k Hk. symmetry. by apply Hrp.
  - by apply range_perm_slice.
  - intros Hflip Htrans.
    destruct (_quickSort_spec compareFunc Hflip Htrans fuel a from to Hft Hlen Hfuel)
      as (a'' & Hrun' & _ & Hsorted).
    by simplify_eq.
Qed.

Lemma quickSort_rearranges_its_range_only_witness :
  ∃ a', _quickSort Z.sub 14
          [100; 12; 3; 7; 1; 9; 3; 11; 5; 2; 8; 6; 4; 0]%Z 1 13 = Some a' ∧
    a' !! 0 = Some 100%Z ∧ a' !! 13 = Some 0%Z.
Proof.
  destruct (quickSort_rearranges_its_range_only Z.sub 14
              [100; 12; 3; 7; 1; 9; 3; 11; 5; 2; 8; 6; 4; 0]%Z 1 13)
    as (a' & Hrun & Hout & _); [lia|simpl; lia|lia|].
  exists a'. split; [exact Hrun|].
  split; [apply (Hout 0)|apply (Hout 13)]; lia.
Defined.

(** X4.  [_insertionSort] on the positions [from .. to - 1] returns the
    array with the elements before and after them untouched and the
    elements between replaced by their plain insertion sort, for every
    comparator.  It is stable: elements of a class whose members the
    comparator never puts strictly after one another keep their order. *)
Theorem insertionSort_on_a_range_is_stable {T : Type}
    (compareFunc : T → T → Z) (P : T → Prop) `{∀ x, Decision (P x)}
    (pre mid rest : list T) :
  (∀ x y, P x → P y → (compareFunc x y ≤ 0)%Z) →
  ∃ mid',
    _insertionSort compareFunc (pre ++ mid ++ rest)
      (length pre) (length pre + length mid) = Some (pre ++ mid' ++ rest) ∧
    mid' = plain_insertion_sort compareFunc mid ∧
    mid' ≡ₚ mid ∧
    filter P mid' = filter P mid.
Proof.
  intros Hclass. exists (plain_insertion_sort compareFunc mid).
  split_and!.
  - apply _insertionSort_plain.
  - done.
  - apply plain_insertion_sort_perm.
  - by apply plain_insertion_sort_filter.
Qed.

Lemma insertionSort_on_a_range_is_stable_witness :
  ∃ mid',
    _insertionSort _compareFromNearToFar
      ([elem 9 0 0 0] ++
       [elem 0 5 0 1; elem 0 1 0 2; elem 0 5 0 3; elem 0 1 0 4] ++
       [elem 0 0 0 5]) 1 (1 + 4)
      = Some ([elem 9 0 0 0] ++ mid' ++ [elem 0 0 0 5]) ∧
    mid' = plain_insertion_sort _compareFromNearToFar
             [elem 0 5 0 1; elem 0 1 0 2; elem 0 5 0 3; elem 0 1 0 4] ∧
    mid' ≡ₚ [elem 0 5 0 1; elem 0 1 0 2; elem 0 5 0 3; elem 0 1 0 4] ∧
    filter (λ e, sortKey e = (0, 5)%Z) mid'
      = filter (λ e, sortKey e = (0, 5)%Z)
          [elem 0 5 0 1; elem 0 1 0 2; elem 0 5 0 3; elem 0 1 0 4].
Proof.
  apply (insertionSort_on_a_range_is_stable _compareFromNearToFar
           (λ e, sortKey e = (0, 5)%Z) [elem 9 0 0 0]
           [elem 0 5 0 1; elem 0 1 0 2; elem 0 5 0 3; elem 0 1 0 4]
           [elem 0 0 0 5]).
  intros x y Hx Hy. rewrite compareNearToFar_keys, Hx, Hy. done.
Defined.

(** X5.  On an array of at most ten elements [sort] is stable, for every
    comparator: the elements of a class whose members the comparator
    never puts strictly after one another come out in the order they came
    in. *)
Theorem sort_small_is_stable {T : Type}
    (compareFunc : T → T → Z) (P : T → Prop) `{∀ x, Decision (P x)}
    (items : list T) :
  length items ≤ 10 →
  (∀ x y, P x → P y → (compareFunc x y ≤ 0)%Z) →
  ∃ out, sort compareFunc items = Some out ∧ items ≡ₚ out ∧
         filter P out = filter P items.
Proof.
  intros Hlen Hclass. exists (plain_insertion_sort compareFunc items).
  split_and!.
  - by apply sort_small_plain.
  - symmetry. apply plain_insertion_sort_perm.
  - by apply plain_insertion_sort_filter.
Qed.

Lemma sort_small_is_stable_witness :
  ∃ out, sort _compareFromNearToFar
           [elem 0 5 0 0; elem 0 1 0 1; elem 0 5 0 2; elem 0 1 0 3] = Some out ∧
    [elem 0 5 0 0; elem 0 1 0 1; elem 0 5 0 2; elem 0 1 0 3] ≡ₚ out ∧
    filter (λ e, sortKey e = (0, 5)%Z) out
      = filter (λ e, sortKey e = (0, 5)%Z)
          [elem 0 5 0 0; elem 0 1 0 1; elem 0 5 0 2; elem 0 1 0 3].
Proof.
  apply (sort_small_is_stable _compareFromNearToFar (λ e, sortKey e = (0, 5)%Z)
           [elem 0 5 0 0; elem 0 1 0 1; elem 0 5 0 2; elem 0 1 0 3]).
  - simpl. lia.
  - intros x y Hx Hy. rewrite compareNearToFar_keys, Hx, Hy. done.
Defined.

(** X6.  The two comparators are antisymmetric, they answer [0] exactly
    on elements with the same priority and the same distance, and the
    far-to-near comparator is the near-to-far comparator with the
    distances negated. *)
Theorem comparators_are_antisymmetric (a b : RenderElement) :
  _compareFromNearToFar b a = (- _compareFromNearToFar a b)%Z ∧
  _compareFromFarToNear b a = (- _compareFromFarToNear a b)%Z ∧
  (_compareFromNearToFar a b = 0%Z ↔ sortKey a = sortKey b) ∧
  (_compareFromFarToNear a b = 0%Z ↔ sortKey a = sortKey b) ∧
  _compareFromFarToNear a b
    = compareKeysNearToFar ((sortKey a).1, (- (sortKey a).2)%Z)
                           ((sortKey b).1, (- (sortKey b).2)%Z).
Proof.
  destruct a as [[pa da la] ma sa], b as [[pb db lb] mb sb].
  unfold _compareFromNearToFar, _compareFromFarToNear, compareKeysNearToFar,
    or_else, sortKey; simpl.
  split_and!; repeat case_decide; try lia.
  - split; [intros; f_equal; lia|intros [= ]; lia].
  - split; [intros; lia|intros [= ]; lia].
  - split; [intros; f_equal; lia|intros [= ]; lia].
  - split; [intros; lia|intros [= ]; lia].
Qed.

End SortExtras.

(** ** Camera: screen space, cached reads, restored defaults *)

Module CameraExtras.
Import Camera CameraProofs.
Local Open Scope Qc_scope.

Ltac camera_fields :=
  cbn [_virtualCamera _isProjMatSetting _nearClipPlane _farClipPlane
       _fieldOfView _orthographicSize _isProjectionDirty _isInvProjMatDirty
       _isFrustumProjectDirty _customAspectRatio _frustumViewChangeFlag
       _isViewMatrixDirty _isInvViewProjDirty _viewport
       _inverseProjectionMatrix _lastAspectSize _invViewProjMat
       isOrthographic viewMatrix projectionMatrix viewProjectionMatrix
       with_virtualCamera with_isProjMatSetting with_nearClipPlane
       with_farClipPlane with_fieldOfView with_orthographicSize
       with_isProjectionDirty with_isInvProjMatDirty
       with_isFrustumProjectDirty with_customAspectRatio
       with_isViewMatrixDirty with_isInvViewProjDirty with_viewport
       with_inverseProjectionMatrix with_lastAspectSize with_invViewProjMat
       with_isOrthographic with_viewMatrix with_projectionMatrix
       _projMatChange
       Vector2.x Vector2.y fst snd negb orb andb] in *.

Section Screen.
Variable Math_tan : Qc → Qc.
Variable MathUtil_degreeToRadian : Qc → Qc.

Local Abbreviation derive_projection :=
  (derive_projection Math_tan MathUtil_degreeToRadian).
Local Abbreviation get_projectionMatrix :=
  (get_projectionMatrix Math_tan MathUtil_degreeToRadian).
Local Abbreviation _getInverseProjectionMatrix :=
  (_getInverseProjectionMatrix Math_tan MathUtil_degreeToRadian).
Local Abbreviation _getInvViewProjMat :=
  (_getInvViewProjMat Math_tan MathUtil_degreeToRadian).
Local Abbreviation worldToViewportPoint :=
  (worldToViewportPoint Math_tan MathUtil_degreeToRadian).
Local Abbreviation viewportToWorldPoint :=
  (viewportToWorldPoint Math_tan MathUtil_degreeToRadian).
Local Abbreviation worldToScreenPoint :=
  (worldToScreenPoint Math_tan MathUtil_degreeToRadian).
Local Abbreviation screenToWorldPoint :=
  (screenToWorldPoint Math_tan MathUtil_degreeToRadian).
Local Abbreviation coherent := (coherent Math_tan MathUtil_degreeToRadian).
Local Abbreviation depth := (depth Math_tan MathUtil_degreeToRadian).
Local Abbreviation well_formed := (well_formed Math_tan MathUtil_degreeToRadian).

(** The canvas and the viewport have an extent. *)
Lemma screen_of_viewport env c point :
  canvas_width env ≠ 0 → canvas_height env ≠ 0 →
  Vector4.z (_viewport c) ≠ 0 → Vector4.w (_viewport c) ≠ 0 →
  screenToViewportPoint env c (viewportToScreenPoint env c point) = point.
Proof.
  intros ????. destruct point as [x y z].
  unfold screenToViewportPoint, viewportToScreenPoint. simpl.
  f_equal; by field.
Qed.

Lemma viewport_of_screen env c point :
  canvas_width env ≠ 0 → canvas_height env ≠ 0 →
  Vector4.z (_viewport c) ≠ 0 → Vector4.w (_viewport c) ≠ 0 →
  viewportToScreenPoint env c (screenToViewportPoint env c point) = point.
Proof.
  intros ????. destruct point as [x y z].
  unfold screenToViewportPoint, viewportToScreenPoint. simpl.
  f_equal; by field.
Qed.


Lemma worldToViewportPoint_viewport env c point :
  _viewport (worldToViewportPoint env c point).2 = _viewport c.
Proof.
  destruct c as [[io vm pm vpm] ps ne fa fv os pd id fd ar fc vd ivd vw ip la iv].
  unfold Camera.worldToViewportPoint, get_viewMatrix, Camera.get_projectionMatrix.
  camera_fields.
  destruct vd; camera_fields;
    destruct (_ && _ && _); camera_fields; reflexivity.
Qed.

(** The round trip between world and viewport, for the use below. *)
Lemma round_trip_on_coherent env c point :
  coherent env c → _isProjMatSetting c = false → rigid env →
  well_formed env c →
  _nearClipPlane c < depth env c point →
  depth env c point < _farClipPlane c →
  (viewportToWorldPoint env (worldToViewportPoint env c point).2
     (worldToViewportPoint env c point).1).1 = point.
Proof.
  intros Hcoh Hset [HW Hdet] [Hasp Hwf] Hnear Hfar.
  unfold Camera.depth in Hnear, Hfar.
  destruct (transforms_on_coherent Math_tan MathUtil_degreeToRadian env c point
              (worldToViewportPoint env c point).1 Hcoh Hset) as [E1 E2].
  rewrite E2. rewrite E1 in Hnear, Hfar |- *. clear E1 E2.
  rewrite HW in Hdet |- *.
  set (view := Matrix_rotationTranslation _ _) in *.
  assert (Haff : affine (Matrix_invert view view)).
  { apply Matrix_invert_affine; [apply Matrix_rotationTranslation_affine|done]. }
  set (cameraPoint := apply4 (Matrix_invert view view) (hom point)).
  assert (Hcw : Vector4.w cameraPoint = 1).
  { unfold cameraPoint. by rewrite apply4_affine_w. }
  assert (Hcz : Vector3.z (project (Matrix_invert view view)
                             (derive_projection env c) point)
                = - Vector4.z cameraPoint).
  { unfold project. cbn [Vector3.z]. rewrite transformCoordinate_apply4.
    fold cameraPoint. unfold dehom. cbn [Vector3.z]. rewrite Hcw. by field. }
  rewrite Hcz in Hnear, Hfar.
  assert (Hnf : _nearClipPlane c ≠ _farClipPlane c).
  { apply Qclt_not_eq. by eapply Qclt_trans. }
  assert (Hfacts :
    Matrix_determinant (derive_projection env c) ≠ 0 ∧
    Vector4.w (apply4 (derive_projection env c) cameraPoint) ≠ 0 ∧
    ndc_depth (_nearClipPlane c) (_farClipPlane c)
      (isOrthographic (_virtualCamera c)) (- Vector4.z cameraPoint)
    = Vector4.z (apply4 (derive_projection env c) cameraPoint)
      / Vector4.w (apply4 (derive_projection env c) cameraPoint)).
  { unfold Camera.derive_projection.
    destruct (isOrthographic (_virtualCamera c)); cbn [negb].
    - by apply ortho_facts.
    - destruct Hwf as [Htan Hpos].
      assert (0 < - Vector4.z cameraPoint) as Hd by (by eapply Qclt_trans).
      assert (0 < _farClipPlane c) as Hf by (by eapply Qclt_trans).
      apply perspective_facts; [done|done|done| | |done|].
      + apply not_eq_sym. by apply Qclt_not_eq.
      + apply not_eq_sym. by apply Qclt_not_eq.
      + intros E. rewrite E in Hd. by apply (Qclt_not_eq _ _ Hd). }
  destruct Hfacts as (Hpdet & Hw & Hdepth).
  apply round_trip_algebra; [done| | |done|done].
  - by apply Matrix_invert_right.
  - by apply Matrix_invert_left.
Qed.


(** X14.  [resetProjectionMatrix] brings the automatic projection back:
    whatever matrix was set by hand, the next read of [projectionMatrix]
    returns the projection derived from the camera's parameters and
    stores it. *)
Theorem reset_restores_the_derived_projection env c :
  let r := get_projectionMatrix env (resetProjectionMatrix c) in
  r.1 = derive_projection env c ∧
  projectionMatrix (_virtualCamera r.2) = derive_projection env c ∧
  _isProjMatSetting r.2 = false ∧
  _isProjectionDirty r.2 = false.
Proof.
  destruct c as [[io vm pm vpm] ps ne fa fv os pd id fd ar fc vd ivd vw ip la iv].
  unfold Camera.get_projectionMatrix, resetProjectionMatrix.
  camera_fields. done.
Qed.

(** X15.  A getter that has just been read answers from its cache: a
    second read on the same canvas and transform returns the same
    matrix and leaves the camera as the first read left it.  This
    holds for [viewMatrix], [projectionMatrix], the inverse of the
    projection and the inverse of view and projection. *)
Theorem second_read_comes_from_the_cache env c :
  get_viewMatrix env (get_viewMatrix env c).2 = get_viewMatrix env c ∧
  get_projectionMatrix env (get_projectionMatrix env c).2
    = get_projectionMatrix env c ∧
  _getInverseProjectionMatrix env (_getInverseProjectionMatrix env c).2
    = _getInverseProjectionMatrix env c ∧
  _getInvViewProjMat env (_getInvViewProjMat env c).2
    = _getInvViewProjMat env c.
Proof.
  destruct c as [[io vm pm vpm] ps ne fa fv os pd id fd ar fc vd ivd vw ip la iv].
  split_and!.
  - unfold get_viewMatrix. camera_fields. by destruct vd.
  - unfold Camera.get_projectionMatrix. camera_fields.
    destruct ((negb pd || ps) && bool_decide (Vector2.x la = canvas_width env)
              && bool_decide (Vector2.y la = canvas_height env)) eqn:Hguard;
      camera_fields.
    + by rewrite Hguard.
    + by rewrite !bool_decide_eq_true_2 by done.
  - unfold Camera._getInverseProjectionMatrix, Camera.get_projectionMatrix.
    camera_fields. destruct id; camera_fields; [|done].
    destruct ((negb pd || ps) && bool_decide (Vector2.x la = canvas_width env)
              && bool_decide (Vector2.y la = canvas_height env));
      camera_fields; done.
  - unfold Camera._getInvViewProjMat, Camera._getInverseProjectionMatrix,
      Camera.get_projectionMatrix.
    camera_fields. destruct ivd; camera_fields; [|done].
    destruct id; camera_fields; [|done].
    destruct ((negb pd || ps) && bool_decide (Vector2.x la = canvas_width env)
              && bool_decide (Vector2.y la = canvas_height env));
      camera_fields; done.
Qed.

Lemma read_records_the_canvas env c :
  _lastAspectSize (get_projectionMatrix env c).2
  = {| Vector2.x := canvas_width env; Vector2.y := canvas_height env |} ∨
  (_lastAspectSize (get_projectionMatrix env c).2 = _lastAspectSize c ∧
   Vector2.x (_lastAspectSize c) = canvas_width env ∧
   Vector2.y (_lastAspectSize c) = canvas_height env).
Proof.
  destruct c as [[io vm pm vpm] ps ne fa fv os pd id fd ar fc vd ivd vw ip la iv].
  unfold Camera.get_projectionMatrix. camera_fields.
  destruct (_ && _ && _) eqn:Hguard; camera_fields; [|by left].
  right. apply andb_prop in Hguard as [Hguard Hy].
  apply andb_prop in Hguard as [_ Hx].
  apply bool_decide_eq_true in Hx, Hy. done.
Qed.

(** X16.  Once [projectionMatrix] has been read on the current canvas, a
    matrix set by hand is what every later read returns, and no read
    changes the camera, whatever parameters are set in between, as
    long as the canvas keeps its size. *)
Theorem manual_projection_survives_setters env c m (ms : list Mutation) :
  let c0 := (get_projectionMatrix env c).2 in
  let c1 := foldl mutate (set_projectionMatrix c0 m) ms in
  get_projectionMatrix env c1 = (m, c1).
Proof.
  intros c0 c1. apply manual_projection_kept; unfold c0.
  - destruct (read_records_the_canvas env c) as [->|(-> & Hx & _)]; done.
  - destruct (read_records_the_canvas env c) as [->|(-> & _ & Hy)]; done.
Qed.

(** X17.  An aspect ratio set by hand is the aspect ratio of the camera
    on every canvas, and stays so through the setters of the other
    parameters; after [resetAspectRatio] the aspect ratio is again that
    of the canvas scaled by the viewport. *)
Theorem custom_aspect_ratio_until_reset env c value (ms : list Mutation) :
  Forall (λ m, ∀ other, m ≠ SetAspectRatio other) ms →
  get_aspectRatio env (foldl mutate (set_aspectRatio c value) ms) = value ∧
  get_aspectRatio env
    (resetAspectRatio (foldl mutate (set_aspectRatio c value) ms))
  = canvas_width env
    * Vector4.z (_viewport (foldl mutate (set_aspectRatio c value) ms))
    / (canvas_height env
       * Vector4.w (_viewport (foldl mutate (set_aspectRatio c value) ms))).
Proof.
  intros Hms. split.
  - assert (Hinv : ∀ c', _customAspectRatio c' = Some value →
                         get_aspectRatio env (foldl mutate c' ms) = value).
    { induction Hms as [|mu ms Hmu _ IH]; intros c' Hc'; simpl.
      - unfold get_aspectRatio. by rewrite Hc'.
      - apply IH. rewrite <-Hc'.
        destruct c' as [[] ? ? ? ? ? ? ? ? ? ? ? ? ? ? ? ?], mu;
          try done. by destruct (Hmu value0). }
    apply Hinv. by destruct c as [[] ? ? ? ? ? ? ? ? ? ? ? ? ? ? ? ?].
  - generalize (foldl mutate (set_aspectRatio c value) ms). intros c'.
    by destruct c' as [[] ? ? ? ? ? ? ? ? ? ? ? ? ? ? ? ?].
Qed.

End Screen.

Ltac qc_neq := let H := fresh in
  intros H; apply (f_equal this) in H; vm_compute in H; discriminate H.



Lemma custom_aspect_ratio_until_reset_witness :
  get_aspectRatio square_canvas
    (foldl mutate (set_aspectRatio Camera_new two)
       [SetNearClipPlane 1; SetIsOrthographic true]) = two.
Proof.
  apply (custom_aspect_ratio_until_reset square_canvas Camera_new two
           [SetNearClipPlane 1; SetIsOrthographic true]).
  repeat constructor; intros other H; discriminate H.
Defined.

End CameraExtras.

(** ** SubFont: lookups, use after [destroy], glyphs that fit nowhere *)

Module SubFontExtras.
Import SubFont SubFontProofs.

Section AtlasExtras.
Context {Packing : Type}.
Variable emptyPage : Packing.
Variable place : Packing → CharInfo → Packing * bool.

Local Abbreviation FontAtlas := (@FontAtlas Packing).
Local Abbreviation SubFont := (@SubFont Packing).
Local Abbreviation upload := (FontAtlas_uploadCharTexture place).
Local Abbreviation _uploadCharTexture := (_uploadCharTexture emptyPage place).
Local Abbreviation later := (later emptyPage place).
Local Abbreviation first_target := (first_target emptyPage).
Implicit Types s : SubFont.
Implicit Types fa : FontAtlas.
Implicit Types l : list FontAtlas.

(** X7.  An upload changes the answer of no lookup: [_getCharInfo]
    returns for every character what it returned before, whether or not
    the upload added pages.  The glyph it hands back is the one it was
    given, with its pixel buffer released. *)
Theorem upload_changes_no_lookup s ci s' ci' :
  _uploadCharTexture s ci = Some (s', ci') →
  (∀ char, _getCharInfo s' char = _getCharInfo s char) ∧
  ci' = {| w := w ci; h := h ci; xAdvance := xAdvance ci; ascent := ascent ci;
           descent := descent ci; index := index ci; data := None |}.
Proof.
  intros Hrun. split.
  - intros char.
    destruct (_uploadCharTexture_maps emptyPage place s ci s' ci' Hrun) as (more & Hm & Hall).
    unfold _getCharInfo. by eapply scan_pages_more_empty.
  - destruct (_uploadCharTexture_target _ _ _ _ _ _ Hrun) as [fa Hfa].
    rewrite (_uploadCharTexture_unfold emptyPage place s ci fa Hfa) in Hrun. simpl in Hrun.
    by simplify_eq.
Qed.

(** X8.  A registration stamps the glyph with the cursor and stores it on
    the cursor's page.  The lookup of its character then finds what an
    earlier page holds for that character, if one does, and the glyph
    just registered otherwise; the lookup of every other character is as
    before. *)
Theorem lookup_after_registration s char ci s' ci' :
  _addCharInfo s char ci = Some (s', ci') →
  ci' = {| w := w ci; h := h ci; xAdvance := xAdvance ci; ascent := ascent ci;
           descent := descent ci; index := _lastIndex s; data := data ci |} ∧
  _getCharInfo s' char
    = Some (default ci'
              (scan_pages (take (Z.to_nat (_lastIndex s)) (_fontAtlases s)) char)) ∧
  (_getCharInfo s char = None → _getCharInfo s' char = Some ci') ∧
  ∀ other, other ≠ char → _getCharInfo s' other = _getCharInfo s other.
Proof.
  unfold _addCharInfo, _getCharInfo.
  destruct (atlas_at _ _) as [fa|] eqn:Hfa; simpl; intros; simplify_eq. simpl.
  apply atlas_at_Some in Hfa as [Hpos Hfa].
  set (n := Z.to_nat (_lastIndex s)) in *.
  set (ci' := {| w := w ci; index := _lastIndex s |}).
  assert (Hsplit : _fontAtlases s
                   = take n (_fontAtlases s) ++ fa :: drop (S n) (_fontAtlases s)).
  { by rewrite <-(take_drop_middle _ _ _ Hfa) at 1. }
  assert (Hlen : length (take n (_fontAtlases s)) = n).
  { rewrite length_take. apply lookup_lt_Some in Hfa. lia. }
  assert (Hput : atlas_put (_fontAtlases s) (_lastIndex s)
                   (FontAtlas_addCharInfo fa char ci')
                 = take n (_fontAtlases s)
                   ++ FontAtlas_addCharInfo fa char ci' :: drop (S n) (_fontAtlases s)).
  { unfold atlas_put. fold n. rewrite Hsplit at 1.
    rewrite insert_app_r_alt by lia. rewrite Hlen, Nat.sub_diag. done. }
  rewrite Hput. clear Hput.
  set (pre := take n (_fontAtlases s)) in *.
  set (post := drop (S n) (_fontAtlases s)) in *.
  rewrite Hsplit. rewrite !scan_pages_app. split_and!; [done| | |].
  - destruct (scan_pages pre char); [done|].
    simpl. unfold FontAtlas_getCharInfo. simpl. by rewrite lookup_insert_eq.
  - destruct (scan_pages pre char); [done|]. simpl.
    unfold FontAtlas_getCharInfo. simpl. by rewrite lookup_insert_eq.
  - intros other Hother. rewrite !scan_pages_app.
    destruct (scan_pages pre other); [done|]. simpl.
    unfold FontAtlas_getCharInfo. simpl. by rewrite lookup_insert_ne.
Qed.

(** The stamp of every glyph in a page's map is the position of the
    page. *)
Lemma later_stamps n s :
  later (SubFont_new n) s →
  ∀ i fa char ci, _fontAtlases s !! i = Some fa →
                  _charInfoMap fa !! char = Some ci → index ci = Z.of_nat i.
Proof.
  intros Hl. remember (SubFont_new n) as s0 eqn:Hs0.
  induction Hl as [s1|s1 s2 ci0 s3 ci0' _ IH Hup|s1 s2 c0 ci0 s3 ci0' _ IH Hadd];
    intros i fa char ci Hi Hc.
  - subst. by destruct i.
  - specialize (IH Hs0).
    destruct (_uploadCharTexture_maps emptyPage place s2 ci0 s3 ci0' Hup) as (more & Hm & Hall).
    assert (Hmi : (_charInfoMap <$> _fontAtlases s3) !! i = Some (_charInfoMap fa))
      by (by rewrite list_lookup_fmap, Hi).
    rewrite Hm in Hmi. apply lookup_app_Some in Hmi as [Hmi|[_ Hmi]].
    + rewrite list_lookup_fmap in Hmi.
      destruct (_fontAtlases s2 !! i) as [fb|] eqn:Hfb; simplify_eq/=.
      apply (IH i fb char ci Hfb). by rewrite Hmi.
    + rewrite Forall_lookup in Hall. rewrite (Hall _ _ Hmi) in Hc.
      by rewrite lookup_empty in Hc.
  - specialize (IH Hs0). revert Hadd. unfold _addCharInfo.
    destruct (atlas_at _ _) as [fb|] eqn:Hfb; simpl; intros; simplify_eq.
    simpl in Hi. apply atlas_at_Some in Hfb as [Hpos Hfb]. unfold atlas_put in Hi.
    destruct (decide (i = Z.to_nat (_lastIndex s2))) as [->|Hne].
    + rewrite list_lookup_insert_eq in Hi by (by eapply lookup_lt_Some).
      simplify_eq. simpl in Hc.
      destruct (decide (c0 = char)) as [->|].
      * rewrite lookup_insert_eq in Hc. simplify_eq. simpl. lia.
      * rewrite lookup_insert_ne in Hc by done. by apply (IH _ fb char).
    + rewrite list_lookup_insert_ne in Hi by done. by apply (IH i fa char).
Qed.

(** X9.  On a sub-font brought from a new one by uploads and
    registrations, the glyph that [_getCharInfo] finds for a character is
    stamped with the page that holds it: [_getTextureByIndex] at its
    [index] returns the texture of a page whose map has this glyph for
    the character. *)
Theorem found_glyph_names_its_page n s char ci :
  later (SubFont_new n) s → _getCharInfo s char = Some ci →
  ∃ page, atlas_at (_fontAtlases s) (index ci) = Some page ∧
          _charInfoMap page !! char = Some ci ∧
          _getTextureByIndex s (index ci) = Some (texture page).
Proof.
  intros Hl Hfound.
  destruct (scan_pages_Some _ _ _ Hfound) as (i & page & Hi & Hc).
  pose proof (later_stamps n s Hl i page char ci Hi Hc) as Hstamp.
  assert (Hat : atlas_at (_fontAtlases s) (index ci) = Some page).
  { apply atlas_at_Some. rewrite Hstamp. split; [lia|]. by rewrite Nat2Z.id. }
  exists page. split_and!; [done..|].
  unfold _getTextureByIndex. by rewrite Hat.
Qed.

(** X10.  [destroy] empties the list of pages and keeps the cursor.
    Afterwards every lookup answers [null]; and once a page had been
    made, an upload or a registration on the destroyed sub-font throws,
    as does a registration on a sub-font that has no page yet. *)
Theorem destroyed_sub_font_is_unusable s char ci i :
  _getCharInfo (destroy s) char = None ∧
  _getTextureByIndex (destroy s) i = None ∧
  _getLastIndex (destroy s) = _lastIndex s ∧
  (_lastIndex s ≠ (-1)%Z →
   _uploadCharTexture (destroy s) ci = None ∧
   _addCharInfo (destroy s) char ci = None) ∧
  (_fontAtlases s = [] → _addCharInfo s char ci = None).
Proof.
  split_and!; try done.
  - unfold _getTextureByIndex, atlas_at. simpl. by case_decide.
  - intros Hl. unfold SubFont._uploadCharTexture, _addCharInfo, atlas_at. simpl.
    destruct (decide (_lastIndex s = -1)%Z); [done|]. simpl.
    by case_decide.
  - intros Hnil. unfold _addCharInfo, atlas_at. rewrite Hnil.
    by case_decide.
Qed.

(** X11.  The second try of an upload is not checked.  When neither the
    cursor's page nor an empty page takes the glyph, the upload still
    returns: one page is added, the cursor moves to it, and the glyph
    is on no page. *)
Theorem glyph_that_fits_nowhere s ci :
  cursor_on_last s →
  (∀ p, (place p ci).2 = false) →
  ∃ s' ci',
    _uploadCharTexture s ci = Some (s', ci') ∧
    _lastIndex s' = (_lastIndex s + (if decide (_lastIndex s = -1)%Z then 2 else 1))%Z ∧
    cursor_on_last s' ∧
    (∀ i fa, _fontAtlases s' !! i = Some fa →
       uploaded fa = default [] (uploaded <$> _fontAtlases s !! i)).
Proof.
  intros Hc Hnever.
  destruct (first_target_spec emptyPage s Hc) as (fa & Hfa & Hcur & Hpos).
  rewrite (_uploadCharTexture_unfold emptyPage place s ci fa Hfa). simpl.
  assert (Hup : ∀ fb, (upload fb ci).2 = false ∧ uploaded (upload fb ci).1 = uploaded fb).
  { intros fb. unfold FontAtlas_uploadCharTexture.
    specialize (Hnever (packing fb)). by destruct (place _ _) as [? []]. }
  destruct (Hup fa) as [-> Hsame]. eexists _, _. split; [done|]. simpl.
  apply atlas_at_Some in Hfa as [_ Hfa].
  revert Hfa Hcur Hpos. unfold SubFont.first_target, cursor_on_last in *. simpl.
  destruct (decide (_lastIndex s = -1)%Z) as [Hl|Hl]; simpl.
  - assert (_fontAtlases s = []) as Hnil.
    { destruct (_fontAtlases s); [done|]. simpl in Hc. lia. }
    rewrite Hnil, Hl. simpl. intros ? _ _. simplify_eq.
    split_and!; [done|done|].
    intros [|[|i]] fb Hi; simplify_eq/=; [by rewrite Hsame|].
    by rewrite (proj2 (Hup _)).
  - intros Hfa Hcur Hpos. unfold atlas_put.
    rewrite length_app, length_insert. simpl. split_and!; [lia|lia|].
    intros i fb Hi.
    destruct (decide (i < length (_fontAtlases s))) as [Hlt|Hge].
    + rewrite lookup_app_l in Hi by (rewrite length_insert; lia).
      destruct (decide (i = Z.to_nat (_lastIndex s))) as [->|Hne].
      * rewrite list_lookup_insert_eq in Hi by lia. simplify_eq.
        by rewrite Hfa, Hsame.
      * rewrite list_lookup_insert_ne in Hi by done. by rewrite Hi.
    + rewrite lookup_app_r in Hi by (rewrite length_insert; lia).
      rewrite length_insert in Hi.
      rewrite (lookup_ge_None_2 (_fontAtlases s)) by lia. simpl.
      destruct (i - length (_fontAtlases s)) as [|k]; simplify_eq/=.
      by rewrite (proj2 (Hup _)).
Qed.

End AtlasExtras.

Lemma lookup_after_registration_witness :
  _getCharInfo first_registered.1 "a" = Some first_registered.2 ∧
  index first_registered.2 = 0%Z.
Proof.
  destruct (lookup_after_registration first_uploaded.1 "a" first_uploaded.2
              first_registered.1 first_registered.2)
    as (_ & _ & Hfresh & _); [vm_compute; reflexivity|].
  split; [|reflexivity]. apply Hfresh. vm_compute. reflexivity.
Defined.

Lemma found_glyph_names_its_page_witness :
  ∃ page, atlas_at (_fontAtlases five_glyphs) 0 = Some page ∧
          _getTextureByIndex five_glyphs 0 = Some (texture page).
Proof.
  destruct (found_glyph_names_its_page 0 two_per_page 0 five_glyphs "a"
              first_registered.2)
    as (page & Hpage & _ & Htexture).
  - eapply (place_glyphs_later 0 two_per_page
              [glyph "a" 1; glyph "b" 2; glyph "c" 3; glyph "d" 4; glyph "e" 5]);
      [apply later_refl|].
    vm_compute. reflexivity.
  - vm_compute. reflexivity.
  - exists page. split; [exact Hpage|exact Htexture].
Defined.

Lemma upload_changes_no_lookup_witness :
  _getCharInfo third_uploaded.1 "a" = _getCharInfo two_glyphs "a".
Proof.
  destruct (upload_changes_no_lookup 0 two_per_page two_glyphs (glyph "c" 3).2
              third_uploaded.1 third_uploaded.2) as [Hsame _].
  - vm_compute. reflexivity.
  - apply Hsame.
Defined.

Lemma destroyed_sub_font_is_unusable_witness :
  SubFont._uploadCharTexture 0 two_per_page (destroy two_glyphs) (glyph "c" 3).2
  = None.
Proof.
  destruct (destroyed_sub_font_is_unusable 0 two_per_page two_glyphs "c"
              (glyph "c" 3).2 0) as (_ & _ & _ & Hthrows & _).
  destruct Hthrows as [Hupload _]; [discriminate|exact Hupload].
Defined.

Lemma glyph_that_fits_nowhere_witness :
  ∃ s' ci',
    SubFont._uploadCharTexture 0 (λ used _, (used, false)) (SubFont_new 0)
      (glyph "W" 1).2 = Some (s', ci') ∧
    _lastIndex s' = 1%Z.
Proof.
  destruct (glyph_that_fits_nowhere 0 (λ used _, (used, false)) (SubFont_new 0)
              (glyph "W" 1).2)
    as (s' & ci' & Hrun & Hcursor & _); [reflexivity|done|].
  exists s', ci'. split; [exact Hrun|exact Hcursor].
Defined.

End SubFontExtras.

(** ** TextRenderer: dirty flags through setters, [_render] and [bounds] *)

Module TextRendererExtras.
Import TextRenderer TextRendererProofs.

Section Flags.
Context {CharRenderData SubFont Font Color : Type}.
Context `{EqDecision Font}.
Local Abbreviation TextRenderer :=
  (@TextRenderer CharRenderData SubFont Font Color).
Implicit Types r : TextRenderer.

Lemma contains_lor (d t t' : Z) :
  negb (Z.land (Z.lor d t) t' =? 0)%Z
  = negb (Z.land d t' =? 0)%Z || negb (Z.land t t' =? 0)%Z.
Proof.
  rewrite Z.land_lor_distr_l.
  destruct (Z.eqb_spec (Z.lor (Z.land d t') (Z.land t t')) 0) as [E|E].
  - apply Z.lor_eq_0_iff in E as [-> ->]. done.
  - destruct (Z.eqb_spec (Z.land d t') 0) as [E1|E1],
      (Z.eqb_spec (Z.land t t') 0) as [E2|E2]; try done.
    rewrite E1, E2 in E. done.
Qed.

(** [ToInt32] gives a signed 32-bit integer, and leaves one as it is. *)
Lemma ToInt32_int32 n : int32 (ToInt32 n).
Proof.
  unfold int32, ToInt32.
  pose proof (Z.mod_pos_bound (n + 2 ^ 31) (2 ^ 32)). lia.
Qed.

Lemma ToInt32_id n : int32 n → ToInt32 n = n.
Proof.
  unfold int32, ToInt32. intros Hn. rewrite Z.mod_small by lia. lia.
Qed.

(** The signed 32-bit integers are those whose bits from 31 on are all
    the same. *)
Lemma int32_shiftr n : int32 n ↔ Z.shiftr n 31 = 0%Z ∨ Z.shiftr n 31 = (-1)%Z.
Proof.
  unfold int32. rewrite Z.shiftr_div_pow2 by lia.
  pose proof (Z.div_mod n (2 ^ 31)) as Hdiv.
  pose proof (Z.mod_pos_bound n (2 ^ 31)) as Hmod.
  change (2 ^ 31)%Z with 2147483648%Z in *. lia.
Qed.

Lemma int32_lor a b : int32 a → int32 b → int32 (Z.lor a b).
Proof.
  rewrite !int32_shiftr, Z.shiftr_lor. by intros [->| ->] [->| ->]; auto.
Qed.

Lemma int32_land a b : int32 a → int32 b → int32 (Z.land a b).
Proof.
  rewrite !int32_shiftr, Z.shiftr_land. by intros [->| ->] [->| ->]; auto.
Qed.

Lemma int32_lnot a : int32 a → int32 (Z.lnot a).
Proof. unfold int32, Z.lnot. lia. Qed.

Lemma dirtyFlag_setTrue r t :
  _dirtyFlag (_setDirtyFlagTrue r t) = Z.lor (_dirtyFlag r) (ToInt32 t).
Proof. by destruct r. Qed.

Lemma dirtyFlag_setFalse r t :
  _dirtyFlag (_setDirtyFlagFalse r t)
  = Z.land (_dirtyFlag r) (Z.lnot (ToInt32 t)).
Proof. by destruct r. Qed.

Lemma contain_setTrue r t t' :
  _isContainDirtyFlag (_setDirtyFlagTrue r t) t'
  = _isContainDirtyFlag r t'
    || negb (Z.land (ToInt32 t) (ToInt32 t') =? 0)%Z.
Proof.
  unfold _isContainDirtyFlag. rewrite dirtyFlag_setTrue. apply contains_lor.
Qed.

Lemma contain_setFalse r t t' :
  _isContainDirtyFlag (_setDirtyFlagFalse r t) t'
  = _isContainDirtyFlag r (Z.land (ToInt32 t') (Z.lnot (ToInt32 t))).
Proof.
  unfold _isContainDirtyFlag. rewrite dirtyFlag_setFalse.
  rewrite (ToInt32_id (Z.land _ _))
    by auto using int32_land, int32_lnot, ToInt32_int32.
  rewrite <-Z.land_assoc. do 3 f_equal. apply Z.land_comm.
Qed.

(** X18.  The dirty flags are independent bits of a 32-bit word.  On a
    renderer whose flag word is a signed 32-bit integer, as the class
    makes it, and for any numbers [t] and [t'], which the operators bring
    to 32 bits: raising [t] makes the renderer contain [t'] when it did
    or when [t] and [t'] share one of the 32 bits; lowering [t] leaves of
    [t'] the bits outside [t], and none of [t] itself; a [t'] that shares
    no bit with [t] is contained after as before; a multiple of 2^32
    raises nothing and is not contained; and the flag word stays a signed
    32-bit integer. *)
Theorem dirty_flags_are_independent_bits r t t' :
  int32 (_dirtyFlag r) →
  _isContainDirtyFlag (_setDirtyFlagTrue r t) t'
    = _isContainDirtyFlag r t'
      || negb (Z.land (ToInt32 t) (ToInt32 t') =? 0)%Z ∧
  _isContainDirtyFlag (_setDirtyFlagFalse r t) t'
    = _isContainDirtyFlag r (Z.land (ToInt32 t') (Z.lnot (ToInt32 t))) ∧
  _isContainDirtyFlag (_setDirtyFlagFalse r t) t = false ∧
  (Z.land (ToInt32 t) (ToInt32 t') = 0%Z →
   _isContainDirtyFlag (_setDirtyFlagTrue r t) t' = _isContainDirtyFlag r t' ∧
   _isContainDirtyFlag (_setDirtyFlagFalse r t) t' = _isContainDirtyFlag r t') ∧
  (∀ k, _setDirtyFlagTrue r (k * 2 ^ 32) = r ∧
        _isContainDirtyFlag r (k * 2 ^ 32) = false) ∧
  int32 (_dirtyFlag (_setDirtyFlagTrue r t)) ∧
  int32 (_dirtyFlag (_setDirtyFlagFalse r t)).
Proof.
  intros Hword.
  assert (Hfalse : ∀ u, Z.land (Z.land (_dirtyFlag r) (Z.lnot (ToInt32 t))) u
                        = Z.land (_dirtyFlag r) (Z.land u (Z.lnot (ToInt32 t)))).
  { intros u. rewrite <-Z.land_assoc. f_equal. apply Z.land_comm. }
  split_and!.
  - apply contain_setTrue.
  - apply contain_setFalse.
  - unfold _isContainDirtyFlag. rewrite dirtyFlag_setFalse.
    rewrite Hfalse, Z.land_lnot_diag, Z.land_0_r. done.
  - intros Hdisjoint. split.
    + rewrite contain_setTrue, Hdisjoint. simpl. by rewrite orb_false_r.
    + unfold _isContainDirtyFlag. rewrite dirtyFlag_setFalse.
      rewrite Hfalse. do 3 f_equal.
      apply Z.bits_inj'. intros n Hn.
      rewrite Z.land_spec, Z.lnot_spec by done.
      assert (Z.testbit (Z.land (ToInt32 t) (ToInt32 t')) n = false) as Hbit
        by (by rewrite Hdisjoint, Z.bits_0).
      rewrite Z.land_spec in Hbit.
      destruct (Z.testbit (ToInt32 t) n), (Z.testbit (ToInt32 t') n); done.
  - intros k.
    assert (Hzero : ToInt32 (k * 2 ^ 32) = 0%Z).
    { unfold ToInt32. rewrite Z.add_comm, Z.mod_add by lia. done. }
    unfold _isContainDirtyFlag, _setDirtyFlagTrue. rewrite Hzero.
    rewrite Z.lor_0_r, Z.land_0_r. split; [by destruct r|done].
  - rewrite dirtyFlag_setTrue. auto using int32_lor, ToInt32_int32.
  - rewrite dirtyFlag_setFalse.
    auto using int32_land, int32_lnot, ToInt32_int32.
Qed.

(** X19.  No assignment to a property lowers a dirty flag.  An assignment
    raises nothing, or the bits of [Position], of [Font] or of
    [MaskInteraction]; assignments to [color] and to [maskLayer] raise
    nothing. *)
Theorem assignments_only_raise_flags r (a : Assignment) :
  (∃ raised, raised ∈ [0%Z; DirtyFlag.Position; DirtyFlag.Font;
                        DirtyFlag.MaskInteraction] ∧
             _dirtyFlag (assign r a) = Z.lor (_dirtyFlag r) raised) ∧
  (∀ t, _isContainDirtyFlag r t = true →
        _isContainDirtyFlag (assign r a) t = true) ∧
  (∀ value, _dirtyFlag (assign r (AssignColor value)) = _dirtyFlag r) ∧
  (∀ value, _dirtyFlag (assign r (AssignMaskLayer value)) = _dirtyFlag r).
Proof.
  assert (Hraised : ∃ raised,
    raised ∈ [0%Z; DirtyFlag.Position; DirtyFlag.Font; DirtyFlag.MaskInteraction] ∧
    _dirtyFlag (assign r a) = Z.lor (_dirtyFlag r) raised).
  { assert (H0 : _dirtyFlag r = Z.lor (_dirtyFlag r) 0) by (by rewrite Z.lor_0_r).
    destruct a; simpl.
    - exists 0%Z. split; [set_solver|]. by destruct r.
    - unfold set_font. case_decide; simpl.
      + exists DirtyFlag.Font. split; [set_solver|]. by destruct r.
      + exists 0%Z. split; [set_solver|done].
    - unfold set_text. case_decide.
      + exists DirtyFlag.Position. split; [set_solver|]. by destruct r.
      + exists 0%Z. split; [set_solver|done].
    - unfold set_width. case_decide.
      + exists DirtyFlag.Position. split; [set_solver|]. by destruct r.
      + exists 0%Z. split; [set_solver|done].
    - unfold set_height. case_decide.
      + exists DirtyFlag.Position. split; [set_solver|]. by destruct r.
      + exists 0%Z. split; [set_solver|done].
    - unfold set_fontSize. case_decide.
      + exists DirtyFlag.Font. split; [set_solver|]. by destruct r.
      + exists 0%Z. split; [set_solver|done].
    - unfold set_fontStyle. case_decide.
      + exists DirtyFlag.Font. split; [set_solver|]. by destruct r.
      + exists 0%Z. split; [set_solver|done].
    - unfold set_lineSpacing. case_decide.
      + exists DirtyFlag.Position. split; [set_solver|]. by destruct r.
      + exists 0%Z. split; [set_solver|done].
    - unfold set_horizontalAlignment. case_decide.
      + exists DirtyFlag.Position. split; [set_solver|]. by destruct r.
      + exists 0%Z. split; [set_solver|done].
    - unfold set_verticalAlignment. case_decide.
      + exists DirtyFlag.Position. split; [set_solver|]. by destruct r.
      + exists 0%Z. split; [set_solver|done].
    - unfold set_enableWrapping. case_decide.
      + exists DirtyFlag.Position. split; [set_solver|]. by destruct r.
      + exists 0%Z. split; [set_solver|done].
    - unfold set_overflowMode. case_decide.
      + exists DirtyFlag.Position. split; [set_solver|]. by destruct r.
      + exists 0%Z. split; [set_solver|done].
    - unfold set_maskInteraction. case_decide.
      + exists DirtyFlag.MaskInteraction. split; [set_solver|]. by destruct r.
      + exists 0%Z. split; [set_solver|done].
    - exists 0%Z. split; [set_solver|]. by destruct r. }
  split_and!; [done| |by destruct r..].
  intros t Ht. destruct Hraised as (raised & _ & Hflag).
  unfold _isContainDirtyFlag in *. rewrite Hflag, contains_lor, Ht. done.
Qed.

(** What the assignments to [font] change in the reference counts. *)
Lemma refCount_change_app (font : Font) (counted counted' : list (Font * Z)) :
  refCount_change font (counted ++ counted')
  = (refCount_change font counted + refCount_change font counted')%Z.
Proof.
  unfold refCount_change. induction counted as [|[f n] counted IH]; simpl; [done|].
  rewrite IH. case_decide; lia.
Qed.

Lemma set_font_balance r value (font : Font) :
  _font (set_font r value).1 = value ∧
  refCount_change font (set_font r value).2
  = (references_held font value - references_held font (_font r))%Z.
Proof.
  unfold set_font, references_held. case_decide as Hne; simpl.
  - split; [by destruct r|].
    destruct (_font r) as [f0|], value as [f1|]; simpl;
      repeat case_decide; simplify_eq; try done; lia.
  - rewrite Hne. split; [done|]. simpl. lia.
Qed.

Lemma set_fonts_balance values :
  ∀ r (font : Font),
    refCount_change font (set_fonts r values).2
    = (references_held font (_font (set_fonts r values).1)
       - references_held font (_font r))%Z.
Proof.
  induction values as [|value values IH]; intros r font; simpl.
  - lia.
  - destruct (set_font r value) as [r1 counted] eqn:Hset.
    specialize (IH r1 font).
    destruct (set_fonts r1 values) as [r2 counted'] eqn:Hrest. simpl in *.
    rewrite refCount_change_app, IH.
    destruct (set_font_balance r value font) as [Hfont Hcount].
    rewrite Hset in Hfont, Hcount. simpl in *. rewrite Hcount, Hfont. lia.
Qed.

(** X24.  The renderer keeps the reference counts of its fonts in
    balance.  From the constructor on, through any run of assignments to
    [font], the count of every font has changed by one if the renderer
    holds it and by nothing otherwise; after [_onDestroy] it has changed
    by nothing, and the renderer holds no font, no sub-font and no glyph
    quad, the quads having gone back to the pool. *)
Theorem font_references_balance (white : Color) (_textDefaultFont : Font)
    (FontStyle_None SpriteMaskLayer_Layer0 : Z) (stencil : StencilState)
    (values : list (option Font)) (font : Font) :
  let made :=
    TextRenderer_new (CharRenderData := CharRenderData) (SubFont := SubFont)
      white _textDefaultFont FontStyle_None SpriteMaskLayer_Layer0 stencil in
  let assigned := set_fonts made.1 values in
  let destroyed := _onDestroy assigned.1 in
  refCount_change font (made.2 ++ assigned.2)
    = references_held font (_font assigned.1) ∧
  refCount_change font (made.2 ++ assigned.2 ++ destroyed.2) = 0%Z ∧
  _font destroyed.1.1 = None ∧
  _subFont destroyed.1.1 = None ∧
  _charRenderDatas destroyed.1.1 = [] ∧
  destroyed.1.2 = _charRenderDatas assigned.1.
Proof.
  intros made assigned destroyed.
  assert (Hheld : refCount_change font (made.2 ++ assigned.2)
                  = references_held font (_font assigned.1)).
  { rewrite refCount_change_app. unfold assigned. rewrite set_fonts_balance.
    unfold made, references_held. simpl. repeat case_decide; simplify_eq; lia. }
  split; [done|]. unfold destroyed. clear destroyed.
  revert Hheld. generalize assigned.1 as r. intros r Hheld.
  rewrite (assoc_L (++)), refCount_change_app, Hheld.
  unfold TextRenderer._onDestroy, references_held.
  destruct r as [sf cs df co tx wi he [f|] fz fy ls ha va ew om mi ml st];
    simpl; destruct sf; simpl; split_and!; try done;
    repeat case_decide; simplify_eq; lia.
Qed.

Section Render.
Variable Font_getSubFont : Font → Z → Z → SubFont.
Variable _updateLocalData : TextRenderer → TextRenderer.
Variable _updatePosition : TextRenderer → TextRenderer.
Local Abbreviation _resetSubFont := (_resetSubFont Font_getSubFont).
Local Abbreviation _render :=
  (_render Font_getSubFont _updateLocalData _updatePosition).

Lemma render_guard r :
  ¬ nothing_to_render r →
  bool_decide (_text r = String.EmptyString)
  || (_enableWrapping r && bool_decide (_width r ≤ 0)%Z)
  || (bool_decide (_overflowMode r = OverflowMode.Truncate)
      && bool_decide (_height r ≤ 0)%Z) = false.
Proof.
  unfold nothing_to_render. intros Hnot.
  rewrite (bool_decide_eq_false_2 (_text r = _)) by tauto. simpl.
  destruct (_enableWrapping r) eqn:Hwrap; simpl.
  - rewrite (bool_decide_eq_false_2 (_width r ≤ 0)%Z) by tauto. simpl.
    destruct (bool_decide (_overflowMode r = _)) eqn:Hover; simpl; [|done].
    apply bool_decide_eq_true in Hover. apply bool_decide_eq_false_2. tauto.
  - destruct (bool_decide (_overflowMode r = _)) eqn:Hover; simpl; [|done].
    apply bool_decide_eq_true in Hover. apply bool_decide_eq_false_2. tauto.
Qed.

(** X20.  When there is something to render and none of the flags
    [MaskInteraction], [SubFont], [LocalPositionBounds] and
    [WorldPosition] is raised, [_render] does no update: the renderer is
    unchanged and one text element, with the glyph quads it holds, is
    pushed to the pipeline. *)
Theorem render_with_lowered_flags_only_pushes r pipeline :
  ¬ nothing_to_render r →
  _isContainDirtyFlag r DirtyFlag.MaskInteraction = false →
  _isContainDirtyFlag r DirtyFlag.SubFont = false →
  _isContainDirtyFlag r DirtyFlag.LocalPositionBounds = false →
  _isContainDirtyFlag r DirtyFlag.WorldPosition = false →
  _render r pipeline
  = Some (r, pipeline ++ [{| component := r;
                             charElements := _charRenderDatas r |}]).
Proof.
  intros Hnot Hmask Hsub Hlocal Hworld. unfold TextRenderer._render.
  rewrite (render_guard r Hnot), Hmask, Hsub. simpl.
  by rewrite Hlocal, Hworld.
Qed.

Lemma lower_if_raised (update : TextRenderer → TextRenderer) r t :
  (∀ r, _dirtyFlag (update r) = _dirtyFlag r) →
  _dirtyFlag (if _isContainDirtyFlag r t
              then _setDirtyFlagFalse (update r) t else r)
  = Z.land (_dirtyFlag r) (Z.lnot (ToInt32 t)).
Proof.
  intros Hkeep. unfold _isContainDirtyFlag.
  destruct (Z.eqb_spec (Z.land (_dirtyFlag r) (ToInt32 t)) 0) as [E|E]; simpl.
  - rewrite <-Z.ldiff_land.
    rewrite <-(Z.lor_ldiff_and (_dirtyFlag r) (ToInt32 t)) at 1.
    by rewrite E, Z.lor_0_r.
  - by rewrite dirtyFlag_setFalse, Hkeep.
Qed.

(** X22.  A [_render] that renders lowers the flags [MaskInteraction],
    [SubFont], [LocalPositionBounds] and [WorldPosition] and no other:
    [WorldBounds] is as it was.  The layout and the positioning, which
    this relies on, do not write the flag word. *)
Theorem render_lowers_four_flags r pipeline r' pipeline' :
  (∀ r, _dirtyFlag (_updateLocalData r) = _dirtyFlag r) →
  (∀ r, _dirtyFlag (_updatePosition r) = _dirtyFlag r) →
  ¬ nothing_to_render r →
  _render r pipeline = Some (r', pipeline') →
  _dirtyFlag r'
    = Z.land (_dirtyFlag r)
        (Z.lnot (Z.lor (Z.lor (Z.lor DirtyFlag.MaskInteraction DirtyFlag.SubFont)
                          DirtyFlag.LocalPositionBounds)
                   DirtyFlag.WorldPosition)) ∧
  _isContainDirtyFlag r' DirtyFlag.WorldBounds
    = _isContainDirtyFlag r DirtyFlag.WorldBounds ∧
  _isContainDirtyFlag r' DirtyFlag.MaskInteraction = false ∧
  _isContainDirtyFlag r' DirtyFlag.SubFont = false ∧
  _isContainDirtyFlag r' DirtyFlag.LocalPositionBounds = false ∧
  _isContainDirtyFlag r' DirtyFlag.WorldPosition = false ∧
  pipeline' = pipeline ++ [{| component := r';
                              charElements := _charRenderDatas r' |}].
Proof.
  intros Hlocal Hworld Hnot. unfold TextRenderer._render.
  rewrite (render_guard r Hnot).
  set (r1 := if _isContainDirtyFlag r DirtyFlag.MaskInteraction then _ else r).
  assert (H1 : _dirtyFlag r1
               = Z.land (_dirtyFlag r) (Z.lnot DirtyFlag.MaskInteraction)).
  { apply (lower_if_raised _updateStencilState). intros r0. by destruct r0. }
  destruct (if _isContainDirtyFlag r1 DirtyFlag.SubFont then _ else Some r1)
    as [r2|] eqn:Hr2; simpl; [|done].
  assert (H2 : _dirtyFlag r2 = Z.land (_dirtyFlag r1) (Z.lnot DirtyFlag.SubFont)).
  { revert Hr2. unfold TextRenderer._resetSubFont.
    pose proof (lower_if_raised (λ r, r) r1 DirtyFlag.SubFont (λ _, eq_refl)) as Hl.
    simpl in Hl.
    change (ToInt32 DirtyFlag.SubFont) with DirtyFlag.SubFont in Hl.
    destruct (_isContainDirtyFlag r1 DirtyFlag.SubFont).
    - destruct (_font r1); simpl; intros; simplify_eq.
      rewrite <-Hl. rewrite !dirtyFlag_setFalse. by destruct r1.
    - intros; by simplify_eq. }
  set (r3 := if _isContainDirtyFlag r2 DirtyFlag.LocalPositionBounds then _ else r2).
  assert (H3 : _dirtyFlag r3
               = Z.land (_dirtyFlag r2) (Z.lnot DirtyFlag.LocalPositionBounds))
    by (by apply lower_if_raised).
  set (r4 := if _isContainDirtyFlag r3 DirtyFlag.WorldPosition then _ else r3).
  assert (H4 : _dirtyFlag r4
               = Z.land (_dirtyFlag r3) (Z.lnot DirtyFlag.WorldPosition))
    by (by apply lower_if_raised).
  intros [= <- <-].
  assert (Hflag : _dirtyFlag r4
    = Z.land (_dirtyFlag r)
        (Z.lnot (Z.lor (Z.lor (Z.lor DirtyFlag.MaskInteraction DirtyFlag.SubFont)
                          DirtyFlag.LocalPositionBounds)
                   DirtyFlag.WorldPosition))).
  { rewrite H4, H3, H2, H1. rewrite !Z.lnot_lor. by rewrite !Z.land_assoc. }
  assert (Hcontain : ∀ t, Z.land (_dirtyFlag r4) t
    = Z.land (_dirtyFlag r)
        (Z.land t (Z.lnot (Z.lor (Z.lor (Z.lor DirtyFlag.MaskInteraction
                                            DirtyFlag.SubFont)
                                     DirtyFlag.LocalPositionBounds)
                              DirtyFlag.WorldPosition)))).
  { intros t. rewrite Hflag.
    rewrite <-Z.land_assoc. f_equal. apply Z.land_comm. }
  split_and!; [done| | | | | |done]; unfold _isContainDirtyFlag.
  - change (ToInt32 DirtyFlag.WorldBounds) with DirtyFlag.WorldBounds.
    by rewrite Hcontain.
  - change (ToInt32 DirtyFlag.MaskInteraction) with DirtyFlag.MaskInteraction.
    rewrite Hcontain. by rewrite Z.land_0_r.
  - change (ToInt32 DirtyFlag.SubFont) with DirtyFlag.SubFont.
    rewrite Hcontain. by rewrite Z.land_0_r.
  - change (ToInt32 DirtyFlag.LocalPositionBounds)
      with DirtyFlag.LocalPositionBounds.
    rewrite Hcontain. by rewrite Z.land_0_r.
  - change (ToInt32 DirtyFlag.WorldPosition) with DirtyFlag.WorldPosition.
    rewrite Hcontain. by rewrite Z.land_0_r.
Qed.

Section Bounds.
Context {BoundingBox : Type}.
Variable _updateBounds : TextRenderer → BoundingBox → BoundingBox.
Local Abbreviation get_bounds :=
  (get_bounds Font_getSubFont _updateLocalData _updatePosition _updateBounds).

(** X21.  With the font set to [null] and the [SubFont] flag raised, as
    after an assignment of [null] to [font], neither [_render] on a text
    that is to be rendered nor [bounds] returns: both throw on the
    font. *)
Theorem render_without_font_throws r pipeline _bounds :
  is_Some (_font r) →
  let r' := (set_font r None).1 in
  _font r' = None ∧
  _isContainDirtyFlag r' DirtyFlag.SubFont = true ∧
  get_bounds r' _bounds = None ∧
  (¬ nothing_to_render r → _render r' pipeline = None).
Proof.
  intros [font Hfont] r'.
  assert (Hr' : r' = _setDirtyFlagTrue (with_font r None) DirtyFlag.Font).
  { unfold r', set_font. rewrite Hfont. by case_decide. }
  assert (Hnone : _font r' = None) by (rewrite Hr'; by destruct r).
  assert (Hsub : _isContainDirtyFlag r' DirtyFlag.SubFont = true).
  { rewrite Hr'. unfold _isContainDirtyFlag.
    rewrite dirtyFlag_setTrue, contains_lor. apply orb_true_r. }
  split_and!; [done|done| |].
  - unfold TextRenderer.get_bounds, TextRenderer._resetSubFont.
    by rewrite Hsub, Hnone.
  - intros Hnot.
    assert (Hnot' : ¬ nothing_to_render r').
    { rewrite Hr'. unfold nothing_to_render in *. by destruct r. }
    unfold TextRenderer._render. rewrite (render_guard r' Hnot').
    set (r1 := if _isContainDirtyFlag r' DirtyFlag.MaskInteraction then _ else r').
    assert (_font r1 = None ∧ _isContainDirtyFlag r1 DirtyFlag.SubFont = true)
      as [Hf1 Hs1].
    { unfold r1. destruct (_isContainDirtyFlag r' DirtyFlag.MaskInteraction);
        [|done].
      split; [rewrite <-Hnone; by destruct r'|].
      rewrite contain_setFalse. rewrite <-Hsub. by destruct r'. }
    unfold TextRenderer._resetSubFont. by rewrite Hs1, Hf1.
Qed.

(** X23.  Reading [bounds] lowers the four flags of [Font], that is
    [SubFont], [LocalPositionBounds], [WorldPosition] and [WorldBounds],
    whatever the updates did; it is the one place where [WorldBounds] is
    lowered. *)
Theorem bounds_lowers_the_font_flags r _bounds _bounds' r' :
  get_bounds r _bounds = Some (_bounds', r') →
  _isContainDirtyFlag r' DirtyFlag.Font = false ∧
  _isContainDirtyFlag r' DirtyFlag.SubFont = false ∧
  _isContainDirtyFlag r' DirtyFlag.LocalPositionBounds = false ∧
  _isContainDirtyFlag r' DirtyFlag.WorldPosition = false ∧
  _isContainDirtyFlag r' DirtyFlag.WorldBounds = false.
Proof.
  unfold TextRenderer.get_bounds.
  destruct (if _isContainDirtyFlag r DirtyFlag.SubFont then _ else Some r)
    as [r1|]; simpl; [|done].
  intros; simplify_eq.
  split_and!; rewrite contain_setFalse; unfold _isContainDirtyFlag;
    by rewrite Z.land_0_r.
Qed.

End Bounds.
End Render.
End Flags.

Lemma dirty_flags_are_independent_bits_witness :
  _isContainDirtyFlag
    (_setDirtyFlagTrue wrapped_without_width (2 ^ 32 + 16))
    DirtyFlag.MaskInteraction = true.
Proof.
  destruct (dirty_flags_are_independent_bits wrapped_without_width
              (2 ^ 32 + 16) DirtyFlag.MaskInteraction) as (Hraised & _).
  - unfold int32. split; [discriminate|reflexivity].
  - rewrite Hraised. reflexivity.
Defined.

Lemma render_with_lowered_flags_only_pushes_witness :
  let r := with_dirtyFlag (with_enableWrapping wrapped_without_width false) 0 in
  _render (λ font size style, font + Z.to_nat size + Z.to_nat style)
    (λ r, r) (λ r, r) r []
  = Some (r, [{| component := r; charElements := [] |}]).
Proof.
  apply (render_with_lowered_flags_only_pushes
           (λ font size style, font + Z.to_nat size + Z.to_nat style)
           (λ r, r) (λ r, r)
           (with_dirtyFlag (with_enableWrapping wrapped_without_width false) 0)
           []); try reflexivity.
  intros [Htext|[[Hwrap _]|[Hover _]]]; discriminate.
Defined.

Lemma render_without_font_throws_witness :
  _render (λ font size style, font + Z.to_nat size + Z.to_nat style)
    (λ r, r) (λ r, r)
    (set_font (with_enableWrapping wrapped_without_width false) None).1 []
  = None.
Proof.
  destruct (render_without_font_throws
              (λ font size style, font + Z.to_nat size + Z.to_nat style)
              (λ r, r) (λ r, r) (λ (r : @TextRenderer nat nat nat nat) (b : nat), b)
              (with_enableWrapping wrapped_without_width false) [] 0)
    as (_ & _ & _ & Hthrows).
  - by exists 0.
  - apply Hthrows. intros [Htext|[[Hwrap _]|[Hover _]]]; discriminate.
Defined.

Lemma render_lowers_four_flags_witness :
  let r := _onTransformChanged (with_enableWrapping wrapped_without_width false) in
  ∃ r' pipeline',
    _render (λ font size style, font + Z.to_nat size + Z.to_nat style)
      (λ r, r) (λ r, r) r [] = Some (r', pipeline') ∧
    _isContainDirtyFlag r' DirtyFlag.WorldBounds
      = _isContainDirtyFlag r DirtyFlag.WorldBounds.
Proof.
  intros r. eexists _, _. split; [reflexivity|].
  refine (proj1 (proj2 (render_lowers_four_flags
              (λ font size style, font + Z.to_nat size + Z.to_nat style)
              (λ r, r) (λ r, r) r [] _ _ _ _ _ _)));
    try reflexivity.
  intros [Htext|[[Hwrap _]|[Hover _]]]; discriminate.
Defined.

Lemma bounds_lowers_the_font_flags_witness :
  ∃ b' r',
    get_bounds (λ font size style, font + Z.to_nat size + Z.to_nat style)
      (λ r, r) (λ r, r) (λ (r : @TextRenderer nat nat nat nat) (b : nat), S b)
      wrapped_without_width 0 = Some (b', r') ∧
    _isContainDirtyFlag r' DirtyFlag.WorldBounds = false.
Proof.
  eexists _, _. split; [reflexivity|].
  destruct (bounds_lowers_the_font_flags
              (λ font size style, font + Z.to_nat size + Z.to_nat style)
              (λ r, r) (λ r, r) (λ (r : @TextRenderer nat nat nat nat) (b : nat), S b)
              wrapped_without_width 0 _ _ eq_refl) as (_ & _ & _ & _ & Hworld).
  exact Hworld.
Defined.

End TextRendererExtras.

(** ** TextRenderer: the corners of the glyph quads *)

Module TextRendererPositionProofs.
Import Camera TextRendererPosition.

Section PositionProofs.
Context {Other : Type}.
Local Open Scope Qc_scope.
Implicit Types d : CharRenderData Other.

Lemma _updatePosition_quad_corners (e : Matrix) d :
  (4 ≤ length (positions d))%nat →
  let left := Vector4.x (localPositions d) in
  let top := Vector4.y (localPositions d) in
  let right := Vector4.z (localPositions d) in
  let bottom := Vector4.w (localPositions d) in
  _updatePosition_quad e d
  = Some {| other := other d; localPositions := localPositions d;
            positions :=
              [to_world e left top; to_world e right top;
               to_world e right bottom; to_world e left bottom]
              ++ drop 4 (positions d) |}.
Proof.
  destruct d as [o [left top right bottom] ps]. simpl. intros Hlen.
  destruct ps as [|p0 [|p1 [|p2 [|p3 rest]]]]; simpl in Hlen; try lia.
  unfold _updatePosition_quad, write_position. simpl.
  repeat (case_decide; [|simpl in *; lia]; simpl).
  do 2 f_equal. unfold to_world, Vector3_add, Vector3_scale. simpl.
  repeat (apply (f_equal2 cons); [f_equal; ring|]). done.
Qed.

Lemma _updatePosition_quad_throws (e : Matrix) d :
  (length (positions d) < 4)%nat → _updatePosition_quad e d = None.
Proof.
  destruct d as [o lp ps]. simpl. intros Hlen.
  unfold _updatePosition_quad, write_position. simpl.
  destruct ps as [|p0 [|p1 [|p2 [|p3 rest]]]]; simpl in *; try done; lia.
Qed.


End PositionProofs.


End TextRendererPositionProofs.

(** ** Font: one font for a name, one sub-font for a size and a style *)

Module FontProofs.
Import JSString Font.

Lemma append_nil t : String.EmptyString +:+ t = t.
Proof. reflexivity. Qed.

Lemma append_cons a s t : String a s +:+ t = String a (s +:+ t).
Proof. reflexivity. Qed.

Lemma occurs_app c s t : occurs c (s +:+ t) = occurs c s || occurs c t.
Proof.
  induction s as [|a s IH]; [done|].
  rewrite append_cons. simpl. rewrite IH. by rewrite orb_assoc.
Qed.

(** The digits of a natural number hold no dash. *)
Lemma pretty_N_go_no_dash x s :
  occurs "-" s = false → occurs "-" (pretty_N_go x s) = false.
Proof.
  revert s. induction (N.lt_wf_0 x) as [x _ IH]; intros s Hs.
  assert (x = 0 ∨ 0 < x)%N as [->|?] by lia.
  - by rewrite pretty_N_go_0.
  - rewrite pretty_N_go_step by done. apply IH.
    { by apply N.div_lt. }
    simpl. rewrite Hs, orb_false_r. apply bool_decide_eq_false_2.
    unfold pretty_N_char. by repeat case_match.
Qed.

Lemma pretty_Z_no_dash (x : Z) : (0 ≤ x)%Z → occurs "-" (pretty x) = false.
Proof.
  intros Hx. destruct x as [|p|p]; [done| |lia].
  unfold pretty, pretty_Z, pretty, pretty_positive, pretty, pretty_N.
  case_decide; [done|]. by apply pretty_N_go_no_dash.
Qed.

(** Two texts that agree once a dash and a dashless text are appended
    agree, and so do the dashless texts. *)
Lemma split_at_last_dash s1 t1 s2 t2 :
  occurs "-" t1 = false → occurs "-" t2 = false →
  s1 +:+ "-" +:+ t1 = s2 +:+ "-" +:+ t2 → s1 = s2 ∧ t1 = t2.
Proof.
  intros Ht1 Ht2. revert s2.
  induction s1 as [|a s1 IH]; intros [|b s2];
    rewrite ?append_cons, ?append_nil; intros Heq.
  - by simplify_eq.
  - simplify_eq. rewrite occurs_app in Ht1. simpl in Ht1.
    by destruct (occurs _ s2).
  - simplify_eq. rewrite occurs_app in Ht2. simpl in Ht2.
    by destruct (occurs _ s1).
  - simplify_eq. destruct (IH s2) as [-> ->]; done.
Qed.

Lemma subFont_key_inj fontSize fontStyle fontSize' fontStyle' :
  (0 ≤ fontStyle)%Z → (0 ≤ fontStyle')%Z →
  subFont_key fontSize fontStyle = subFont_key fontSize' fontStyle' →
  fontSize = fontSize' ∧ fontStyle = fontStyle'.
Proof.
  intros Hs Hs' Hkey. unfold subFont_key in Hkey.
  apply split_at_last_dash in Hkey as [Hsize Hstyle];
    [|by apply pretty_Z_no_dash..].
  split; by apply (inj pretty).
Qed.

Section FontCache.
Context {SubFont : Type}.
Variable SubFont_new : SubFont.
Variable SubFont_destroy : SubFont → SubFont.
Local Abbreviation Heap := (@Heap SubFont).
Local Abbreviation _getSubFont := (_getSubFont SubFont_new).
Local Abbreviation _onDestroy := (_onDestroy SubFont_destroy).
Local Abbreviation destroy_all := (destroy_all SubFont_destroy).
Implicit Types h : Heap.

Lemma Heap_empty_well_formed : well_formed (Heap_empty (SubFont := SubFont)).
Proof. split_and!; intros *; simpl; by rewrite ?lookup_empty. Qed.

Lemma createFromOS_found h name font :
  name ≠ String.EmptyString → _fontMap h !! name = Some font →
  createFromOS h name = (Some (FontObject font), h).
Proof.
  intros Hname Hfound. unfold createFromOS, fontMap_get.
  case_decide; [|done]. by rewrite Hfound.
Qed.

Lemma createFromOS_inherited h name :
  JSObject.inherited name = true → _fontMap h !! name = None →
  createFromOS h name = (Some (Inherited name), h).
Proof.
  intros Hinherited Hnone. unfold createFromOS, fontMap_get.
  case_decide as Hname; [by rewrite Hnone, Hinherited|].
  by destruct (decide (name = String.EmptyString)) as [->|].
Qed.

Lemma createFromOS_new h name :
  name ≠ String.EmptyString → JSObject.inherited name = false →
  _fontMap h !! name = None →
  createFromOS h name
  = (Some (FontObject (length (fonts h))),
     {| fonts := fonts h ++ [{| _name := name; _subFontMap := Some ∅ |}];
        subFonts := subFonts h;
        _fontMap := <[name:=length (fonts h)]> (_fontMap h) |}).
Proof.
  intros Hname Hown Hnone. unfold createFromOS, fontMap_get.
  case_decide; [|done]. by rewrite Hnone, Hown.
Qed.

(** The three ways of [createFromOS] on a name that is not empty. *)
Lemma createFromOS_cases h name :
  name ≠ String.EmptyString →
  (∃ font, _fontMap h !! name = Some font) ∨
  (_fontMap h !! name = None ∧ JSObject.inherited name = true) ∨
  (_fontMap h !! name = None ∧ JSObject.inherited name = false).
Proof.
  intros _. destruct (_fontMap h !! name); [eauto|].
  destruct (JSObject.inherited name); auto.
Qed.

Lemma createFromOS_well_formed h name :
  well_formed h → well_formed (createFromOS h name).2.
Proof.
  intros Hwf. destruct (decide (name = String.EmptyString)) as [->|Hname].
  { unfold createFromOS. by case_decide. }
  destruct (createFromOS_cases h name Hname)
    as [[font Hfound]|[[Hnone Hown]|[Hnone Hown]]].
  - by rewrite (createFromOS_found h name font).
  - by rewrite (createFromOS_inherited h name).
  - rewrite (createFromOS_new h name) by done. simpl.
    destruct Hwf as (Hnames & Hbound & Hinj). split_and!; simpl.
    + intros name' font'. rewrite lookup_insert. case_decide as Hn.
      * intros; simplify_eq. eexists.
        split; [by rewrite lookup_app_r, Nat.sub_diag by lia|done].
      * intros Hf. destruct (Hnames _ _ Hf) as (this & Hthis & ?).
        exists this. split; [|done]. by apply lookup_app_l_Some.
    + intros font' this m key sub Hf Hm Hk.
      apply lookup_app_Some in Hf as [Hf|[_ Hf]]; [by eapply Hbound|].
      destruct (font' - length (fonts h)); simplify_eq/=.
    + intros f1 t1 m1 k1 f2 t2 m2 k2 sub Hf1 Hm1 Hf2 Hm2 Hk1 Hk2.
      apply lookup_app_Some in Hf1 as [Hf1|[_ Hf1]];
        [|destruct (f1 - length (fonts h)); simplify_eq/=].
      apply lookup_app_Some in Hf2 as [Hf2|[_ Hf2]];
        [|destruct (f2 - length (fonts h)); simplify_eq/=].
      by eapply Hinj.
Qed.

(** X26.  [createFromOS] answers [null] for the empty name and makes
    nothing.  Under a name that every object inherits ([constructor],
    [toString], [__proto__], ...) it makes nothing either: it returns
    what the font map inherits under that name, which is no font, and
    never enters such a name in the map.  For any other name it returns
    a font of that name, the same font on every further call, which
    makes nothing new; what is asked for under a different name is not
    that font.  The fonts that were there and the sub-fonts are
    untouched. *)
Theorem createFromOS_gives_one_font_per_name h name :
  well_formed h →
  createFromOS h String.EmptyString = (None, h) ∧
  (JSObject.inherited name = true →
   (createFromOS h name).2 = h ∧
   (_fontMap h !! name = None →
    createFromOS h name = (Some (Inherited name), h))) ∧
  (∀ other, JSObject.inherited other = true →
     _fontMap (createFromOS h name).2 !! other = _fontMap h !! other) ∧
  (name ≠ String.EmptyString → JSObject.inherited name = false →
   ∃ font h',
     createFromOS h name = (Some (FontObject font), h') ∧
     get_name h' font = Some name ∧
     createFromOS h' name = (Some (FontObject font), h') ∧
     well_formed h' ∧
     (∀ other member h'', other ≠ name →
        createFromOS h' other = (Some member, h'') →
        member ≠ FontObject font) ∧
     (∀ f, f < length (fonts h) → fonts h' !! f = fonts h !! f) ∧
     subFonts h' = subFonts h).
Proof.
  intros Hwf. split_and!.
  - unfold createFromOS. by case_decide.
  - intros Hinherited. split; [|by apply createFromOS_inherited].
    destruct (_fontMap h !! name) as [font|] eqn:Hfound.
    + rewrite (createFromOS_found h name font); [done| |done].
      by intros ->.
    + by rewrite createFromOS_inherited.
  - intros other Hinherited.
    destruct (decide (name = String.EmptyString)) as [->|Hname].
    { unfold createFromOS. by case_decide. }
    destruct (createFromOS_cases h name Hname)
      as [[font Hfound]|[[Hnone Hown]|[Hnone Hown]]].
    + by rewrite (createFromOS_found h name font).
    + by rewrite (createFromOS_inherited h name).
    + rewrite (createFromOS_new h name) by done. simpl.
      apply lookup_insert_ne. intros ->. by rewrite Hown in Hinherited.
  - intros Hname Hown.
    pose proof (createFromOS_well_formed h name Hwf) as Hwf'.
    assert (Hother : ∀ h' font, well_formed h' → _fontMap h' !! name = Some font →
              ∀ other member h'', other ≠ name →
                createFromOS h' other = (Some member, h'') →
                member ≠ FontObject font).
    { intros h' font (Hnames & _ & _) Hfound other member h'' Hne Hrun ->.
      destruct (Hnames _ _ Hfound) as (this & Hthis & Hn).
      unfold createFromOS, fontMap_get in Hrun. case_decide; [|done].
      destruct (_fontMap h' !! other) as [font'|] eqn:Hfound'; simplify_eq/=.
      - destruct (Hnames _ _ Hfound') as (this' & Hthis' & Hn'). by simplify_eq.
      - destruct (JSObject.inherited other); simplify_eq/=.
        apply lookup_lt_Some in Hthis. lia. }
    destruct (_fontMap h !! name) as [font|] eqn:Hfound.
    + exists font, h.
      split_and!; [by apply createFromOS_found| |by apply createFromOS_found|
                   done|by apply Hother|done|done].
      destruct Hwf as (Hnames & _).
      destruct (Hnames _ _ Hfound) as (this & Hthis & Hn).
      unfold get_name. by rewrite Hthis; simpl; rewrite Hn.
    + rewrite (createFromOS_new h name) in * by done. simpl in *.
      eexists _, _. split_and!; [done| | |done| | |done].
      * unfold get_name. simpl. by rewrite lookup_app_r, Nat.sub_diag by lia.
      * apply createFromOS_found; [done|]. simpl. by rewrite lookup_insert_eq.
      * apply Hother; [done|]. simpl. by rewrite lookup_insert_eq.
      * intros f Hf. simpl. by rewrite lookup_app_l.
Qed.

Lemma _getSubFont_found h font this subFontMap fontSize fontStyle subFont :
  fonts h !! font = Some this → _subFontMap this = Some subFontMap →
  subFontMap !! subFont_key fontSize fontStyle = Some subFont →
  _getSubFont h font fontSize fontStyle = Some (subFont, h).
Proof.
  intros Hthis Hmap Hfound. unfold Font._getSubFont.
  rewrite Hthis; simpl. rewrite Hmap; simpl. by rewrite Hfound.
Qed.

Lemma _getSubFont_new h font this subFontMap fontSize fontStyle :
  fonts h !! font = Some this → _subFontMap this = Some subFontMap →
  subFontMap !! subFont_key fontSize fontStyle = None →
  _getSubFont h font fontSize fontStyle
  = Some (length (subFonts h),
          {| fonts :=
               <[font:={| _name := _name this;
                          _subFontMap :=
                            Some (<[subFont_key fontSize fontStyle:=
                                      length (subFonts h)]> subFontMap) |}]>
                 (fonts h);
             subFonts := subFonts h ++ [SubFont_new];
             _fontMap := _fontMap h |}).
Proof.
  intros Hthis Hmap Hnone. unfold Font._getSubFont.
  rewrite Hthis; simpl. rewrite Hmap; simpl. by rewrite Hnone.
Qed.

Lemma _getSubFont_well_formed h font fontSize fontStyle subFont h' :
  well_formed h → _getSubFont h font fontSize fontStyle = Some (subFont, h') →
  well_formed h'.
Proof.
  intros Hwf Hrun. unfold Font._getSubFont in Hrun.
  destruct (fonts h !! font) as [this|] eqn:Hthis; simplify_eq/=.
  destruct (_subFontMap this) as [m|] eqn:Hmap; simplify_eq/=.
  destruct (m !! subFont_key fontSize fontStyle) as [sub|] eqn:Hkey;
    simplify_eq/=; [done|].
  destruct Hwf as (Hnames & Hbound & Hinj).
  assert (Hlook : ∀ f t, <[font:={| _name := _name this;
                     _subFontMap := Some (<[subFont_key fontSize fontStyle:=
                                              length (subFonts h)]> m) |}]>
                    (fonts h) !! f = Some t →
            (f = font ∧ _name t = _name this ∧
             _subFontMap t = Some (<[subFont_key fontSize fontStyle:=
                                       length (subFonts h)]> m)) ∨
            (f ≠ font ∧ fonts h !! f = Some t)).
  { intros f t Hf. destruct (decide (f = font)) as [->|Hne].
    - rewrite list_lookup_insert_eq in Hf by (by eapply lookup_lt_Some).
      simplify_eq. by left.
    - rewrite list_lookup_insert_ne in Hf by done. by right. }
  split_and!; simpl.
  - intros name f Hf. destruct (Hnames _ _ Hf) as (t & Ht & Hn).
    destruct (decide (f = font)) as [->|Hne].
    + eexists. rewrite list_lookup_insert_eq by (by eapply lookup_lt_Some).
      split; [done|]. simpl. by simplify_eq.
    + exists t. by rewrite list_lookup_insert_ne.
  - intros f t m' key sub Hf Hm Hk. rewrite length_app; simpl.
    destruct (Hlook _ _ Hf) as [(-> & _ & Hm')|[_ Hf']].
    + rewrite Hm' in Hm. simplify_eq.
      apply lookup_insert_Some in Hk as [[<- <-]|[N Hk]]; [lia|].
      pose proof (Hbound _ _ _ _ _ Hthis Hmap Hk). lia.
    + pose proof (Hbound _ _ _ _ _ Hf' Hm Hk). lia.
  - intros f1 t1 m1 k1 f2 t2 m2 k2 sub Hf1 Hm1 Hf2 Hm2 Hk1 Hk2.
    destruct (Hlook _ _ Hf1) as [(-> & _ & Hm1')|[Hne1 Hf1']],
      (Hlook _ _ Hf2) as [(-> & _ & Hm2')|[Hne2 Hf2']].
    + rewrite Hm1' in Hm1. rewrite Hm2' in Hm2. simplify_eq.
      split; [done|].
      apply lookup_insert_Some in Hk1 as [[<- <-]|[N1 Hk1]];
        apply lookup_insert_Some in Hk2 as [[<- E2]|[N2 Hk2]]; try done.
      * pose proof (Hbound _ _ _ _ _ Hthis Hmap Hk2). lia.
      * pose proof (Hbound _ _ _ _ _ Hthis Hmap Hk1). lia.
      * by destruct (Hinj _ _ _ _ _ _ _ _ _ Hthis Hmap Hthis Hmap Hk1 Hk2).
    + rewrite Hm1' in Hm1. simplify_eq.
      apply lookup_insert_Some in Hk1 as [[<- <-]|[N1 Hk1]].
      * pose proof (Hbound _ _ _ _ _ Hf2' Hm2 Hk2). lia.
      * by destruct (Hinj _ _ _ _ _ _ _ _ _ Hthis Hmap Hf2' Hm2 Hk1 Hk2).
    + rewrite Hm2' in Hm2. simplify_eq.
      apply lookup_insert_Some in Hk2 as [[<- <-]|[N2 Hk2]].
      * pose proof (Hbound _ _ _ _ _ Hf1' Hm1 Hk1). lia.
      * by destruct (Hinj _ _ _ _ _ _ _ _ _ Hf1' Hm1 Hthis Hmap Hk1 Hk2).
    + by eapply Hinj.
Qed.

(** In a well-formed heap, a sub-font that is in the map of a font
    under a key is not what any other font or any other key leads to. *)
Lemma _getSubFont_other h font this subFontMap key subFont
    font' fontSize' fontStyle' subFont' h' :
  well_formed h →
  fonts h !! font = Some this → _subFontMap this = Some subFontMap →
  subFontMap !! key = Some subFont →
  font' ≠ font ∨ subFont_key fontSize' fontStyle' ≠ key →
  _getSubFont h font' fontSize' fontStyle' = Some (subFont', h') →
  subFont' ≠ subFont.
Proof.
  intros (Hnames & Hbound & Hinj) Hthis Hmap Hkey Hne Hrun ->.
  unfold Font._getSubFont in Hrun.
  destruct (fonts h !! font') as [this'|] eqn:Hthis'; simplify_eq/=.
  destruct (_subFontMap this') as [m'|] eqn:Hmap'; simplify_eq/=.
  destruct (m' !! subFont_key fontSize' fontStyle') as [sub|] eqn:Hkey';
    simplify_eq/=.
  - destruct (Hinj _ _ _ _ _ _ _ _ _ Hthis Hmap Hthis' Hmap' Hkey Hkey')
      as [-> ->].
    by destruct Hne.
  - pose proof (Hbound _ _ _ _ _ Hthis Hmap Hkey). lia.
Qed.

(** X27.  [_getSubFont] on a font that is not destroyed returns a
    sub-font that exists, and the same one on every further call with
    the same size and style, which makes nothing new.  A call with
    another size or another style, the styles being natural numbers, or
    on another font, returns another sub-font.  The font map and the
    sub-fonts that were there are untouched. *)
Theorem getSubFont_gives_one_sub_font_per_size_and_style
    h font this subFontMap fontSize fontStyle :
  well_formed h →
  fonts h !! font = Some this → _subFontMap this = Some subFontMap →
  ∃ subFont h',
    _getSubFont h font fontSize fontStyle = Some (subFont, h') ∧
    _getSubFont h' font fontSize fontStyle = Some (subFont, h') ∧
    is_Some (subFonts h' !! subFont) ∧
    well_formed h' ∧
    (∀ fontSize' fontStyle' subFont' h'',
       (0 ≤ fontStyle)%Z → (0 ≤ fontStyle')%Z →
       (fontSize', fontStyle') ≠ (fontSize, fontStyle) →
       _getSubFont h' font fontSize' fontStyle' = Some (subFont', h'') →
       subFont' ≠ subFont) ∧
    (∀ font' fontSize' fontStyle' subFont' h'',
       font' ≠ font →
       _getSubFont h' font' fontSize' fontStyle' = Some (subFont', h'') →
       subFont' ≠ subFont) ∧
    _fontMap h' = _fontMap h ∧
    (∀ s, s < length (subFonts h) → subFonts h' !! s = subFonts h !! s).
Proof.
  intros Hwf Hthis Hmap.
  assert (Hrun : ∃ subFont h' this' subFontMap',
    _getSubFont h font fontSize fontStyle = Some (subFont, h') ∧
    fonts h' !! font = Some this' ∧ _subFontMap this' = Some subFontMap' ∧
    subFontMap' !! subFont_key fontSize fontStyle = Some subFont ∧
    _fontMap h' = _fontMap h ∧
    (∀ s, s < length (subFonts h) → subFonts h' !! s = subFonts h !! s)).
  { destruct (subFontMap !! subFont_key fontSize fontStyle) as [sub|] eqn:Hkey.
    - exists sub, h, this, subFontMap.
      split_and!; [by eapply _getSubFont_found|done..].
    - eexists _, _, _, _.
      split_and!; [by eapply _getSubFont_new| | | |done|].
      + simpl. apply list_lookup_insert_eq. by eapply lookup_lt_Some.
      + done.
      + by rewrite lookup_insert_eq.
      + intros s Hs. simpl. by rewrite lookup_app_l. }
  destruct Hrun as (subFont & h' & this' & subFontMap' & Hrun & Hthis' & Hmap'
                    & Hkey' & Hfm & Hold).
  pose proof (_getSubFont_well_formed _ _ _ _ _ _ Hwf Hrun) as Hwf'.
  exists subFont, h'. split_and!; [done| | |done| | |done|done].
  - by eapply _getSubFont_found.
  - apply lookup_lt_is_Some_2.
    destruct Hwf' as (_ & Hbound & _). by eapply Hbound.
  - intros fontSize' fontStyle' subFont' h'' Hs Hs' Hne Hrun'.
    eapply (_getSubFont_other h' font); [done..| |exact Hrun'].
    right. intros Hk. apply subFont_key_inj in Hk as [-> ->]; done.
  - intros font' fontSize' fontStyle' subFont' h'' Hne Hrun'.
    eapply (_getSubFont_other h' font); [done..| |exact Hrun']. by left.
Qed.

Lemma destroy_all_lookup (subFontMap : gmap string nat) (l : list SubFont) :
  (∀ k1 k2 s, subFontMap !! k1 = Some s → subFontMap !! k2 = Some s → k1 = k2) →
  length (destroy_all subFontMap l) = length l ∧
  (∀ k s, subFontMap !! k = Some s →
          destroy_all subFontMap l !! s = SubFont_destroy <$> l !! s) ∧
  (∀ s, (∀ k, subFontMap !! k ≠ Some s) → destroy_all subFontMap l !! s = l !! s).
Proof.
  unfold Font.destroy_all.
  apply (map_fold_weak_ind (λ r (m : gmap string nat),
    (∀ k1 k2 s, m !! k1 = Some s → m !! k2 = Some s → k1 = k2) →
    length r = length l ∧
    (∀ k s, m !! k = Some s → r !! s = SubFont_destroy <$> l !! s) ∧
    (∀ s, (∀ k, m !! k ≠ Some s) → r !! s = l !! s))).
  - intros _. split_and!; [done| |done]. intros k s. by rewrite lookup_empty.
  - intros key sub m r Hfresh IH Hinj.
    assert (Hinj' : ∀ k1 k2 s, m !! k1 = Some s → m !! k2 = Some s → k1 = k2).
    { intros k1 k2 s H1 H2. apply (Hinj k1 k2 s).
      - rewrite lookup_insert_ne; [done|]. intros ->. by rewrite Hfresh in H1.
      - rewrite lookup_insert_ne; [done|]. intros ->. by rewrite Hfresh in H2. }
    assert (Hnot : ∀ k, m !! k ≠ Some sub).
    { intros k Hk. assert (key = k) as <-; [|by rewrite Hfresh in Hk].
      apply (Hinj key k sub); [by rewrite lookup_insert_eq|].
      rewrite lookup_insert_ne; [done|]. intros ->. by rewrite Hfresh in Hk. }
    destruct (IH Hinj') as (Hlen & Hin & Hout).
    split_and!.
    + by rewrite length_alter.
    + intros k s Hk. apply lookup_insert_Some in Hk as [[<- <-]|[Hne Hk]].
      * rewrite list_lookup_alter_eq. by rewrite (Hout sub Hnot).
      * assert (s ≠ sub) by (intros ->; by apply (Hnot k)).
        rewrite list_lookup_alter_ne by done. by apply (Hin k).
    + intros s Hs.
      assert (s ≠ sub).
      { intros ->. apply (Hs key). by rewrite lookup_insert_eq. }
      rewrite list_lookup_alter_ne by done. apply Hout.
      intros k Hk. apply (Hs k). rewrite lookup_insert_ne; [done|].
      intros ->. by rewrite Hfresh in Hk.
Qed.

(** X28.  [_onDestroy] destroys the sub-fonts of the font, each once,
    and no other sub-font; it sets the map of the font to [null], so
    that [_getSubFont] on the font throws from then on; and it takes the
    name of the font out of the font map and no other name, so that
    [createFromOS] with that name makes a new font, unless the name is
    one that every object inherits, under which [createFromOS] makes
    nothing. *)
Theorem onDestroy_releases_the_font h font this subFontMap :
  well_formed h →
  fonts h !! font = Some this → _subFontMap this = Some subFontMap →
  ∃ h',
    _onDestroy h font = Some h' ∧
    (∀ key subFont, subFontMap !! key = Some subFont →
       subFonts h' !! subFont = SubFont_destroy <$> subFonts h !! subFont) ∧
    (∀ subFont, (∀ key, subFontMap !! key ≠ Some subFont) →
       subFonts h' !! subFont = subFonts h !! subFont) ∧
    (∀ fontSize fontStyle, _getSubFont h' font fontSize fontStyle = None) ∧
    (_name this ≠ String.EmptyString →
     JSObject.inherited (_name this) = false →
     ∃ h'', createFromOS h' (_name this)
              = (Some (FontObject (length (fonts h))), h'') ∧
            length (fonts h) ≠ font) ∧
    (JSObject.inherited (_name this) = true →
     createFromOS h' (_name this) = (Some (Inherited (_name this)), h')) ∧
    (∀ other, other ≠ _name this → _fontMap h' !! other = _fontMap h !! other) ∧
    _fontMap h' !! _name this = None ∧
    well_formed h'.
Proof.
  intros (Hnames & Hbound & Hinj) Hthis Hmap.
  assert (Hinjm : ∀ k1 k2 s, subFontMap !! k1 = Some s →
                             subFontMap !! k2 = Some s → k1 = k2).
  { intros k1 k2 s H1 H2.
    by destruct (Hinj _ _ _ _ _ _ _ _ _ Hthis Hmap Hthis Hmap H1 H2). }
  destruct (destroy_all_lookup subFontMap (subFonts h) Hinjm) as (Hlen & Hin & Hout).
  unfold Font._onDestroy. rewrite Hthis; simpl. rewrite Hmap.
  eexists. split; [done|]. simpl.
  assert (Hfont : font < length (fonts h)) by (by eapply lookup_lt_Some).
  split_and!; [done|done| | | | | |].
  - intros fontSize fontStyle. unfold Font._getSubFont. simpl.
    by rewrite list_lookup_insert_eq.
  - intros Hname Hown. rewrite createFromOS_new; simpl;
      [|done|done|by rewrite lookup_delete_eq].
    rewrite length_insert. eexists. split; [done|]. lia.
  - intros Hinherited. apply createFromOS_inherited; [done|]. simpl.
    by rewrite lookup_delete_eq.
  - intros other Hother. by rewrite lookup_delete_ne.
  - by rewrite lookup_delete_eq.
  - split_and!; simpl.
    + intros name f Hf. apply lookup_delete_Some in Hf as [Hne Hf].
      destruct (Hnames _ _ Hf) as (t & Ht & Hn).
      destruct (decide (f = font)) as [->|Hnf]; [by simplify_eq|].
      exists t. by rewrite list_lookup_insert_ne.
    + intros f t m key sub Hf Hm Hk. rewrite Hlen.
      destruct (decide (f = font)) as [->|Hnf].
      * rewrite list_lookup_insert_eq in Hf by done. by simplify_eq.
      * rewrite list_lookup_insert_ne in Hf by done. by eapply Hbound.
    + intros f1 t1 m1 k1 f2 t2 m2 k2 sub Hf1 Hm1 Hf2 Hm2 Hk1 Hk2.
      destruct (decide (f1 = font)) as [->|Hn1].
      { rewrite list_lookup_insert_eq in Hf1 by done. by simplify_eq. }
      destruct (decide (f2 = font)) as [->|Hn2].
      { rewrite list_lookup_insert_eq in Hf2 by done. by simplify_eq. }
      rewrite list_lookup_insert_ne in Hf1, Hf2 by done. by eapply Hinj.
Qed.

End FontCache.

Lemma createFromOS_gives_one_font_per_name_witness :
  (∃ font h',
     createFromOS (Heap_empty (SubFont := nat)) "Arial"
       = (Some (FontObject font), h') ∧
     createFromOS h' "Arial" = (Some (FontObject font), h')) ∧
  createFromOS (Heap_empty (SubFont := nat)) "constructor"
    = (Some (Inherited "constructor"), Heap_empty).
Proof.
  split.
  - destruct (createFromOS_gives_one_font_per_name
                (Heap_empty (SubFont := nat)) "Arial" Heap_empty_well_formed)
      as (_ & _ & _ & Hnamed).
    destruct Hnamed as (font & h' & Hfirst & _ & Hsecond & _);
      [done|reflexivity|].
    by exists font, h'.
  - destruct (createFromOS_gives_one_font_per_name
                (Heap_empty (SubFont := nat)) "constructor"
                Heap_empty_well_formed)
      as (_ & Hinherited & _).
    destruct Hinherited as [_ Hmember]; [reflexivity|].
    apply Hmember. reflexivity.
Defined.

Lemma getSubFont_gives_one_sub_font_per_size_and_style_witness :
  ∃ subFont h',
    _getSubFont 0 (createFromOS (Heap_empty (SubFont := nat)) "Arial").2 0 24 0
      = Some (subFont, h') ∧
    _getSubFont 0 h' 0 24 0 = Some (subFont, h').
Proof.
  destruct (getSubFont_gives_one_sub_font_per_size_and_style 0
              (createFromOS (Heap_empty (SubFont := nat)) "Arial").2 0
              {| _name := "Arial"; _subFontMap := Some ∅ |} ∅ 24 0)
    as (subFont & h' & Hfirst & Hsecond & _).
  - apply createFromOS_well_formed, Heap_empty_well_formed.
  - reflexivity.
  - reflexivity.
  - by exists subFont, h'.
Defined.

Lemma onDestroy_releases_the_font_witness :
  ∃ h',
    _onDestroy S (createFromOS (Heap_empty (SubFont := nat)) "Arial").2 0
      = Some h' ∧
    _getSubFont 0 h' 0 24 0 = None.
Proof.
  destruct (onDestroy_releases_the_font 0 S
              (createFromOS (Heap_empty (SubFont := nat)) "Arial").2 0
              {| _name := "Arial"; _subFontMap := Some ∅ |} ∅)
    as (h' & Hrun & _ & _ & Hthrows & _).
  - apply createFromOS_well_formed, Heap_empty_well_formed.
  - reflexivity.
  - reflexivity.
  - exists h'. split; [exact Hrun|apply Hthrows].
Defined.

End FontProofs.

(** ** BufferParser: the extension test *)

Module BufferParserProofs.
Import JSString BufferParser.

Lemma string_append_nil t : String.EmptyString +:+ t = t.
Proof. reflexivity. Qed.

Lemma string_append_cons a s t : String a s +:+ t = String a (s +:+ t).
Proof. reflexivity. Qed.

Lemma string_length_app s t :
  String.length (s +:+ t) = String.length s + String.length t.
Proof.
  induction s as [|a s IH]; [done|].
  rewrite string_append_cons. simpl. by rewrite IH.
Qed.

Lemma lastIndexOf_from_none s c position :
  occurs c s = false → lastIndexOf_from s c position = (-1)%Z.
Proof.
  revert position. induction s as [|a s IH]; intros position; simpl; [done|].
  intros Hocc. apply orb_false_elim in Hocc as [Ha Hs].
  rewrite (IH _ Hs). apply bool_decide_eq_false in Ha.
  case_decide; [done|]. by case_decide.
Qed.

Lemma lastIndexOf_from_last s c t position :
  occurs c t = false → (0 ≤ position)%Z →
  lastIndexOf_from (s +:+ String c t) c position
  = (position + Z.of_nat (String.length s))%Z.
Proof.
  intros Ht. revert position.
  induction s as [|a s IH]; intros position Hpos.
  - rewrite string_append_nil. simpl. rewrite (lastIndexOf_from_none t c) by done.
    case_decide; [done|]. case_decide; [lia|done].
  - rewrite string_append_cons. simpl. rewrite IH by lia.
    case_decide; lia.
Qed.

Lemma substring_skip s t n m :
  String.substring (String.length s + n) m (s +:+ t) = String.substring n m t.
Proof.
  induction s as [|a s IH]; [done|]. rewrite string_append_cons. simpl. done.
Qed.

Lemma substring_prefix_clamp s m :
  String.substring 0 (m `min` String.length s) s = String.substring 0 m s.
Proof.
  revert m. induction s as [|a s IH]; intros [|m]; simpl; try done.
  by rewrite IH.
Qed.

(** [url.substring(n + 1, n + 4)] for a position [n + 1] inside [url]. *)
Lemma substring_three s t :
  substring (s +:+ t) (Z.of_nat (String.length s))
    (Z.of_nat (String.length s) + 3)
  = String.substring 0 3 t.
Proof.
  unfold substring. rewrite string_length_app.
  set (n := String.length s). set (k := String.length t).
  replace (Z.max (Z.of_nat n) 0 `min` Z.of_nat (n + k))%Z with (Z.of_nat n) by lia.
  replace (Z.max (Z.of_nat n + 3) 0 `min` Z.of_nat (n + k))%Z
    with (Z.of_nat (n + 3 `min` k)) by lia.
  replace (Z.of_nat n `min` Z.of_nat (n + 3 `min` k))%Z with (Z.of_nat n) by lia.
  replace (Z.of_nat n `max` Z.of_nat (n + 3 `min` k))%Z
    with (Z.of_nat (n + 3 `min` k)) by lia.
  rewrite Nat2Z.id.
  replace (Z.to_nat (Z.of_nat (n + 3 `min` k) - Z.of_nat n)) with (3 `min` k) by lia.
  replace n with (String.length s + 0) at 1 by (unfold n; lia).
  rewrite substring_skip. apply substring_prefix_clamp.
Qed.

(** X29.  [_isGLB] looks at the three characters after the last dot of
    the url, and at its first three characters when it has no dot: the
    url is taken for a binary glTF exactly when these are [glb].  So
    every url that ends in [.glb] is one, whatever stands before, and so
    is a url without a dot that starts with [glb]; an extension in
    capitals is not. *)
Theorem isGLB_reads_three_characters_after_the_last_dot :
  (∀ stem extension,
     occurs "." extension = false →
     _isGLB (stem +:+ "." +:+ extension)
     = bool_decide (String.substring 0 3 extension = "glb")) ∧
  (∀ url,
     occurs "." url = false →
     _isGLB url = bool_decide (String.substring 0 3 url = "glb")) ∧
  (∀ stem, _isGLB (stem +:+ ".glb") = true) ∧
  (∀ stem, _isGLB (stem +:+ ".GLB") = false) ∧
  (∀ stem, _isGLB (stem +:+ ".gltf") = false).
Proof.
  assert (Hdot : ∀ stem extension,
     occurs "." extension = false →
     _isGLB (stem +:+ "." +:+ extension)
     = bool_decide (String.substring 0 3 extension = "glb")).
  { intros stem extension Hext. unfold _isGLB, lastIndexOf.
    change ("." +:+ extension) with (String "." extension).
    rewrite lastIndexOf_from_last by done.
    replace (0 + Z.of_nat (String.length stem) + 1)%Z
      with (Z.of_nat (String.length (stem +:+ "."))) by (rewrite string_length_app; simpl; lia).
    replace (0 + Z.of_nat (String.length stem) + 4)%Z
      with (Z.of_nat (String.length (stem +:+ ".")) + 3)%Z
      by (rewrite string_length_app; simpl; lia).
    assert (stem +:+ String "." extension = (stem +:+ ".") +:+ extension) as ->.
    { induction stem as [|a stem IH]; [done|].
      rewrite !string_append_cons. by rewrite IH. }
    by rewrite substring_three. }
  split_and!.
  - exact Hdot.
  - intros url Hurl. unfold _isGLB, lastIndexOf.
    rewrite lastIndexOf_from_none by done.
    pose proof (substring_three String.EmptyString url) as Hthree.
    rewrite string_append_nil in Hthree. rewrite <-Hthree. reflexivity.
  - intros stem. apply (Hdot stem "glb"). done.
  - intros stem. apply (Hdot stem "GLB"). done.
  - intros stem. apply (Hdot stem "gltf"). done.
Qed.

End BufferParserProofs.
